(** * Lexical indexing engine of the codebase MCP server

    A shallow embedding of [src/services/git.service.ts] (identity keys,
    the repository stores, the lexical extractor, the indexing pass,
    [searchCode] and [getFileContent]), of [src/tools/search.tools.ts]
    (the handlers of the query, search, file and function tools, the
    keyword helpers and the Markdown of the query results), and of the
    constants and the [limit] schema they use, followed by the properties
    the specification states about them and by further properties of the
    same code: the soundness of the pattern matcher, what the extractor
    recognises and records, what the index holds, and what the handlers
    answer.

    Conventions.  A JavaScript string is the list of its code units; the
    development covers the code units below 256 (the Latin-1 range), one
    [ascii] each.  Line numbers, indices and lengths are [nat]; the search
    [limit], which a caller may pass as any integer, is a [Z].  A thrown
    exception is the [Throw] result of the function that raises it. *)

From Stdlib Require Import Ascii String DecimalString DecimalNat.
From Stdlib Require Import ZArith Lia Bool Arith PeanoNat Sorted List.
Import ListNotations.

Set Implicit Arguments.

(* ================================================================== *)
(** * JavaScript strings *)
(* ================================================================== *)

Module JsString.

Definition jsstring := list ascii.

(** String literals of the source are written [js "..."]. *)
Definition js (s : string) : jsstring := list_ascii_of_string s.

Definition code (c : ascii) : nat := nat_of_ascii c.

Definition between (lo hi : nat) (c : ascii) : bool :=
  (lo <=? code c) && (code c <=? hi).

Definition jsstring_eqb (a b : jsstring) : bool :=
  if list_eq_dec ascii_dec a b then true else false.

(** [\s], and the set [trim] strips: TAB LF VT FF CR SP and NBSP. *)
Definition is_space (c : ascii) : bool :=
  between 9 13 c || (code c =? 32) || (code c =? 160).

(** [\w]: [A-Za-z0-9_]. *)
Definition is_word (c : ascii) : bool :=
  between 65 90 c || between 97 122 c || between 48 57 c || (code c =? 95).

(** [String.prototype.toLowerCase], one code unit: A-Z and the Latin-1
    capitals (all of C0..DE but the multiplication sign D7). *)
Definition lower (c : ascii) : ascii :=
  if between 65 90 c || (between 192 222 c && negb (code c =? 215))
  then ascii_of_nat (code c + 32) else c.

(** [Canonicalize] of a case-insensitive pattern: the upper-case mapping
    where it is a single code unit.  a-z and E0..FE but the division sign
    F7 move down by 32; sharp s (DF) upper-cases to two units and is kept;
    micro sign (B5) and y-diaeresis (FF) map outside the range covered
    here, to units no other unit below 256 canonicalizes to, and stand for
    themselves. *)
Definition canonicalize (c : ascii) : ascii :=
  if between 97 122 c || (between 224 254 c && negb (code c =? 247))
  then ascii_of_nat (code c - 32) else c.

Definition toLowerCase (s : jsstring) : jsstring := map lower s.

Fixpoint trimStart (s : jsstring) : jsstring :=
  match s with
  | c :: t => if is_space c then trimStart t else s
  | [] => []
  end.

Definition trimEnd (s : jsstring) : jsstring := rev (trimStart (rev s)).

(** [String.prototype.trim]. *)
Definition trim (s : jsstring) : jsstring := trimEnd (trimStart s).

(** [s.split(sep)] for a one-unit separator: never empty, one more field
    than there are separators. *)
Fixpoint split_on (sep : ascii) (s : jsstring) : list jsstring :=
  match s with
  | [] => [[]]
  | c :: t =>
      if Ascii.eqb c sep then [] :: split_on sep t
      else match split_on sep t with
           | f :: fs => (c :: f) :: fs
           | [] => [[c]]
           end
  end.

(** [content.split("\n")]. *)
Definition lines_of (content : jsstring) : list jsstring :=
  split_on "010"%char content.

(** [s.includes(c)] for a one-unit needle. *)
Definition includes_char (c : ascii) (s : jsstring) : bool :=
  existsb (Ascii.eqb c) s.

(** [(s.match(/c/g) || []).length] for a one-unit pattern. *)
Definition count_char (c : ascii) (s : jsstring) : nat :=
  length (filter (Ascii.eqb c) s).

(** [[...new Set(xs)]]: first occurrences, in order. *)
Fixpoint unique (seen xs : list jsstring) : list jsstring :=
  match xs with
  | [] => []
  | x :: t =>
      if existsb (jsstring_eqb x) seen then unique seen t
      else x :: unique (x :: seen) t
  end.

(** The decimal digits of a number, as a template literal renders it. *)
Definition decimal (n : nat) : jsstring :=
  list_ascii_of_string (NilEmpty.string_of_uint (Nat.to_uint n)).

End JsString.
Import JsString.

(* ================================================================== *)
(** * Regular expressions *)
(* ================================================================== *)

(** The patterns of the program, as syntax trees, and the backtracking
    matcher of the language standard run on them: alternatives left to
    right, quantifiers greedy unless marked lazy, an iteration of a
    quantifier that consumes nothing rejected.  No pattern of the program
    puts a capturing group under a quantifier, so captures are never
    reset. *)
Module Regex.

Inductive regex : Type :=
| Empty                             (* the empty pattern *)
| Char (c : ascii)                  (* a pattern character or identity escape *)
| Class (invert : bool) (p : ascii -> bool)
                                    (* \s, \w, \S, ., [...] and, inverted, [^...] *)
| Bol                               (* ^ *)
| Seq (r1 r2 : regex)
| Alt (r1 r2 : regex)               (* r1|r2 *)
| Opt (r : regex)                   (* r? *)
| Star (greedy : bool) (r : regex)  (* r* and r*? *)
| Group (n : nat) (r : regex).      (* the n-th capturing group *)

(** [r+] and [r+?]. *)
Definition Plus (greedy : bool) (r : regex) : regex := Seq r (Star greedy r).

Fixpoint Seqs (rs : list regex) : regex :=
  match rs with
  | [] => Empty
  | [r] => r
  | r :: t => Seq r (Seqs t)
  end.

Fixpoint Alts (r : regex) (rs : list regex) : regex :=
  match rs with
  | [] => r
  | r' :: t => Alt r (Alts r' t)
  end.

(** A run of pattern characters. *)
Fixpoint Lit (s : jsstring) : regex :=
  match s with
  | [] => Empty
  | c :: t => Seq (Char c) (Lit t)
  end.

Definition captures := list (nat * jsstring).

Fixpoint capture (n : nat) (c : captures) : option jsstring :=
  match c with
  | [] => None
  | (k, v) :: t => if k =? n then Some v else capture n t
  end.

Definition all_units : list ascii := map ascii_of_nat (seq 0 256).

Section Matcher.

(** The [i] flag. *)
Variable ignoreCase : bool.

Definition unit_matches (a x : ascii) : bool :=
  if ignoreCase then Ascii.eqb (canonicalize a) (canonicalize x)
  else Ascii.eqb a x.

(** CharacterSetMatcher: some member of the set has the canonical form
    of the input unit, which without [i] is the unit itself; an inverted
    class matches when none has. *)
Definition class_matches (invert : bool) (p : ascii -> bool) (x : ascii)
  : bool :=
  let found :=
    if ignoreCase
    then existsb (fun a => p a && Ascii.eqb (canonicalize a) (canonicalize x))
                 all_units
    else p x in
  xorb invert found.

Definition result := option (nat * captures).
Definition continuation := nat -> jsstring -> captures -> result.

(** [run r i rest c k]: match [r] at index [i], where [rest] is the
    subject from [i] on, then continue with [k]. *)
Fixpoint run (r : regex) (i : nat) (rest : jsstring) (c : captures)
         (k : continuation) {struct r} : result :=
  match r with
  | Empty => k i rest c
  | Char a =>
      match rest with
      | x :: t => if unit_matches a x then k (S i) t c else None
      | [] => None
      end
  | Class invert p =>
      match rest with
      | x :: t => if class_matches invert p x then k (S i) t c else None
      | [] => None
      end
  | Bol => if i =? 0 then k i rest c else None
  | Seq r1 r2 => run r1 i rest c (fun i' rest' c' => run r2 i' rest' c' k)
  | Alt r1 r2 =>
      match run r1 i rest c k with
      | Some x => Some x
      | None => run r2 i rest c k
      end
  | Opt r1 =>
      match run r1 i rest c
                (fun i' rest' c' => if i' =? i then None else k i' rest' c')
      with
      | Some x => Some x
      | None => k i rest c
      end
  | Star greedy r1 =>
      (fix loop (fuel : nat) (i : nat) (rest : jsstring) (c : captures)
           {struct fuel} : result :=
         match fuel with
         | 0 => k i rest c
         | S f =>
             let again :=
               run r1 i rest c
                   (fun i' rest' c' =>
                      if i' =? i then None else loop f i' rest' c') in
             if greedy then
               match again with
               | Some x => Some x
               | None => k i rest c
               end
             else
               match k i rest c with
               | Some x => Some x
               | None => again
               end
         end) (S (length rest)) i rest c
  | Group n r1 =>
      run r1 i rest c
          (fun i' rest' c' => k i' rest' ((n, firstn (i' - i) rest) :: c'))
  end.

(** The loop of a quantifier, as [run] has it.  It starts with one unit
    of fuel more than there are units left; an iteration that consumes
    nothing is rejected, so the loop cannot turn that often. *)
Definition star_loop (greedy : bool) (r1 : regex) (k : continuation) :=
  fix loop (fuel : nat) (i : nat) (rest : jsstring) (c : captures)
      {struct fuel} : result :=
    match fuel with
    | 0 => k i rest c
    | S f =>
        let again :=
          run r1 i rest c
              (fun i' rest' c' =>
                 if i' =? i then None else loop f i' rest' c') in
        if greedy then
          match again with
          | Some x => Some x
          | None => k i rest c
          end
        else
          match k i rest c with
          | Some x => Some x
          | None => again
          end
    end.

(** One attempt at index [i]: the end index and the captures. *)
Definition match_at (r : regex) (i : nat) (rest : jsstring) : result :=
  run r i rest [] (fun i' _ c' => Some (i', c')).

(** The scan of RegExpBuiltinExec: the first index from [i] on at which
    the pattern matches. *)
Fixpoint scan_from (r : regex) (i : nat) (rest : jsstring)
  : option (nat * nat * captures) :=
  match match_at r i rest with
  | Some (e, c) => Some (i, e, c)
  | None =>
      match rest with
      | [] => None
      | _ :: t => scan_from r (S i) t
      end
  end.

End Matcher.

(** A RegExp object: the compiled pattern, its flags, and the mutable
    [lastIndex]. *)
Record RegExp : Type := mkRegExp {
  source : regex;
  global : bool;
  ignoreCase : bool;
  lastIndex : nat
}.

Definition set_lastIndex (R : RegExp) (n : nat) : RegExp :=
  mkRegExp (source R) (global R) (ignoreCase R) n.

(** RegExpBuiltinExec.  A global pattern starts at [lastIndex]; it leaves
    [lastIndex] at the end of the match, or at 0 when there is none. *)
Definition exec (R : RegExp) (s : jsstring)
  : option (nat * nat * captures) * RegExp :=
  let start := if global R then lastIndex R else 0 in
  if length s <? start then
    (None, if global R then set_lastIndex R 0 else R)
  else
    match scan_from (ignoreCase R) (source R) start (skipn start s) with
    | Some (b, e, c) =>
        (Some (b, e, c), if global R then set_lastIndex R e else R)
    | None => (None, if global R then set_lastIndex R 0 else R)
    end.

(** [R.test(s)]. *)
Definition test (R : RegExp) (s : jsstring) : bool * RegExp :=
  match exec R s with
  | (Some _, R') => (true, R')
  | (None, R') => (false, R')
  end.

(** [s.match(/r/)] for a pattern literal without flags: the captures of
    the first match. *)
Definition match_ (r : regex) (s : jsstring) : option captures :=
  match scan_from false r 0 s with
  | Some (_, _, c) => Some c
  | None => None
  end.

(** [m[n]] of a match array, [undefined] and the empty string both
    falsy. *)
Definition truthy_group (n : nat) (c : captures) : option jsstring :=
  match capture n c with
  | Some (x :: t) => Some (x :: t)
  | _ => None
  end.

(** [m[n] || ""]. *)
Definition group_or_empty (n : nat) (c : captures) : jsstring :=
  match capture n c with
  | Some v => v
  | None => []
  end.

(** Pattern shorthands. *)
Definition s_ : regex := Class false is_space.
Definition w_ : regex := Class false is_word.
Definition not_unit (a : ascii) : regex := Class true (fun x => Ascii.eqb x a).
Definition one_of (s : jsstring) : regex :=
  Class false (fun x => existsb (Ascii.eqb x) s).
Definition none_of (s : jsstring) : regex :=
  Class true (fun x => existsb (Ascii.eqb x) s).
Definition L (s : string) : regex := Lit (js s).

End Regex.
Import Regex.

(* ================================================================== *)
(** * Maps in insertion order *)
(* ================================================================== *)

(** A JavaScript [Map] keyed by strings: iteration follows insertion
    order, and [set] on a key already present replaces the value where
    the key stands. *)
Module JsMap.

Definition Map (V : Type) := list (jsstring * V).

Definition empty {V : Type} : Map V := [].

Fixpoint get {V : Type} (k : jsstring) (m : Map V) : option V :=
  match m with
  | [] => None
  | (k', v) :: t => if jsstring_eqb k k' then Some v else get k t
  end.

Fixpoint set {V : Type} (k : jsstring) (v : V) (m : Map V) : Map V :=
  match m with
  | [] => [(k, v)]
  | (k', v') :: t =>
      if jsstring_eqb k k' then (k', v) :: t else (k', v') :: set k v t
  end.

Definition keys {V : Type} (m : Map V) : list jsstring := map fst m.
Definition values {V : Type} (m : Map V) : list V := map snd m.

End JsMap.

(* ================================================================== *)
(** * constants.ts *)
(* ================================================================== *)

Definition DEFAULT_LIMIT : Z := 20.
Definition MAX_LIMIT : Z := 100.

Definition CODE_EXTENSIONS : list jsstring := map js
  [ ".ts"; ".tsx"; ".js"; ".jsx"; ".mjs"; ".cjs";
    ".py"; ".pyw";
    ".java"; ".kt"; ".scala";
    ".go";
    ".rs";
    ".c"; ".cpp"; ".cc"; ".h"; ".hpp";
    ".cs";
    ".rb";
    ".php";
    ".swift";
    ".vue"; ".svelte";
    ".sql";
    ".sh"; ".bash"; ".zsh";
    ".yaml"; ".yml";
    ".json";
    ".xml";
    ".html"; ".css"; ".scss"; ".sass"; ".less";
    ".md"; ".mdx";
    ".graphql"; ".gql";
    ".proto";
    ".tf"; ".tfvars" ]%string.

Definition IGNORE_PATTERNS : list jsstring := map js
  [ "node_modules"; ".git"; ".svn"; ".hg"; "dist"; "build"; "out";
    ".next"; ".nuxt"; "__pycache__"; ".pytest_cache"; "venv"; ".venv";
    "env"; ".env"; "target"; "bin"; "obj"; ".idea"; ".vscode";
    "*.min.js"; "*.min.css"; "*.map"; "*.lock";
    "package-lock.json"; "yarn.lock"; "pnpm-lock.yaml"; "*.log" ]%string.

Definition LANGUAGE_MAP : JsMap.Map jsstring :=
  map (fun e => (js (fst e), js (snd e)))
  [ (".ts", "typescript"); (".tsx", "typescript");
    (".js", "javascript"); (".jsx", "javascript");
    (".mjs", "javascript"); (".cjs", "javascript");
    (".py", "python"); (".pyw", "python");
    (".java", "java"); (".kt", "kotlin"); (".scala", "scala");
    (".go", "go"); (".rs", "rust");
    (".c", "c"); (".cpp", "cpp"); (".cc", "cpp"); (".h", "c"); (".hpp", "cpp");
    (".cs", "csharp"); (".rb", "ruby"); (".php", "php"); (".swift", "swift");
    (".vue", "vue"); (".svelte", "svelte"); (".sql", "sql");
    (".sh", "bash"); (".bash", "bash"); (".zsh", "zsh");
    (".yaml", "yaml"); (".yml", "yaml"); (".json", "json"); (".xml", "xml");
    (".html", "html"); (".css", "css"); (".scss", "scss"); (".sass", "sass");
    (".less", "less"); (".md", "markdown"); (".mdx", "mdx");
    (".graphql", "graphql"); (".gql", "graphql"); (".proto", "protobuf");
    (".tf", "terraform"); (".tfvars", "terraform") ]%string.

(* ================================================================== *)
(** * types.ts *)
(* ================================================================== *)

(** The interfaces, field by field.  A field name that several
    interfaces share carries the initials of its interface ([fn_name],
    [sr_file], [fc_path]); the [error] text of a repository is
    [error_message], [error] being a status. *)

Inductive Remote : Type := github | gitlab | local.

Definition Remote_string (r : Remote) : jsstring :=
  match r with
  | github => js "github"
  | gitlab => js "gitlab"
  | local => js "local"
  end.

Inductive Status : Type := pending | indexing | ready | error.

Definition Status_eqb (a b : Status) : bool :=
  match a, b with
  | pending, pending | indexing, indexing | ready, ready | error, error => true
  | _, _ => false
  end.

Record Repository : Type := mkRepository {
  id : jsstring;
  remote : Remote;
  owner : jsstring;
  name : jsstring;
  branch : jsstring;
  localPath : jsstring;
  status : Status;
  filesProcessed : nat;
  totalFiles : nat;
  indexedAt : option nat;
  error_message : option jsstring
}.

Record FunctionInfo : Type := mkFunctionInfo {
  fn_name : jsstring;
  fn_file : jsstring;
  startLine : nat;
  endLine : nat;
  signature : jsstring;
  calls : list jsstring;
  calledBy : list jsstring
}.

Inductive MatchType : Type := exact | fuzzy | semantic.

(** [score] is the constant 1.0 wherever a result is built; it is kept
    as the numerator over 10. *)
Record SearchResult : Type := mkSearchResult {
  sr_file : jsstring;
  sr_line : nat;
  sr_content : jsstring;
  matchType : MatchType;
  score_tenths : nat
}.

Record FileContent : Type := mkFileContent {
  fc_path : jsstring;
  content : jsstring;
  language : jsstring;
  lines : nat;
  fc_functions : list jsstring;
  fc_imports : list jsstring;
  fc_exports : list jsstring
}.

Record RepositoryIndex : Type := mkRepositoryIndex {
  repository : Repository;
  files : JsMap.Map FileContent;
  functions : JsMap.Map FunctionInfo;
  imports : JsMap.Map (list jsstring);
  exports : JsMap.Map (list jsstring)
}.

(* ================================================================== *)
(** * git.service.ts: identity keys and the stores *)
(* ================================================================== *)

(** [`${remote}:${branch}:${owner}/${name}`]. *)
Definition generateRepoId (remote owner name branch : jsstring) : jsstring :=
  remote ++ js ":" ++ branch ++ js ":" ++ owner ++ js "/" ++ name.

(** The two module-level stores. *)
Record Stores : Type := mkStores {
  repositoryStore : JsMap.Map Repository;
  indexStore : JsMap.Map RepositoryIndex
}.

Definition getRepository (st : Stores) (repoId : jsstring) : option Repository :=
  JsMap.get repoId (repositoryStore st).

Definition setRepository (st : Stores) (repoId : jsstring) (repo : Repository)
  : Stores :=
  mkStores (JsMap.set repoId repo (repositoryStore st)) (indexStore st).

Definition listRepositories (st : Stores) : list Repository :=
  JsMap.values (repositoryStore st).

Definition getIndex (st : Stores) (repoId : jsstring) : option RepositoryIndex :=
  JsMap.get repoId (indexStore st).

(* ================================================================== *)
(** * git.service.ts: the lexical extractor *)
(* ================================================================== *)

Definition dquote : ascii := "034"%char.
Definition quote_ : regex := one_of ["'"%char; dquote].
Definition not_quote : regex := none_of ["'"%char; dquote].
Definition async_ : regex := Opt (Seq (L "async") (Plus true s_)).
Definition export_ : regex := Opt (Seq (L "export") (Plus true s_)).
Definition name_ : regex := Group 1 (Plus true w_).
Definition declarator : regex := Alts (L "const") [L "let"; L "var"].
(** A parenthesised run of units other than the closing parenthesis,
    captured as group 2 or not captured. *)
Definition params_ : regex :=
  Seqs [Char "("; Group 2 (Star true (not_unit ")")); Char ")"].
Definition parens_ : regex :=
  Seqs [Char "("; Star true (not_unit ")"); Char ")"].
Definition keyword_call (kw : string) : regex :=
  Seqs [L kw; Plus true s_; name_; Star true s_; Char "("].

Definition functionNamePatterns : list regex :=
  [ keyword_call "function";
    Seqs [name_; Star true s_; Char "="; Star true s_; async_; L "function"];
    Seqs [name_; Star true s_; Char "="; Star true s_; async_; parens_;
          Star true s_; L "=>"];
    Seqs [async_; name_; Star true s_; parens_; Star true s_; Char "{"];
    keyword_call "def";
    keyword_call "func";
    keyword_call "fn";
    Seqs [L "public"; Plus true s_; Opt (Seq (L "static") (Plus true s_));
          Opt (Seq (Plus true w_) (Plus true s_)); name_; Star true s_;
          Char "("] ].

Definition control_keywords : list jsstring :=
  map js ["if"; "for"; "while"; "switch"; "catch"]%string.

(** The first capture of a match, when the match exists and the capture
    is truthy. *)
Definition first_capture (pattern : regex) (line : jsstring) : option jsstring :=
  match match_ pattern line with
  | Some c => truthy_group 1 c
  | None => None
  end.

Definition extractFunctionNames (content language : jsstring) : list jsstring :=
  unique []
    (flat_map
       (fun line =>
          flat_map
            (fun pattern =>
               match first_capture pattern line with
               | Some n =>
                   if existsb (jsstring_eqb n) control_keywords then [] else [n]
               | None => []
               end)
            functionNamePatterns)
       (lines_of content)).

(** [.], every unit but the line terminators, and [\S]. *)
Definition any_unit : regex :=
  Class false
        (fun x => negb (Ascii.eqb x "010"%char || Ascii.eqb x "013"%char)).
Definition S_ : regex := Class false (fun x => negb (is_space x)).

Definition importPatterns : list regex :=
  [ Seqs [L "import"; Plus true s_; Star false any_unit; L "from"; Plus true s_;
          quote_; Group 1 (Plus true not_quote); quote_];
    Seqs [L "import"; Plus true s_; quote_; Group 1 (Plus true not_quote);
          quote_];
    Seqs [L "require"; Star true s_; Char "("; Star true s_; quote_;
          Group 1 (Plus true not_quote); quote_; Star true s_; Char ")"];
    Seqs [L "from"; Plus true s_; Group 1 (Plus true S_); Plus true s_;
          L "import"];
    Seqs [L "import"; Plus true s_; Char dquote;
          Group 1 (Plus true (not_unit dquote)); Char dquote];
    Seqs [L "use"; Plus true s_; Group 1 (Plus true S_)] ].

Definition extractImports (content language : jsstring) : list jsstring :=
  unique []
    (flat_map
       (fun line =>
          flat_map
            (fun pattern =>
               match first_capture pattern line with
               | Some target => [target]
               | None => []
               end)
            importPatterns)
       (lines_of content)).

Definition exportPatterns : list regex :=
  [ Seqs [L "export"; Plus true s_; Opt (Seq (L "default") (Plus true s_));
          Alts (L "const")
               [L "let"; L "var"; L "function"; L "class";
                Seqs [L "async"; Plus true s_; L "function"]];
          Plus true s_; name_];
    Seqs [L "export"; Plus true s_; Char "{"; Star true s_;
          Group 1 (Plus true (not_unit "}")); Star true s_; Char "}"];
    Seqs [L "module"; Char "."; L "exports"; Star true s_; Char "=";
          Star true s_; name_];
    Seqs [L "exports"; Char "."; name_; Star true s_; Char "="] ].

(** [s.split(/r/)[0]] for a pattern that matches no empty string: the
    text before the first match, or all of [s]. *)
Definition split_first (r : regex) (s : jsstring) : jsstring :=
  match scan_from false r 0 s with
  | Some (b, _, _) => firstn b s
  | None => s
  end.

Definition as_ : regex := Seqs [Plus true s_; L "as"; Plus true s_].

(** [match[1].split(",").map((s) => s.trim().split(/\s+as\s+/)[0])],
    then [filter(Boolean)]. *)
Definition export_items (captured : jsstring) : list jsstring :=
  filter (fun s => negb (jsstring_eqb s []))
         (map (fun s => split_first as_ (trim s)) (split_on "," captured)).

Definition extractExports (content language : jsstring) : list jsstring :=
  unique []
    (flat_map
       (fun line =>
          flat_map
            (fun pattern =>
               match first_capture pattern line with
               | Some captured => export_items captured
               | None => []
               end)
            exportPatterns)
       (lines_of content)).

Definition functionPatterns : list regex :=
  [ Seqs [Bol; export_; async_; L "function"; Plus true s_; name_;
          Star true s_; params_];
    Seqs [Bol; export_; declarator; Plus true s_; name_; Star true s_;
          Char "="; Star true s_; async_; params_; Star true s_; L "=>"];
    Seqs [Bol; export_; declarator; Plus true s_; name_; Star true s_;
          Char "="; Star true s_; async_; L "function"; Star true s_; params_];
    Seqs [Bol; Star true s_;
          Opt (Alts (L "public") [L "private"; L "protected"]);
          Star true s_; Opt (Seq (L "static") (Plus true s_)); async_;
          name_; Star true s_; params_; Star true s_;
          Opt (Seqs [Char ":"; Star true s_; Plus true w_]);
          Star true s_; Char "{"] ].

(** The inner loop over [functionPatterns]: the name and raw parameter
    text of the first pattern that matches with a truthy name. *)
Fixpoint declaration_in (patterns : list regex) (trimmedLine : jsstring)
  : option (jsstring * jsstring) :=
  match patterns with
  | [] => None
  | pattern :: rest =>
      match match_ pattern trimmedLine with
      | Some c =>
          match truthy_group 1 c with
          | Some n => Some (n, group_or_empty 2 c)
          | None => declaration_in rest trimmedLine
          end
      | None => declaration_in rest trimmedLine
      end
  end.

(** The variables of the loop of [extractFunctions]. *)
Record ExtractState : Type := mkExtractState {
  out : list FunctionInfo;
  currentFunction : option FunctionInfo;
  braceCount : Z;
  inFunction : bool
}.

Definition with_endLine (f : FunctionInfo) (n : nat) : FunctionInfo :=
  mkFunctionInfo (fn_name f) (fn_file f) (startLine f) n (signature f)
                 (calls f) (calledBy f).

(** "Check for function start", at index [i]. *)
Definition declaration_step (filePath : jsstring) (i : nat) (line : jsstring)
           (st : ExtractState) : ExtractState :=
  match declaration_in functionPatterns (trim line) with
  | Some (n, params) =>
      let closed :=
        match currentFunction st, inFunction st with
        | Some cur, true => out st ++ [with_endLine cur i]
        | _, _ => out st
        end in
      mkExtractState closed
        (Some (mkFunctionInfo n filePath (i + 1) (i + 1)
                              (n ++ js "(" ++ params ++ js ")") [] []))
        0 true
  | None => st
  end.

(** "Track braces to find function end", at index [i]. *)
Definition brace_step (i : nat) (line : jsstring) (st : ExtractState)
  : ExtractState :=
  match inFunction st, currentFunction st with
  | true, Some cur =>
      let count := (braceCount st + Z.of_nat (count_char "{" line)
                    - Z.of_nat (count_char "}" line))%Z in
      if (count <=? 0)%Z && includes_char "}" line then
        mkExtractState (out st ++ [with_endLine cur (i + 1)]) None count false
      else
        mkExtractState (out st) (Some cur) count true
  | _, _ => st
  end.

Definition line_step (filePath : jsstring) (i : nat) (line : jsstring)
           (st : ExtractState) : ExtractState :=
  brace_step i line (declaration_step filePath i line st).

Fixpoint extract_loop (filePath : jsstring) (i : nat) (ls : list jsstring)
         (st : ExtractState) : ExtractState :=
  match ls with
  | [] => st
  | line :: rest => extract_loop filePath (S i) rest (line_step filePath i line st)
  end.

(** "Handle last function if file ends". *)
Definition close_at_end (n : nat) (st : ExtractState) : list FunctionInfo :=
  match currentFunction st, inFunction st with
  | Some cur, true => out st ++ [with_endLine cur n]
  | _, _ => out st
  end.

Definition extractFunctions (content filePath language : jsstring)
  : list FunctionInfo :=
  let ls := lines_of content in
  close_at_end (length ls)
    (extract_loop filePath 0 ls (mkExtractState [] None 0 false)).

(* ================================================================== *)
(** * The libraries under [indexRepository] *)
(* ================================================================== *)

(** The [ignore] package is a dependency; its code is not part of the
    repository.  The spec reads the ignore file "as a sequence of
    path-ignore patterns, glob_match-style, supporting negation per the
    ignore-file convention".  A rule is one pattern, negated or not; rules
    are kept in the order they were added; the last rule that matches a
    path decides it; a path under an ignored directory is ignored.  How
    one pattern is matched against one path (the glob language) is left
    to the parameter [glob_match]. *)
Module Ignore.

Record rule : Type := mkRule {
  pattern : jsstring;
  negative : bool
}.

(** Modelled from the spec: which lines of an ignore file are patterns.
    Blank lines and comment lines carry no rule. *)
Definition checkPattern (p : jsstring) : bool :=
  match p with
  | [] => false
  | c :: _ => negb (forallb is_space p) && negb (Ascii.eqb c "#")
  end.

(** Modelled from the spec: the negation of the ignore-file
    convention.  A leading [!] negates the pattern. *)
Definition createRule (p : jsstring) : rule :=
  match p with
  | "!"%char :: t => mkRule t true
  | _ => mkRule p false
  end.

Definition instance := list rule.

(** [ig.add(patterns)] for an array of patterns. *)
Definition add_patterns (ig : instance) (ps : list jsstring) : instance :=
  ig ++ map createRule (filter checkPattern ps).

Definition strip_cr (l : jsstring) : jsstring :=
  match rev l with
  | "013"%char :: t => rev t
  | _ => l
  end.

(** [ig.add(text)] for the text of an ignore file, one pattern a line. *)
Definition add_text (ig : instance) (text : jsstring) : instance :=
  add_patterns ig (map strip_cr (lines_of text)).

(** The directories above a path, outermost first, each with its
    trailing separator: for [a/b/c.ts], [a/] and [a/b/]. *)
Fixpoint parents_from (before rest : jsstring) : list jsstring :=
  match rest with
  | [] => []
  | c :: t =>
      if Ascii.eqb c "/" then (before ++ ["/"%char]) :: parents_from (before ++ [c]) t
      else parents_from (before ++ [c]) t
  end.

Definition parents (path : jsstring) : list jsstring := parents_from [] path.

Section Glob.

(** Whether a pattern matches a path. *)
Variable glob_match : jsstring -> jsstring -> bool.

(** Modelled from the spec: the rule resolution of the [ignore]
    package.  One path against the rules: the last matching rule decides,
    a negated rule for the path, any other against it. *)
Definition test_one (ig : instance) (path : jsstring) : bool :=
  fold_left (fun ignored r => if glob_match (pattern r) path then negb (negative r)
                              else ignored)
            ig false.

(** Modelled from the spec: [ig.ignores(path)] of the [ignore] package.
    A path is ignored when the rules are against it or against a
    directory above it. *)
Definition ignores (ig : instance) (path : jsstring) : bool :=
  existsb (test_one ig) (parents path) || test_one ig path.

End Glob.

End Ignore.

(** [path.extname] belongs to the platform library, not to the
    repository; the spec calls its result "a file's extension". *)
Module Path.

Fixpoint strip_trailing_slashes_rev (r : jsstring) : jsstring :=
  match r with
  | "/"%char :: t => strip_trailing_slashes_rev t
  | _ => r
  end.

(** The last component, reversed. *)
Fixpoint take_component_rev (r : jsstring) : jsstring :=
  match r with
  | [] => []
  | c :: t => if Ascii.eqb c "/" then [] else c :: take_component_rev t
  end.

(** Cuts a reversed component after its last dot: the reversed
    extension and what stands before the dot. *)
Fixpoint cut_at_dot (r : jsstring) (acc : jsstring)
  : option (jsstring * jsstring) :=
  match r with
  | [] => None
  | c :: t =>
      if Ascii.eqb c "." then Some ("."%char :: acc, t)
      else cut_at_dot t (c :: acc)
  end.

(** Modelled from the spec: [path.extname(path)].  The extension of the
    last component of the path, from its last dot on; empty when there is
    no dot, when that dot leads the component, and for the component
    [..]. *)
Definition extname (path : jsstring) : jsstring :=
  let comp := take_component_rev (strip_trailing_slashes_rev (rev path)) in
  match cut_at_dot comp [] with
  | None => []
  | Some (ext, before) =>
      match before with
      | [] => []
      | _ => if jsstring_eqb (rev comp) (js "..") then [] else ext
      end
  end.

End Path.

(* ================================================================== *)
(** * git.service.ts: the indexing pass *)
(* ================================================================== *)

(** The exceptions of the program: an [Error] with its message, and the
    SyntaxError of a pattern that does not compile. *)
Inductive exception : Type :=
| Error (message : jsstring)
| SyntaxError (pattern : jsstring).

(** What a function hands back: a value, or the exception it throws. *)
Inductive outcome (A : Type) : Type :=
| Return (a : A)
| Throw (e : exception).
Arguments Return {A} a.
Arguments Throw {A} e.

(** What the pass reads from the file system under [localPath]. *)
Record Checkout : Type := mkCheckout {
  gitignore : option jsstring;            (* the text of .gitignore, if readable *)
  allFiles : list jsstring;               (* the result of the glob *)
  readFile : jsstring -> option jsstring  (* [None] when reading throws *)
}.

Section Indexing.

(** How the [ignore] package matches a pattern against a path. *)
Variable glob_match : jsstring -> jsstring -> bool.

(** [ignore.default()], the repository's rules if any, then
    [IGNORE_PATTERNS]. *)
Definition ignore_rules (co : Checkout) : Ignore.instance :=
  let ig := match gitignore co with
            | Some text => Ignore.add_text [] text
            | None => []
            end in
  Ignore.add_patterns ig IGNORE_PATTERNS.

Definition is_code_file (co : Checkout) (file : jsstring) : bool :=
  let ext := toLowerCase (Path.extname file) in
  existsb (jsstring_eqb ext) CODE_EXTENSIONS
  && negb (Ignore.ignores glob_match (ignore_rules co) file).

Definition codeFiles (co : Checkout) : list jsstring :=
  filter (is_code_file co) (allFiles co).

(** [LANGUAGE_MAP[ext] || "unknown"]. *)
Definition language_of (ext : jsstring) : jsstring :=
  match JsMap.get ext LANGUAGE_MAP with
  | Some (c :: l) => c :: l
  | _ => js "unknown"
  end.

(** The four tables and the counter the loop over [codeFiles] fills. *)
Record Tables : Type := mkTables {
  t_files : JsMap.Map FileContent;
  t_functions : JsMap.Map FunctionInfo;
  t_imports : JsMap.Map (list jsstring);
  t_exports : JsMap.Map (list jsstring);
  processed : nat
}.

Definition set_functions (filePath : jsstring) (fns : list FunctionInfo)
           (m : JsMap.Map FunctionInfo) : JsMap.Map FunctionInfo :=
  fold_left (fun acc fn => JsMap.set (filePath ++ js ":" ++ fn_name fn) fn acc)
            fns m.

(** One turn of the loop; a file that cannot be read is skipped. *)
Definition index_file (co : Checkout) (t : Tables) (filePath : jsstring)
  : Tables :=
  match readFile co filePath with
  | None => t
  | Some text =>
      let ext := toLowerCase (Path.extname filePath) in
      let lang := language_of ext in
      let fileContent :=
        mkFileContent filePath text lang (length (lines_of text))
                      (extractFunctionNames text lang)
                      (extractImports text lang)
                      (extractExports text lang) in
      mkTables (JsMap.set filePath fileContent (t_files t))
               (set_functions filePath (extractFunctions text filePath lang)
                              (t_functions t))
               (JsMap.set filePath (fc_imports fileContent) (t_imports t))
               (JsMap.set filePath (fc_exports fileContent) (t_exports t))
               (S (processed t))
  end.

Definition index_files (co : Checkout) : Tables :=
  fold_left (index_file co) (codeFiles co)
            (mkTables JsMap.empty JsMap.empty JsMap.empty JsMap.empty 0).

(** [indexRepository(repoId, localPath)], run to completion at time
    [now]: the stores afterwards and the index returned. *)
Definition indexRepository (st : Stores) (repoId : jsstring) (co : Checkout)
           (now : nat) : outcome (Stores * RepositoryIndex) :=
  match JsMap.get repoId (repositoryStore st) with
  | None =>
      Throw (Error (js "Repository " ++ repoId ++ js " not found in store"))
  | Some repo =>
      let t := index_files co in
      let repo' :=
        mkRepository (id repo) (remote repo) (owner repo) (name repo)
                     (branch repo) (localPath repo) ready (processed t)
                     (length (codeFiles co)) (Some now) (error_message repo) in
      let index :=
        mkRepositoryIndex repo' (t_files t) (t_functions t) (t_imports t)
                          (t_exports t) in
      Return (mkStores (JsMap.set repoId repo' (repositoryStore st))
                       (JsMap.set repoId index (indexStore st)),
              index)
  end.

End Indexing.

(* ================================================================== *)
(** * git.service.ts: text search *)
(* ================================================================== *)

(** The syntax characters of a pattern, which are also the characters
    [escapeRegex] escapes. *)
Definition syntax_characters : jsstring :=
  map ascii_of_nat [46; 42; 43; 63; 94; 36; 123; 125; 40; 41; 124; 91; 93; 92].

Definition is_syntax_character (c : ascii) : bool :=
  existsb (Ascii.eqb c) syntax_characters.

Definition backslash : ascii := ascii_of_nat 92.

(** [str.replace(/[.*+?^${}()|[\]\\]/g, "\\$&")]. *)
Definition escapeRegex (str : jsstring) : jsstring :=
  flat_map (fun c => if is_syntax_character c then [backslash; c] else [c]) str.

(** The pattern sources made of pattern characters and escaped syntax
    characters only: each stands for its run of units. *)
Fixpoint parse_literal (src : jsstring) : option regex :=
  match src with
  | [] => Some Empty
  | c :: t =>
      if Ascii.eqb c backslash then
        match t with
        | d :: t' =>
            if is_syntax_character d then
              match parse_literal t' with
              | Some r => Some (Seq (Char d) r)
              | None => None
              end
            else None
        | [] => None
        end
      else if is_syntax_character c then None
      else match parse_literal t with
           | Some r => Some (Seq (Char c) r)
           | None => None
           end
  end.

Record SearchOptions : Type := mkSearchOptions {
  filePattern : option jsstring;
  caseSensitive : option bool;
  limit : option Z
}.

Definition no_options : SearchOptions := mkSearchOptions None None None.

(** [options.limit || 50]. *)
Definition effective_limit (options : SearchOptions) : Z :=
  match limit options with
  | Some 0%Z | None => 50%Z
  | Some l => l
  end.

(** [options.caseSensitive ? "g" : "gi"]: whether the [i] flag is set. *)
Definition flag_i (options : SearchOptions) : bool :=
  match caseSensitive options with
  | Some true => false
  | _ => true
  end.

(** [if (options.filePattern)]: a non-empty pattern text. *)
Definition truthy_filePattern (options : SearchOptions) : option jsstring :=
  match filePattern options with
  | Some (c :: t) => Some (c :: t)
  | _ => None
  end.

Definition hit (filePath : jsstring) (i : nat) (line : jsstring) : SearchResult :=
  mkSearchResult filePath (i + 1) (trim line) exact 10.

(** Where a loop stands: still running with its variables, or left by
    [return]. *)
Inductive progress : Type :=
| Running (results : list SearchResult) (searchRegex : RegExp)
| Returned (results : list SearchResult).

Section Search.

(** The pattern parser of the engine beyond the literal sources; [None]
    is its SyntaxError. *)
Variable compile : jsstring -> option regex.

(** [new RegExp(src)]. *)
Definition RegExp_new (src : jsstring) : option regex :=
  match parse_literal src with
  | Some r => Some r
  | None => compile src
  end.

(** The loop over the lines of one file, from index [i]. *)
Fixpoint search_lines (filePath : jsstring) (lim : Z) (i : nat)
         (ls : list jsstring) (results : list SearchResult) (R : RegExp)
  : progress :=
  match ls with
  | [] => Running results R
  | line :: rest =>
      let (found, R') := test R line in
      if found then
        let results' := results ++ [hit filePath i line] in
        if (Z.of_nat (length results') >=? lim)%Z then Returned results'
        else search_lines filePath lim (S i) rest results' R'
      else search_lines filePath lim (S i) rest results R'
  end.

(** The loop over [index.files]. *)
Fixpoint search_files (options : SearchOptions) (lim : Z)
         (fs : JsMap.Map FileContent) (results : list SearchResult) (R : RegExp)
  : outcome (list SearchResult) :=
  match fs with
  | [] => Return results
  | (filePath, fileContent) :: rest =>
      let scan (_ : unit) :=
        match search_lines filePath lim 0 (lines_of (content fileContent))
                           results R with
        | Returned rs => Return rs
        | Running rs R' => search_files options lim rest rs R'
        end in
      match truthy_filePattern options with
      | Some src =>
          match RegExp_new src with
          | None => Throw (SyntaxError src)
          | Some p =>
              if fst (test (mkRegExp p false false 0) filePath) then scan tt
              else search_files options lim rest results R
          end
      | None => scan tt
      end
  end.

Definition searchCode (st : Stores) (repoId query : jsstring)
           (options : SearchOptions) : outcome (list SearchResult) :=
  match JsMap.get repoId (indexStore st) with
  | None => Throw (Error (js "Repository " ++ repoId ++ js " not indexed"))
  | Some index =>
      match RegExp_new (escapeRegex query) with
      | None => Throw (SyntaxError (escapeRegex query))
      | Some r =>
          search_files options (effective_limit options) (files index) []
                       (mkRegExp r true (flag_i options) 0)
      end
  end.

End Search.

(* ================================================================== *)
(** * schemas: what the boundary accepts *)
(* ================================================================== *)

Record RepositoryRef : Type := mkRepositoryRef {
  ref_remote : Remote;
  ref_owner : jsstring;
  ref_repository : jsstring;
  ref_branch : jsstring
}.

(** [SearchCodeInputSchema.limit]:
    [z.number().int().min(1).max(100).default(20)].  [None] is the
    rejection of the request. *)
Definition SearchCodeInputSchema_limit (given : option Z) : option Z :=
  match given with
  | None => Some DEFAULT_LIMIT
  | Some l => if ((1 <=? l) && (l <=? MAX_LIMIT))%Z then Some l else None
  end.

(* ================================================================== *)
(** * search.tools.ts *)
(* ================================================================== *)

Definition stopWords : list jsstring := map js
  [ "the"; "is"; "at"; "which"; "on"; "a"; "an"; "and"; "or"; "but";
    "in"; "with"; "to"; "for"; "of"; "how"; "does"; "what"; "where";
    "why"; "when"; "who"; "this"; "that"; "these"; "those"; "are"; "was"
  ]%string.

(** [replace(/[^\w\s]/g, " ")]. *)
Definition strip_punctuation (s : jsstring) : jsstring :=
  map (fun c => if is_word c || is_space c then c else " "%char) s.

(** [split(/\s+/)]: the fields between the runs of whitespace; a run at
    either end leaves an empty field there. *)
Fixpoint split_ws_from (in_run : bool) (s : jsstring) : list jsstring :=
  match s with
  | [] => [[]]
  | c :: t =>
      if is_space c then
        if in_run then split_ws_from true t else [] :: split_ws_from true t
      else
        match split_ws_from false t with
        | f :: fs => (c :: f) :: fs
        | [] => [[c]]
        end
  end.

Definition split_ws (s : jsstring) : list jsstring := split_ws_from false s.

Definition significant (word : jsstring) : bool :=
  (2 <? length word) && negb (existsb (jsstring_eqb word) stopWords).

Definition extractKeywords (query : jsstring) : list jsstring :=
  firstn 10
    (filter significant (split_ws (strip_punctuation (toLowerCase query)))).

(** An entry of [allResults] in the query handler. *)
Record QueryHit : Type := mkQueryHit {
  q_repoId : jsstring;
  q_file : jsstring;
  q_line : nat;
  q_content : jsstring
}.

(** [`${r.repoId}:${r.file}:${r.line}`]. *)
Definition dedup_key (r : QueryHit) : jsstring :=
  q_repoId r ++ js ":" ++ q_file r ++ js ":" ++ decimal (q_line r).

(** The filter of [deduplicateResults], with the set [seen] it fills. *)
Fixpoint dedup_from (seen : list jsstring) (results : list QueryHit)
  : list QueryHit :=
  match results with
  | [] => []
  | r :: rest =>
      if existsb (jsstring_eqb (dedup_key r)) seen then dedup_from seen rest
      else r :: dedup_from (dedup_key r :: seen) rest
  end.

Definition deduplicateResults (results : list QueryHit) : list QueryHit :=
  dedup_from [] results.

(** An entry of [allResults] in the search handler. *)
Record SearchHit : Type := mkSearchHit {
  s_repoId : jsstring;
  s_repoName : jsstring;
  s_file : jsstring;
  s_line : nat;
  s_content : jsstring
}.

(** What a handler answers: the list it hands to its formatter, or the
    [isError] answer of its [catch], with the prefix of the text and the
    exception caught. *)
Inductive response (A : Type) : Type :=
| Content (results : list A)
| IsError (prefix : jsstring) (e : exception).
Arguments Content {A} results.
Arguments IsError {A} prefix e.

Definition repoId_of (repo : RepositoryRef) : jsstring :=
  generateRepoId (Remote_string (ref_remote repo)) (ref_owner repo)
                 (ref_repository repo) (ref_branch repo).

(** [!repoData || repoData.status !== "ready"]. *)
Definition not_ready (st : Stores) (repoId : jsstring) : bool :=
  match getRepository st repoId with
  | Some repoData => negb (Status_eqb (status repoData) ready)
  | None => true
  end.

Section Handlers.

Variable compile : jsstring -> option regex.

(** The inner loop of the query handler: one search for each keyword,
    each with [{ limit: 10 }]. *)
Fixpoint query_keywords (st : Stores) (repoId : jsstring)
         (keywords : list jsstring) (allResults : list QueryHit)
  : outcome (list QueryHit) :=
  match keywords with
  | [] => Return allResults
  | keyword :: rest =>
      match searchCode compile st repoId keyword
                       (mkSearchOptions None None (Some 10%Z)) with
      | Throw e => Throw e
      | Return results =>
          query_keywords st repoId rest
            (allResults
               ++ map (fun r => mkQueryHit repoId (sr_file r) (sr_line r)
                                           (sr_content r))
                      results)
      end
  end.

Fixpoint query_repositories (st : Stores) (keywords : list jsstring)
         (repositories : list RepositoryRef) (allResults : list QueryHit)
  : outcome (list QueryHit) :=
  match repositories with
  | [] => Return allResults
  | repo :: rest =>
      let repoId := repoId_of repo in
      if not_ready st repoId then
        query_repositories st keywords rest allResults
      else
        match query_keywords st repoId keywords allResults with
        | Throw e => Throw e
        | Return allResults' =>
            query_repositories st keywords rest allResults'
        end
  end.

(** The handler of [git_query_codebase], up to [uniqueResults]. *)
Definition git_query_codebase (st : Stores) (query : jsstring)
           (repositories : list RepositoryRef) : response QueryHit :=
  match query_repositories st (extractKeywords query) repositories [] with
  | Return allResults => Content (deduplicateResults allResults)
  | Throw e => IsError (js "Error querying codebase: ") e
  end.

Fixpoint search_repositories (st : Stores) (query : jsstring)
         (options : SearchOptions) (repositories : list RepositoryRef)
         (allResults : list SearchHit) : outcome (list SearchHit) :=
  match repositories with
  | [] => Return allResults
  | repo :: rest =>
      let repoId := repoId_of repo in
      if not_ready st repoId then
        search_repositories st query options rest allResults
      else
        match searchCode compile st repoId query options with
        | Throw e => Throw e
        | Return results =>
            search_repositories st query options rest
              (allResults
                 ++ map (fun r =>
                           mkSearchHit repoId
                             (ref_owner repo ++ js "/" ++ ref_repository repo)
                             (sr_file r) (sr_line r) (sr_content r))
                        results)
        end
  end.

(** The handler of [git_search_code], up to [allResults], on a request
    the schema has accepted: [case_sensitive] and [limit] carry their
    defaults. *)
Definition git_search_code (st : Stores) (query : jsstring)
           (repositories : list RepositoryRef) (file_pattern : option jsstring)
           (case_sensitive : bool) (limit : Z) : response SearchHit :=
  match search_repositories st query
          (mkSearchOptions file_pattern (Some case_sensitive) (Some limit))
          repositories [] with
  | Return allResults => Content allResults
  | Throw e => IsError (js "Error searching code: ") e
  end.

End Handlers.

(* ================================================================== *)
(** * More of JavaScript's strings and arrays *)
(* ================================================================== *)

Definition LF : ascii := "010"%char.

(** [xs.join(sep)]. *)
Fixpoint join (sep : jsstring) (xs : list jsstring) : jsstring :=
  match xs with
  | [] => []
  | x :: t =>
      match t with
      | [] => x
      | _ :: _ => x ++ sep ++ join sep t
      end
  end.

(** [xs.slice(start, end)] for indices that are not negative: the
    elements from [start] up to, not including, [end]; none when [end] is
    not beyond [start], and no more than there are. *)
Definition slice {A : Type} (start end_ : nat) (xs : list A) : list A :=
  firstn (end_ - start) (skipn start xs).

(** [s.startsWith(prefix)]. *)
Fixpoint startsWith (prefix s : jsstring) : bool :=
  match prefix, s with
  | [], _ => true
  | _ :: _, [] => false
  | p :: prefix', c :: s' => Ascii.eqb p c && startsWith prefix' s'
  end.

(** [s.split(sep, 2)]: the first two fields at most. *)
Definition split2 (sep : ascii) (s : jsstring) : list jsstring :=
  firstn 2 (split_on sep s).

(* ================================================================== *)
(** * git.service.ts: reading the index *)
(* ================================================================== *)

Definition getFileContent (st : Stores) (repoId filePath : jsstring)
  : outcome (option FileContent) :=
  match JsMap.get repoId (indexStore st) with
  | None => Throw (Error (js "Repository " ++ repoId ++ js " not indexed"))
  | Some index => Return (JsMap.get filePath (files index))
  end.

(* ================================================================== *)
(** * search.tools.ts: reading a file and analysing a function *)
(* ================================================================== *)

(** constants.ts. *)
#[warnings="-abstract-large-number"]
Definition FILE_CONTENT_LIMIT : nat := 10000.

(** What the handlers below answer: a plain text, the value handed to
    their formatter, or the [isError] answer of their [catch]. *)
Inductive answer (A : Type) : Type :=
| Message (text : jsstring)
| Formatted (a : A)
| Failed (prefix : jsstring) (e : exception).
Arguments Message {A} text.
Arguments Formatted {A} a.
Arguments Failed {A} prefix e.

Definition not_indexed_text : jsstring :=
  js "Repository not indexed. Use git_index_repository first.".

(** A line number of the request, [undefined] and 0 both falsy. *)
Definition truthy_line (n : option nat) : option nat :=
  match n with
  | Some (S k) => Some (S k)
  | _ => None
  end.

(** [n || d]. *)
Definition line_or (d : nat) (n : option nat) : nat :=
  match truthy_line n with
  | Some k => k
  | None => d
  end.

(** "Apply line range if specified". *)
Definition line_range (content : jsstring) (start_line end_line : option nat)
  : jsstring :=
  let lines := lines_of content in
  match truthy_line start_line, truthy_line end_line with
  | None, None => content
  | _, _ =>
      let start := line_or 1 start_line - 1 in
      let end_ := line_or (length lines) end_line in
      join [LF] (slice start end_ lines)
  end.

Definition truncation_note : jsstring :=
  [LF; LF] ++ js "... (truncated, showing first " ++ decimal FILE_CONTENT_LIMIT
           ++ js " characters)".

(** "Truncate if too long". *)
Definition truncate (content : jsstring) : jsstring :=
  if FILE_CONTENT_LIMIT <? length content then
    firstn FILE_CONTENT_LIMIT content ++ truncation_note
  else content.

(** The arguments of [formatFileContent]. *)
Record FileView : Type := mkFileView {
  v_path : jsstring;
  v_content : jsstring;
  v_language : jsstring;
  v_startLine : nat
}.

(** The handler of [git_get_file_content], up to the call of its
    formatter. *)
Definition git_get_file_content (st : Stores) (repo : RepositoryRef)
           (file_path : jsstring) (start_line end_line : option nat)
  : answer FileView :=
  let repoId := repoId_of repo in
  if not_ready st repoId then Message not_indexed_text
  else
    match getFileContent st repoId file_path with
    | Throw e => Failed (js "Error getting file: ") e
    | Return None =>
        Message (js "File not found: " ++ file_path ++ [LF; LF]
                 ++ js "Use git_get_file_tree to list available files.")
    | Return (Some fileContent) =>
        Formatted
          (mkFileView file_path
             (truncate (line_range (content fileContent) start_line end_line))
             (language fileContent)
             (line_or 1 start_line))
    end.

(** An entry of [results] in the function handler: the record of the
    function, its text and the language of its file. *)
Record FunctionView : Type := mkFunctionView {
  fv_info : FunctionInfo;
  fv_content : jsstring;
  fv_language : jsstring
}.

(** [!file_path || key.startsWith(file_path)]. *)
Definition path_filter (file_path : option jsstring) (key : jsstring) : bool :=
  match file_path with
  | Some (c :: t) => startsWith (c :: t) key
  | _ => true
  end.

(** "Find matching functions". *)
Definition function_matches (function_name : jsstring)
           (file_path : option jsstring) (fns : JsMap.Map FunctionInfo)
  : list (jsstring * FunctionInfo) :=
  filter (fun e => jsstring_eqb (fn_name (snd e)) function_name
                   && path_filter file_path (fst e))
         fns.

(** "Get function content". *)
Definition function_views (index : RepositoryIndex)
           (matches : list (jsstring * FunctionInfo)) : list FunctionView :=
  flat_map
    (fun e =>
       let info := snd e in
       match JsMap.get (fn_file info) (files index) with
       | Some fileContent =>
           [mkFunctionView info
              (join [LF] (slice (startLine info - 1) (endLine info)
                                (lines_of (content fileContent))))
              (language fileContent)]
       | None => []
       end)
    matches.

(** The handler of [git_analyze_function], up to the call of its
    formatter.  Nothing in its [try] throws. *)
Definition git_analyze_function (st : Stores) (repo : RepositoryRef)
           (function_name : jsstring) (file_path : option jsstring)
  : answer (list FunctionView) :=
  match getIndex st (repoId_of repo) with
  | None => Message not_indexed_text
  | Some index =>
      match function_matches function_name file_path (functions index) with
      | [] =>
          Message (js "Function '" ++ function_name ++ js "' not found."
                   ++ [LF; LF]
                   ++ js "Try git_search_code to find similar functions.")
      | m :: ms => Formatted (function_views index (m :: ms))
      end
  end.

(** The Markdown of [formatQueryResults]: [byFile], the groups by
    [repoId:file] in the order their keys were first met. *)
Definition group_key (r : QueryHit) : jsstring :=
  q_repoId r ++ js ":" ++ q_file r.

Fixpoint byFile (results : list QueryHit) (groups : JsMap.Map (list QueryHit))
  : JsMap.Map (list QueryHit) :=
  match results with
  | [] => groups
  | r :: rest =>
      let key := group_key r in
      let groups' := match JsMap.get key groups with
                     | Some _ => groups
                     | None => JsMap.set key [] groups
                     end in
      let members := match JsMap.get key groups' with
                     | Some rs => rs
                     | None => []
                     end in
      byFile rest (JsMap.set key (members ++ [r]) groups')
  end.

(** [const [, file] = key.split(":", 2)], as a template literal renders
    it. *)
Definition group_heading (key : jsstring) : jsstring :=
  match split2 ":" key with
  | _ :: file :: _ => file
  | _ => js "undefined"
  end.

Definition backtick : ascii := "096"%char.

Definition group_markdown (e : jsstring * list QueryHit) : jsstring :=
  js "### " ++ group_heading (fst e) ++ [LF; LF]
  ++ flat_map (fun r => js "**Line " ++ decimal (q_line r) ++ js ":** "
                        ++ [backtick] ++ trim (q_content r) ++ [backtick; LF])
              (slice 0 5 (snd e))
  ++ [LF].

(** [formatQueryResults(query, results, "markdown")]. *)
Definition formatQueryResults (query : jsstring) (results : list QueryHit)
  : jsstring :=
  match results with
  | [] =>
      js "No relevant code found for: " ++ [dquote] ++ query ++ [dquote; LF; LF]
      ++ js "Try:" ++ [LF] ++ js "- Different keywords" ++ [LF]
      ++ js "- Checking if repositories are indexed" ++ [LF]
      ++ js "- Using git_search_code for specific text"
  | _ :: _ =>
      js "## Query: " ++ [dquote] ++ query ++ [dquote; LF; LF]
      ++ js "Found " ++ decimal (length results)
      ++ js " relevant code snippets:" ++ [LF; LF]
      ++ flat_map group_markdown (byFile results [])
  end.

(* ================================================================== *)
(** * The vocabulary of the statements, and the examples *)
(* ================================================================== *)

(** ** The matcher *)

(** [k1] and [k2] agree wherever a match started at [i] on [rest] can
    end. *)
Definition agree_after (i : nat) (rest : jsstring) (k1 k2 : continuation) : Prop :=
  forall i' rest' c',
    i' + length rest' = i + length rest -> length rest' <= length rest ->
    k1 i' rest' c' = k2 i' rest' c'.

(** ** Texts *)

Definition nl : jsstring := ["010"%char].

(** [lines.join("\n")]. *)
Fixpoint unlines (ls : list string) : jsstring :=
  match ls with
  | [] => []
  | [l] => js l
  | l :: rest => js l ++ nl ++ unlines rest
  end.

(** ** The lexical extractor *)

(** The span of a record lies within the first [n] lines. *)
Definition span_within (n : nat) (f : FunctionInfo) : Prop :=
  1 <= startLine f /\ startLine f <= endLine f /\ endLine f <= n.

(** What holds of the loop variables when the loop reaches index [i]:
    every record pushed so far is closed within the first [i] lines, and
    the open record, if any, started there. *)
Definition loop_invariant (i : nat) (st : ExtractState) : Prop :=
  Forall (span_within i) (out st)
  /\ forall cur, currentFunction st = Some cur ->
                 1 <= startLine cur /\ startLine cur <= i.

(** The claim of C2 read with the line numbers of the records: the record
    closed by a declaration on line [i + 1] would end on line [i + 1]. *)
Definition previous_closed_on_declaration_line : Prop :=
  forall filePath i line st prev n params,
    currentFunction st = Some prev ->
    inFunction st = true ->
    declaration_in functionPatterns (trim line) = Some (n, params) ->
    out (declaration_step filePath i line st)
    = out st ++ [with_endLine prev (i + 1)].

(** Two declarations, on lines 1 and 2. *)
Definition two_declarations : jsstring :=
  unlines ["function f(a) {"; "function g(b) {"]%string.

(** ** The stores *)

(** The claim of C4 about the key, for all texts: different tuples get
    different keys. *)
Definition repoId_distinct_for_all_tuples : Prop :=
  forall remote owner name branch remote' owner' name' branch',
    generateRepoId remote owner name branch
    = generateRepoId remote' owner' name' branch' ->
    (remote, branch, owner, name) = (remote', branch', owner', name').

(** A registered repository, and stores that hold it and no index. *)
Definition sample_repository (s : Status) : Repository :=
  mkRepository (js "github:main:o/n") github (js "o") (js "n") (js "main")
               (js "/tmp/mcp-repos/o/n") s 0 0 None None.

Definition sample_stores : Stores :=
  mkStores [(js "github:main:o/n", sample_repository pending)] [].

(** ** The indexing pass *)

(** Some built-in pattern matches the path or a directory above it. *)
Definition builtin_excluded (glob_match : jsstring -> jsstring -> bool)
           (path : jsstring) : bool :=
  existsb (fun q => existsb (fun p => glob_match p q) IGNORE_PATTERNS)
          (Ignore.parents path ++ [path]).

(** Reading the file does not throw. *)
Definition readable (co : Checkout) (file : jsstring) : bool :=
  match readFile co file with Some _ => true | None => false end.

(** A matcher for the examples: a pattern matches the top-level entry of
    its name, as a file or as a directory. *)
Definition sample_glob (p q : jsstring) : bool :=
  jsstring_eqb q p || jsstring_eqb q (p ++ js "/").

(** The value returned, or [default] after a throw. *)
Definition returned {A : Type} (o : outcome A) (default : A) : A :=
  match o with
  | Return a => a
  | Throw _ => default
  end.

Definition no_index : RepositoryIndex :=
  mkRepositoryIndex (sample_repository error) [] [] [] [].

(** The text of scenario A. *)
Definition add_source : jsstring := js "export const add = (a, b) => a + b".

(** A checkout whose ignore file tries to bring the dependency directory
    back. *)
Definition sample_checkout : Checkout :=
  mkCheckout (Some (js "!node_modules"))
             [js "main.ts"; js "node_modules/x.ts"; js "notes.txt"]
             (fun _ => Some add_source).

Definition sample_indexed : Stores * RepositoryIndex :=
  returned (indexRepository sample_glob sample_stores (js "github:main:o/n")
                            sample_checkout 0)
           (sample_stores, no_index).

(** The repository's own rules, which come first. *)
Definition repository_rules (co : Checkout) : Ignore.instance :=
  match gitignore co with
  | Some text => Ignore.add_text [] text
  | None => []
  end.

(** The claim of C7 about the files of the index: the extension is of
    the indexable set, and no rule that excludes paths, the repository's or
    a built-in one, matches the path. *)
Definition indexed_only_if_no_rule_matches : Prop :=
  forall glob_match st st' repoId co now index path fileContent,
    indexRepository glob_match st repoId co now = Return (st', index) ->
    JsMap.get path (files index) = Some fileContent ->
    In (toLowerCase (Path.extname path)) CODE_EXTENSIONS
    /\ forall r, In r (ignore_rules co) -> Ignore.negative r = false ->
                 glob_match (Ignore.pattern r) path = false.

(** [s.endsWith(suffix)]. *)
Definition endsWith (suffix s : jsstring) : bool :=
  startsWith (rev suffix) (rev s).

(** A matcher for the examples that also knows a leading star: such a
    pattern matches the paths that end as the rest of the pattern does. *)
Definition suffix_glob (p q : jsstring) : bool :=
  match p with
  | "*"%char :: suffix => endsWith suffix q
  | _ => sample_glob p q
  end.

(** A checkout whose ignore file excludes the TypeScript files and then
    brings [main.ts] back. *)
Definition reincluding_checkout : Checkout :=
  mkCheckout (Some (unlines ["*.ts"; "!main.ts"]%string))
             [js "main.ts"; js "other.ts"]
             (fun _ => Some add_source).

Definition reincluded_indexed : Stores * RepositoryIndex :=
  returned (indexRepository suffix_glob sample_stores (js "github:main:o/n")
                            reincluding_checkout 0)
           (sample_stores, no_index).

(** The repository of scenario A: one file [main.ts], no ignore file. *)
Definition scenario_checkout : Checkout :=
  mkCheckout None [js "main.ts"]
             (fun p => if jsstring_eqb p (js "main.ts") then Some add_source
                       else None).

(** What scenario A expects of the index. *)
Definition add_record : FunctionInfo :=
  mkFunctionInfo (js "add") (js "main.ts") 1 1 (js "add(a, b)") [] [].


(** ** Text search: what the specification says a search returns *)

(** The units of [q] stand at the head of [s], compared as the pattern
    compares them. *)
Fixpoint prefix_matches (ic : bool) (q s : jsstring) : bool :=
  match q, s with
  | [], _ => true
  | _ :: _, [] => false
  | a :: q', x :: s' => unit_matches ic a x && prefix_matches ic q' s'
  end.

(** [s] contains [q] as a literal substring. *)
Fixpoint occurs_in (ic : bool) (q s : jsstring) : bool :=
  prefix_matches ic q s
  || match s with
     | [] => false
     | _ :: t => occurs_in ic q t
     end.

(** One result for every line of [ls] that contains [q], the first line
    being at index [i]. *)
Fixpoint matching_lines (ic : bool) (q filePath : jsstring) (i : nat)
         (ls : list jsstring) : list SearchResult :=
  match ls with
  | [] => []
  | line :: rest =>
      (if occurs_in ic q line then [hit filePath i line] else [])
        ++ matching_lines ic q filePath (S i) rest
  end.

(** The results the cap allows: at least one, since the cap is checked
    after a result is pushed. *)
Definition cap (options : SearchOptions) : nat :=
  Z.to_nat (Z.max 1 (effective_limit options)).

(** The path passes the file pattern, if one is given. *)
Definition passes_filter (compile : jsstring -> option regex)
           (options : SearchOptions) (path : jsstring) : bool :=
  match truthy_filePattern options with
  | None => true
  | Some src =>
      match RegExp_new compile src with
      | Some p => fst (test (mkRegExp p false false 0) path)
      | None => false
      end
  end.

(** Every matching line of every file that passes the file pattern, files
    in the order of the index and lines in order. *)
Definition expected_hits (compile : jsstring -> option regex)
           (options : SearchOptions) (q : jsstring)
           (fs : JsMap.Map FileContent) : list SearchResult :=
  flat_map (fun e => if passes_filter compile options (fst e)
                     then matching_lines (flag_i options) q (fst e) 0
                                         (lines_of (content (snd e)))
                     else [])
           fs.



(** [xs] is [ys] with some elements left out. *)
Inductive subseq {A : Type} : list A -> list A -> Prop :=
| subseq_nil : subseq [] []
| subseq_skip x xs ys : subseq xs ys -> subseq xs (x :: ys)
| subseq_take x xs ys : subseq xs ys -> subseq (x :: xs) (x :: ys).

(** The search pattern: the query, global, with or without [i]. *)
Definition is_searchRegex (ic : bool) (q : jsstring) (R : RegExp) : Prop :=
  source R = Lit q /\ global R = true /\ ignoreCase R = ic.

(** ** Text search: the two loops as one pass over the lines visited *)

(** A line to visit: its file, its index in the file, its text. *)
Definition item : Type := (jsstring * nat * jsstring)%type.


(** The lines of one file, from index [i]. *)
Fixpoint numbered (filePath : jsstring) (i : nat) (ls : list jsstring)
  : list item :=
  match ls with
  | [] => []
  | line :: rest => (filePath, i, line) :: numbered filePath (S i) rest
  end.

(** The body of the inner loop of [searchCode], over any lines. *)
Fixpoint scan_items (lim : Z) (items : list item)
         (results : list SearchResult) (R : RegExp) : progress :=
  match items with
  | [] => Running results R
  | (filePath, i, line) :: rest =>
      let (found, R') := test R line in
      if found then
        let results' := results ++ [hit filePath i line] in
        if (Z.of_nat (length results') >=? lim)%Z then Returned results'
        else scan_items lim rest results' R'
      else scan_items lim rest results R'
  end.

(** The results so far, whether the loop runs or has returned. *)
Definition results_of (p : progress) : list SearchResult :=
  match p with
  | Running rs _ => rs
  | Returned rs => rs
  end.

(** One result for every line visited that contains [q]. *)
Definition item_hits (ic : bool) (q : jsstring) (items : list item)
  : list SearchResult :=
  flat_map (fun it : item =>
              let '(filePath, i, line) := it in
              if occurs_in ic q line then [hit filePath i line] else [])
           items.

(** The lines visited, each with its file and index. *)
Definition items_of (compile : jsstring -> option regex)
           (options : SearchOptions) (fs : JsMap.Map FileContent)
  : list item :=
  flat_map (fun e => if passes_filter compile options (fst e)
                     then numbered (fst e) 0 (lines_of (content (snd e)))
                     else [])
           fs.

(** The file pattern, if one is given, compiles. *)
Definition filePattern_compiles (compile : jsstring -> option regex)
           (options : SearchOptions) : bool :=
  match truthy_filePattern options with
  | Some src => match RegExp_new compile src with Some _ => true | None => false end
  | None => true
  end.

(** The stores after indexing a checkout of the given files, none
    ignored, under the key [github:main:o/n]. *)
Definition stores_with (texts : list (string * jsstring)) : Stores :=
  fst (returned
         (indexRepository
            sample_glob sample_stores (js "github:main:o/n")
            (mkCheckout None (map (fun e => js (fst e)) texts)
                        (fun p => JsMap.get p (map (fun e => (js (fst e), snd e))
                                                   texts)))
            0)
         (sample_stores, no_index)).

(** The index those stores hold. *)
Definition index_with (texts : list (string * jsstring)) : RepositoryIndex :=
  match getIndex (stores_with texts) (js "github:main:o/n") with
  | Some index => index
  | None => no_index
  end.

(** ** Text search: the claims as stated *)

(** The claim of C1: the search returns one result for every matching
    line of the files that pass the file pattern, files and lines in
    order, and leaves lines out only past the cap. *)
Definition every_matching_line_reported : Prop :=
  forall compile st repoId query options index,
    getIndex st repoId = Some index ->
    filePattern_compiles compile options = true ->
    searchCode compile st repoId query options
    = Return (firstn (cap options)
                     (expected_hits compile options query (files index))).

(** A text of two lines that both contain [add]. *)
Definition two_calls : jsstring := unlines ["add(1)"; "add(2)"]%string.

(** The claim of C3 for every limit a caller of [searchCode] may pass. *)
Definition capped_by_every_limit : Prop :=
  forall compile st repoId query filePattern caseSensitive (L : Z) rs,
    searchCode compile st repoId query
               (mkSearchOptions filePattern caseSensitive (Some L)) = Return rs ->
    (Z.of_nat (length rs) <= L)%Z.

(** The reference of the registered repository. *)
Definition sample_ref : RepositoryRef :=
  mkRepositoryRef github (js "o") (js "n") (js "main").

(** The claim of C5 at the search tool: a repository without an index
    among those searched makes the answer an error. *)
Definition missing_index_is_reported : Prop :=
  forall compile st query repositories repo file_pattern case_sensitive limit,
    In repo repositories ->
    getIndex st (repoId_of repo) = None ->
    exists prefix e,
      git_search_code compile st query repositories file_pattern
                      case_sensitive limit
      = IsError prefix e.

(** ** The keyword query *)

(** The units a keyword is made of: lower-case letters, digits and the
    underscore. *)
Definition is_keyword_unit (c : ascii) : bool :=
  between 97 122 c || between 48 57 c || (code c =? 95).

(** The same deduplication key. *)
Definition same_key (h x : QueryHit) : bool :=
  jsstring_eqb (dedup_key x) (dedup_key h).

(** The same line of the same file of the same repository. *)
Definition same_place (h x : QueryHit) : bool :=
  jsstring_eqb (q_repoId x) (q_repoId h)
  && jsstring_eqb (q_file x) (q_file h)
  && (q_line x =? q_line h).

(** How many elements satisfy [p]. *)
Definition count (A : Type) (p : A -> bool) (xs : list A) : nat :=
  length (filter p xs).

(** The claim of C9 about deduplication: every line of a file of a
    repository that is among the results appears exactly once afterwards. *)
Definition each_place_kept_once : Prop :=
  forall results h,
    In h results ->
    count (same_place h) (deduplicateResults results) = 1.

(** Two repositories whose keys run together with a file path: [n] holds
    the file [src:x.ts], and [n:src] the file [x.ts]. *)
Definition second_ref : RepositoryRef :=
  mkRepositoryRef github (js "o") (js "n:src") (js "main").

Definition second_repository : Repository :=
  mkRepository (js "github:main:o/n:src") github (js "o") (js "n:src")
               (js "main") (js "/tmp/mcp-repos/o/n:src") pending 0 0 None None.

Definition colliding_stores : Stores :=
  let st0 := setRepository sample_stores (js "github:main:o/n:src")
                           second_repository in
  let st1 :=
    fst (returned
           (indexRepository sample_glob st0 (js "github:main:o/n")
              (mkCheckout None [js "src:x.ts"] (fun _ => Some (js "add(1)"))) 0)
           (st0, no_index)) in
  fst (returned
         (indexRepository sample_glob st1 (js "github:main:o/n:src")
            (mkCheckout None [js "x.ts"] (fun _ => Some (js "add(2)"))) 0)
         (st1, no_index)).

(** The two hits of [add] in those repositories. *)
Definition first_hit : QueryHit :=
  mkQueryHit (js "github:main:o/n") (js "src:x.ts") 1 (js "add(1)").

Definition second_hit : QueryHit :=
  mkQueryHit (js "github:main:o/n:src") (js "x.ts") 1 (js "add(2)").

(** The text of the second example of C9: line 1 holds both keywords. *)
Definition commented_source : jsstring :=
  unlines ["// how add does its work"; "export const add = (a, b) => a + b"]%string.

(** ** The language of a pattern *)

(** The concatenations of words of [P]. *)
Inductive star_of (P : jsstring -> Prop) : jsstring -> Prop :=
| star_of_nil : star_of P []
| star_of_app u v : P u -> star_of P v -> star_of P (u ++ v).

(** The words a pattern can consume. *)
Fixpoint lang (ic : bool) (r : regex) (w : jsstring) : Prop :=
  match r with
  | Empty | Bol => w = []
  | Char a => exists x, w = [x] /\ unit_matches ic a x = true
  | Class invert p => exists x, w = [x] /\ class_matches ic invert p x = true
  | Seq r1 r2 => exists u v, w = u ++ v /\ lang ic r1 u /\ lang ic r2 v
  | Alt r1 r2 => lang ic r1 w \/ lang ic r2 w
  | Opt r1 => w = [] \/ lang ic r1 w
  | Star _ r1 => star_of (lang ic r1) w
  | Group _ r1 => lang ic r1 w
  end.

(** The bodies of the groups numbered [n] in a pattern. *)
Fixpoint groups (n : nat) (r : regex) : list regex :=
  match r with
  | Seq r1 r2 | Alt r1 r2 => groups n r1 ++ groups n r2
  | Opt r1 | Star _ r1 => groups n r1
  | Group m r1 => (if m =? n then [r1] else []) ++ groups n r1
  | _ => []
  end.

(** Every capture of [new] holds a word of a group of [r] with its
    number. *)
Definition recorded (ic : bool) (r : regex) (new : captures) : Prop :=
  Forall (fun e => exists body, In body (groups (fst e) r)
                                /\ lang ic body (snd e))
         new.

(** What a successful run has done when it hands over to its
    continuation: consumed a word of [w], and put captures of the groups
    of the pattern in front of those it was given. *)
Definition sound_at (ic : bool) (r : regex) (w : jsstring -> Prop) : Prop :=
  forall i rest c k res,
    run ic r i rest c k = Some res ->
    exists n new,
      n <= length rest /\ w (firstn n rest) /\ recorded ic r new
      /\ k (i + n) (skipn n rest) (new ++ c) = Some res.

(** ** The lexical extractor: declaration lines and records *)

(** The declaration lines of a text whose first line has index [i]: line
    number, name and raw parameter text. *)
Fixpoint declarations (i : nat) (ls : list jsstring)
  : list (nat * jsstring * jsstring) :=
  match ls with
  | [] => []
  | line :: rest =>
      match declaration_in functionPatterns (trim line) with
      | Some (n, params) => [(i + 1, n, params)]
      | None => []
      end ++ declarations (S i) rest
  end.

(** A record but for its end line: start line, name and signature. *)
Definition opening (f : FunctionInfo) : nat * jsstring * jsstring :=
  (startLine f, fn_name f, signature f).

(** The opening of the record a declaration line gives. *)
Definition opened_by (d : nat * jsstring * jsstring)
  : nat * jsstring * jsstring :=
  let '(l, n, params) := d in (l, n, n ++ js "(" ++ params ++ js ")").

(** The record the loop holds open, if it is inside a function. *)
Definition open_record (st : ExtractState) : list FunctionInfo :=
  match currentFunction st, inFunction st with
  | Some cur, true => [cur]
  | _, _ => []
  end.

(** A non-empty run of word characters. *)
Definition is_identifier (s : jsstring) : bool :=
  match s with
  | [] => false
  | _ :: _ => forallb is_word s
  end.

(** The earlier record ends before the later one starts. *)
Definition ends_before (f g : FunctionInfo) : Prop := endLine f < startLine g.

(** What the extractor writes in a record besides the lines. *)
Definition well_formed_record (filePath : jsstring) (f : FunctionInfo) : Prop :=
  fn_file f = filePath /\ calls f = [] /\ calledBy f = []
  /\ is_identifier (fn_name f) = true
  /\ exists params,
       signature f = fn_name f ++ js "(" ++ params ++ js ")"
       /\ includes_char ")" params = false.

(** The records in order: pushed ones are sorted, and end before the
    open one starts. *)
Definition sorted_state (st : ExtractState) : Prop :=
  StronglySorted ends_before (out st)
  /\ forall cur, In cur (open_record st) ->
                 Forall (fun f => ends_before f cur) (out st).

(** ** The lexical extractor: where a record ends *)

(** The three ways a record comes to its end line: the brace balance
    closes it on a line that holds a closing brace, the declaration on
    the next line closes it, or the text ends. *)
Definition closes_on (whole : list jsstring) (f : FunctionInfo) : Prop :=
  (exists line,
      nth_error whole (endLine f - 1) = Some line
      /\ includes_char "}" line = true)
  \/ (exists line n params,
         nth_error whole (endLine f) = Some line
         /\ declaration_in functionPatterns (trim line) = Some (n, params))
  \/ endLine f = length whole.

(** ** The lexical extractor: declarations it recognises *)

(** Whitespace and nothing else. *)
Definition all_space (s : jsstring) : bool := forallb is_space s.

(** The keyword [export] and one space, or nothing. *)
Definition export_prefix (exported : bool) : jsstring :=
  if exported then js "export " else [].

(** A line that declares a function the classic way: indentation,
    [export] or not, the keyword, whitespace, the name, optional
    whitespace, the parameter text in parentheses, anything. *)
Definition classic_declaration (indent : jsstring) (exported : bool)
           (sp name ws params tail : jsstring) : jsstring :=
  indent ++ export_prefix exported ++ js "function" ++ sp ++ name ++ ws
         ++ js "(" ++ params ++ js ")" ++ tail.

(** A line that binds an arrow function to a constant: indentation,
    [export] or not, the keyword, whitespace, the name, the equals sign
    between optional whitespace, the parameter text in parentheses,
    optional whitespace and the arrow, then anything. *)
Definition arrow_declaration (indent : jsstring) (exported : bool)
           (sp name ws1 ws2 params ws3 tail : jsstring) : jsstring :=
  indent ++ export_prefix exported ++ js "const" ++ sp ++ name ++ ws1
         ++ js "=" ++ ws2 ++ js "(" ++ params ++ js ")" ++ ws3 ++ js "=>"
         ++ tail.

(** ** The lexical extractor: control statements *)

(** A line that opens a control statement: indentation, the keyword,
    optional whitespace, the condition in parentheses, optional
    whitespace and the opening brace, then anything. *)
Definition control_statement (indent kw ws1 cond ws2 tail : jsstring)
  : jsstring :=
  indent ++ kw ++ ws1 ++ js "(" ++ cond ++ js ")" ++ ws2 ++ js "{" ++ tail.

(** ** Text search: the offset the pattern carries *)

(** The index of the first occurrence of [q] in [s]. *)
Fixpoint first_occurrence (ic : bool) (q s : jsstring) : option nat :=
  if prefix_matches ic q s then Some 0
  else match s with
       | [] => None
       | _ :: t => option_map S (first_occurrence ic q t)
       end.

(** The first occurrence of [q] in [line] at or after the offset
    [from], counted from that offset. *)
Definition occurrence_from (ic : bool) (q : jsstring) (from : nat)
           (line : jsstring) : option nat :=
  if from <=? length line then first_occurrence ic q (skipn from line)
  else None.

(** ** The index *)

(** The record the indexer makes of a file read as [text]. *)
Definition file_record (filePath text : jsstring) : FileContent :=
  let lang := language_of (toLowerCase (Path.extname filePath)) in
  mkFileContent filePath text lang (length (lines_of text))
                (extractFunctionNames text lang)
                (extractImports text lang)
                (extractExports text lang).

(** What the identity of a repository is made of. *)
Definition identity (r : Repository)
  : jsstring * Remote * jsstring * jsstring * jsstring * jsstring :=
  (id r, remote r, owner r, name r, branch r, localPath r).

(** A table is the files table seen through [f]: the same keys in the
    same order, each with [f] of the record of its file. *)
Definition table_of (A : Type) (f : FileContent -> A)
           (fs : JsMap.Map FileContent) : JsMap.Map A :=
  map (fun e => (fst e, f (snd e))) fs.

(** ** Reading a file *)

(** The text holds no line break. *)
Definition one_line (l : jsstring) : bool := negb (includes_char LF l).

(** The text the file handler selects for the lines [s] to [e]. *)
Definition selected_lines (content : jsstring) (s e : nat) : jsstring :=
  join [LF] (slice (s - 1) e (lines_of content)).

(** The answer of the file handler for a path the index does not hold. *)
Definition file_not_found (file_path : jsstring) : answer FileView :=
  Message (js "File not found: " ++ file_path ++ [LF; LF]
           ++ js "Use git_get_file_tree to list available files.").

(** The stores after indexing scenario A, and its index. *)
Definition scenario_indexed : Stores * RepositoryIndex :=
  returned (indexRepository sample_glob sample_stores (js "github:main:o/n")
                            scenario_checkout 0)
           (sample_stores, no_index).

(** Three lines. *)
Definition three_lines : jsstring := unlines ["a"; "b"; "c"]%string.

(** ** Analysing a function *)

(** What the function handler shows of a function of the index: a record
    of that name whose key passes the path filter, with the language of
    its file and, as its text, the lines of the file from its start line
    to its end line, the first of which declares it. *)
Definition view_of_indexed_function (index : RepositoryIndex)
           (function_name : jsstring) (file_path : option jsstring)
           (v : FunctionView) : Prop :=
  let fn := fv_info v in
  fn_name fn = function_name
  /\ path_filter file_path (fn_file fn ++ js ":" ++ fn_name fn) = true
  /\ exists fileContent line params,
       JsMap.get (fn_file fn) (files index) = Some fileContent
       /\ fv_language v = language fileContent
       /\ span_within (length (lines_of (content fileContent))) fn
       /\ lines_of (fv_content v)
          = slice (startLine fn - 1) (endLine fn)
                  (lines_of (content fileContent))
       /\ hd_error (lines_of (fv_content v)) = Some line
       /\ declaration_in functionPatterns (trim line)
          = Some (function_name, params).

(** The answer of the function handler when no function matches. *)
Definition function_not_found (function_name : jsstring)
  : answer (list FunctionView) :=
  Message (js "Function '" ++ function_name ++ js "' not found."
           ++ [LF; LF] ++ js "Try git_search_code to find similar functions.").

(** ** The search handler *)



(** ** The query handler *)

(** Where a hit of the query handler comes from: a requested repository
    that is ready and indexed, a keyword of the query, and a line of an
    indexed file that contains the keyword, whatever the case; the hit
    carries the key of the repository, the path, the number of the line
    and the trimmed line. *)
Definition query_hit_justified (st : Stores) (keywords : list jsstring)
           (repositories : list RepositoryRef) (h : QueryHit) : Prop :=
  exists repo keyword index fileContent line,
    In repo repositories
    /\ q_repoId h = repoId_of repo
    /\ not_ready st (repoId_of repo) = false
    /\ In keyword keywords
    /\ getIndex st (repoId_of repo) = Some index
    /\ In (q_file h, fileContent) (files index)
    /\ 1 <= q_line h
    /\ nth_error (lines_of (content fileContent)) (q_line h - 1) = Some line
    /\ occurs_in true keyword line = true
    /\ q_content h = trim line.

(** The one way the query handler fails: a requested repository is ready
    but has no index, and the query has a keyword to search for. *)
Definition query_failure (st : Stores) (keywords : list jsstring)
           (repositories : list RepositoryRef) (e : exception) : Prop :=
  keywords <> []
  /\ exists repo,
       In repo repositories
       /\ not_ready st (repoId_of repo) = false
       /\ getIndex st (repoId_of repo) = None
       /\ e = Error (js "Repository " ++ repoId_of repo ++ js " not indexed").

(** ** The Markdown of the query results *)

(** The branch of the reference holds no colon. *)
Definition plain_branch (repo : RepositoryRef) : bool :=
  negb (includes_char ":" (ref_branch repo)).

(** The group belongs to a file of one of the repositories, its heading
    is the branch of that repository, and its Markdown starts with that
    heading. *)
Definition heading_is_branch (repositories : list RepositoryRef)
           (e : jsstring * list QueryHit) : Prop :=
  exists repo file,
    In repo repositories
    /\ fst e = repoId_of repo ++ js ":" ++ file
    /\ group_heading (fst e) = ref_branch repo
    /\ exists lines,
         group_markdown e
         = js "### " ++ ref_branch repo ++ [LF; LF] ++ lines.

(** ** The groups of the Markdown of the query results *)

(** The hits of a list that belong to the group of key [k], in order. *)
Definition members_of (k : jsstring) (results : list QueryHit)
  : list QueryHit :=
  filter (fun r => jsstring_eqb (group_key r) k) results.

(** The groups of a list of hits: the keys in the order of their first
    occurrence, each with its hits. *)
Definition groups_of (results : list QueryHit)
  : JsMap.Map (list QueryHit) :=
  map (fun k => (k, members_of k results))
      (unique [] (map group_key results)).

(** The two lines that open the Markdown of [n] results. *)
Definition results_heading (query : jsstring) (n : nat) : jsstring :=
  js "## Query: " ++ [dquote] ++ query ++ [dquote; LF; LF]
  ++ js "Found " ++ decimal n ++ js " relevant code snippets:" ++ [LF; LF].

(* ================================================================== *)
(** * Basic facts *)
(* ================================================================== *)

Lemma jsstring_eqb_eq a b : jsstring_eqb a b = true <-> a = b.
Proof.
  unfold jsstring_eqb. destruct (list_eq_dec ascii_dec a b); split; congruence.
Qed.

Lemma jsstring_eqb_refl a : jsstring_eqb a a = true.
Proof. now apply jsstring_eqb_eq. Qed.

(** The quantifier loop never runs out of fuel: what [run] computes for
    a quantifier does not depend on the fuel, once it exceeds the number
    of units left. *)
Section FuelFacts.

Variable ic : bool.

Lemma run_Star greedy r1 i rest c k :
  run ic (Star greedy r1) i rest c k
  = star_loop ic greedy r1 k (S (length rest)) i rest c.
Proof. reflexivity. Qed.

Lemma agree_after_step i rest i' rest' k1 k2 :
  i' + length rest' = i + length rest -> length rest' <= length rest ->
  agree_after i rest k1 k2 -> agree_after i' rest' k1 k2.
Proof.
  intros He Hl H i'' rest'' c'' He' Hl'. apply H; lia.
Qed.

Lemma run_ext r : forall i rest c k1 k2,
  agree_after i rest k1 k2 -> run ic r i rest c k1 = run ic r i rest c k2.
Proof.
  induction r as [ |a|inv p| |r1 IH1 r2 IH2|r1 IH1 r2 IH2|r1 IH1|g r1 IH1|n r1 IH1];
    intros i rest c k1 k2 H.
  - apply H; lia.
  - simpl. destruct rest as [|x t]; [reflexivity|].
    destruct (unit_matches ic a x); [|reflexivity]. apply H; simpl; lia.
  - simpl. destruct rest as [|x t]; [reflexivity|].
    destruct (class_matches ic inv p x); [|reflexivity]. apply H; simpl; lia.
  - simpl. destruct (i =? 0); [|reflexivity]. apply H; lia.
  - simpl. apply IH1. intros i' rest' c' He Hl. apply IH2.
    eapply agree_after_step; eassumption.
  - simpl. rewrite (IH1 i rest c k1 k2 H), (IH2 i rest c k1 k2 H). reflexivity.
  - simpl. rewrite (H i rest c) by lia.
    erewrite IH1; [reflexivity|].
    intros i' rest' c' He Hl. destruct (i' =? i); [reflexivity|]. now apply H.
  - rewrite !run_Star. generalize (S (length rest)) as fuel.
    intros fuel. revert i rest c H.
    induction fuel as [|f IHf]; intros i rest c H; simpl.
    + apply H; lia.
    + rewrite (H i rest c) by lia.
      erewrite IH1; [reflexivity|].
      intros i' rest' c' He Hl. destruct (i' =? i); [reflexivity|].
      apply IHf. eapply agree_after_step; eassumption.
  - simpl. apply IH1. intros i' rest' c' He Hl. now apply H.
Qed.

Lemma star_loop_step greedy r1 k f f' i rest c :
  (forall i' rest' c',
      i' + length rest' = i + length rest -> length rest' < length rest ->
      star_loop ic greedy r1 k f i' rest' c' = star_loop ic greedy r1 k f' i' rest' c') ->
  star_loop ic greedy r1 k (S f) i rest c = star_loop ic greedy r1 k (S f') i rest c.
Proof.
  intros H. cbn [star_loop].
  assert (Hk : run ic r1 i rest c
                 (fun i' rest' c' =>
                    if i' =? i then None
                    else star_loop ic greedy r1 k f i' rest' c')
               = run ic r1 i rest c
                 (fun i' rest' c' =>
                    if i' =? i then None
                    else star_loop ic greedy r1 k f' i' rest' c')).
  { apply run_ext. intros i' rest' c' He Hl.
    destruct (i' =? i) eqn:E; [reflexivity|]. apply Nat.eqb_neq in E.
    apply H; lia. }
  unfold star_loop in *. rewrite Hk. reflexivity.
Qed.

(** The fuel of a quantifier is never used up: any fuel above the number
    of units left gives the same result. *)
Lemma star_loop_fuel greedy r1 k : forall n rest,
  length rest <= n ->
  forall fuel i c,
    length rest < fuel ->
    star_loop ic greedy r1 k fuel i rest c
    = star_loop ic greedy r1 k (S (length rest)) i rest c.
Proof.
  induction n as [|n IH]; intros rest Hn fuel i c Hf;
    (destruct fuel as [|f]; [lia|]); apply star_loop_step;
    intros i' rest' c' He Hl.
  - lia.
  - rewrite (IH rest') by lia. rewrite (IH rest' ltac:(lia) (length rest)) by lia.
    reflexivity.
Qed.

End FuelFacts.

(* ================================================================== *)
(** * Properties of the lexical extractor *)
(* ================================================================== *)

Section ExtractFunctions.

Variable filePath : jsstring.

Lemma span_within_mono n m f : n <= m -> span_within n f -> span_within m f.
Proof. unfold span_within. lia. Qed.

Lemma Forall_span_mono n m fs :
  n <= m -> Forall (span_within n) fs -> Forall (span_within m) fs.
Proof.
  intros Hnm H. eapply Forall_impl; [|exact H].
  intros f. now apply span_within_mono.
Qed.

Lemma Forall_snoc (A : Type) (P : A -> Prop) xs x :
  Forall P xs -> P x -> Forall P (xs ++ [x]).
Proof. intros Hxs Hx. apply Forall_app. split; [assumption | now constructor]. Qed.

Lemma declaration_step_invariant i line st :
  loop_invariant i st ->
  Forall (span_within i) (out (declaration_step filePath i line st))
  /\ forall cur, currentFunction (declaration_step filePath i line st) = Some cur ->
                 1 <= startLine cur /\ startLine cur <= S i.
Proof.
  intros [Hout Hcur]. unfold declaration_step.
  destruct (declaration_in functionPatterns (trim line)) as [[n params]|].
  - simpl. split.
    + destruct (currentFunction st) as [cur|] eqn:Ecur; [|assumption].
      destruct (inFunction st); [|assumption].
      apply Forall_snoc; [assumption|].
      destruct (Hcur cur eq_refl) as [H1 H2].
      unfold span_within. simpl. lia.
    + intros cur H. cbn in H. injection H as <-. simpl. lia.
  - split; [assumption|].
    intros cur H. specialize (Hcur cur H). lia.
Qed.

Lemma line_step_invariant i line st :
  loop_invariant i st -> loop_invariant (S i) (line_step filePath i line st).
Proof.
  intros Hinv. destruct (declaration_step_invariant line Hinv) as [Hout Hcur].
  unfold line_step, brace_step, loop_invariant.
  set (st1 := declaration_step filePath i line st) in *.
  assert (Hout' : Forall (span_within (S i)) (out st1))
    by (eapply Forall_span_mono; [|exact Hout]; lia).
  destruct (inFunction st1); [|now split].
  destruct (currentFunction st1) as [cur|] eqn:Ecur; [|split; [assumption|]].
  - destruct (Hcur cur eq_refl) as [H1 H2].
    destruct ((_ <=? 0)%Z && includes_char "}" line).
    + split; simpl; [|discriminate].
      apply Forall_snoc; [assumption|].
      unfold span_within. simpl. lia.
    + split; simpl; [assumption|]. intros c H. injection H as <-. lia.
  - intros c H. rewrite Ecur in H. discriminate.
Qed.

Lemma extract_loop_invariant ls : forall i st,
  loop_invariant i st ->
  loop_invariant (i + length ls) (extract_loop filePath i ls st).
Proof.
  induction ls as [|line rest IH]; intros i st Hinv; simpl.
  - now rewrite Nat.add_0_r.
  - replace (i + S (length rest)) with (S i + length rest) by lia.
    apply IH. now apply line_step_invariant.
Qed.

Lemma close_at_end_spans n st :
  loop_invariant n st -> Forall (span_within n) (close_at_end n st).
Proof.
  intros [Hout Hcur]. unfold close_at_end.
  destruct (currentFunction st) as [cur|]; [|assumption].
  destruct (inFunction st); [|assumption].
  apply Forall_snoc; [assumption|].
  destruct (Hcur cur eq_refl). unfold span_within. simpl. lia.
Qed.

(** Records once pushed stay, in place. *)
Lemma line_step_out_grows i line st :
  exists more, out (line_step filePath i line st) = out st ++ more.
Proof.
  unfold line_step, brace_step, declaration_step.
  destruct (declaration_in functionPatterns (trim line)) as [[n params]|]; simpl.
  - destruct ((_ <=? 0)%Z && includes_char "}" line); simpl;
      destruct (currentFunction st) as [cur|]; try destruct (inFunction st);
      rewrite <- ?app_assoc; eauto using app_nil_r.
    all: try (exists []; now rewrite app_nil_r).
  - destruct (inFunction st); [|exists []; now rewrite app_nil_r].
    destruct (currentFunction st) as [cur|]; [|exists []; now rewrite app_nil_r].
    destruct ((_ <=? 0)%Z && includes_char "}" line); simpl; eauto.
    exists []; now rewrite app_nil_r.
Qed.

Lemma extract_loop_out_grows ls : forall i st,
  exists more, out (extract_loop filePath i ls st) = out st ++ more.
Proof.
  induction ls as [|line rest IH]; intros i st; simpl.
  - exists []. now rewrite app_nil_r.
  - destruct (IH (S i) (line_step filePath i line st)) as [m2 H2].
    destruct (line_step_out_grows i line st) as [m1 H1].
    exists (m1 ++ m2). now rewrite H2, H1, app_assoc.
Qed.

Lemma close_at_end_keeps n st f : In f (out st) -> In f (close_at_end n st).
Proof.
  intros H. unfold close_at_end.
  destruct (currentFunction st); [|assumption].
  destruct (inFunction st); [|assumption].
  apply in_or_app. now left.
Qed.

End ExtractFunctions.

Lemma extract_loop_app filePath a : forall b i st,
  extract_loop filePath i (a ++ b) st
  = extract_loop filePath (i + length a) b (extract_loop filePath i a st).
Proof.
  induction a as [|line rest IH]; intros b i st; simpl.
  - now rewrite Nat.add_0_r.
  - rewrite IH. f_equal. lia.
Qed.

Lemma brace_step_keeps i line st f : In f (out st) -> In f (out (brace_step i line st)).
Proof.
  intros H. unfold brace_step.
  destruct (inFunction st); [|assumption].
  destruct (currentFunction st); [|assumption].
  destruct ((_ <=? 0)%Z && includes_char "}" line); simpl; [|assumption].
  apply in_or_app. now left.
Qed.

Lemma extract_loop_keeps filePath ls i st f :
  In f (out st) -> In f (out (extract_loop filePath i ls st)).
Proof.
  intros H. destruct (extract_loop_out_grows filePath ls i st) as [more ->].
  apply in_or_app. now left.
Qed.

(** C6. For every text, file path and language tag, every record that
    [extractFunctions] returns has [1 <= startLine <= endLine], and its
    end line is a line of the text: the line numbers are 1-indexed and
    inclusive.  The statement is about the list returned, so it covers the
    records closed by a later declaration, those closed by the brace
    balance, and the one closed at the end of the text. *)
Theorem extractFunctions_startLine_le_endLine (content filePath language : jsstring) :
  Forall (fun f => 1 <= startLine f
                   /\ startLine f <= endLine f
                   /\ endLine f <= length (lines_of content))
         (extractFunctions content filePath language).
Proof.
  unfold extractFunctions.
  apply close_at_end_spans.
  apply (extract_loop_invariant filePath (lines_of content) (i := 0)).
  split; [constructor | discriminate].
Qed.

(** The three ways a record is closed, on one text: [foo] by the
    declaration on line 3, [if] by the brace on line 5, [bar] at the end
    of the text. *)
Example extractFunctions_three_closings :
  map (fun f => (fn_name f, startLine f, endLine f))
      (extractFunctions
         (unlines ["export function foo(a) {"; "  // body"; "  if (a) {";
                   "    return 1;"; "  }"; "}"; "const bar = async (q) => q";
                   "// end"]%string)
         (js "main.ts") (js "typescript"))
  = [(js "foo", 1, 2); (js "if", 3, 5); (js "bar", 7, 8)].
Proof. vm_compute. reflexivity. Qed.

(** C2, as stated, fails: in a text whose lines 1 and 2 both declare a
    function, the declaration on line 2 closes the first record with end
    line 1, not 2. *)
Lemma previous_closed_on_declaration_line_fails :
  ~ previous_closed_on_declaration_line.
Proof.
  intros H.
  specialize (H (js "main.ts") 1 (js "function g(b) {")
                (extract_loop (js "main.ts") 0 [js "function f(a) {"]
                              (mkExtractState [] None 0 false))
                (mkFunctionInfo (js "f") (js "main.ts") 1 1 (js "f(a)") [] [])
                (js "g") (js "b") eq_refl eq_refl eq_refl).
  vm_compute in H. discriminate H.
Qed.

(** C2, amended. When a declaration pattern matches on the line at index
    [i] (line [i + 1]) while the extractor is inside a function, the
    previous record is closed with end line [i], the line before the
    declaration, and pushed to the output list, where it stays until
    [extractFunctions] returns; a new record is opened with start line and
    tentative end line [i + 1], the signature [name(params)] built from
    the captured name and raw parameter text, and empty call lists; the
    brace balance is reset to zero. *)
Theorem declaration_closes_previous_function
        (content filePath language : jsstring)
        (before after : list jsstring) (line : jsstring)
        (prev : FunctionInfo) (n params : jsstring) :
  let st := extract_loop filePath 0 before (mkExtractState [] None 0 false) in
  let i := length before in
  lines_of content = before ++ line :: after ->
  currentFunction st = Some prev ->
  inFunction st = true ->
  declaration_in functionPatterns (trim line) = Some (n, params) ->
  declaration_step filePath i line st
  = mkExtractState
      (out st ++ [with_endLine prev i])
      (Some (mkFunctionInfo n filePath (i + 1) (i + 1)
                            (n ++ js "(" ++ params ++ js ")") [] []))
      0 true
  /\ In (with_endLine prev i) (extractFunctions content filePath language)
  /\ startLine prev <= i.
Proof.
  intros st i Hlines Hcur Hin Hdecl.
  assert (Hstep : declaration_step filePath i line st
                  = mkExtractState
                      (out st ++ [with_endLine prev i])
                      (Some (mkFunctionInfo n filePath (i + 1) (i + 1)
                                            (n ++ js "(" ++ params ++ js ")") [] []))
                      0 true).
  { unfold declaration_step. now rewrite Hdecl, Hcur, Hin. }
  split; [exact Hstep|]. split.
  - unfold extractFunctions. rewrite Hlines.
    apply close_at_end_keeps.
    rewrite extract_loop_app. simpl.
    apply extract_loop_keeps. unfold line_step.
    apply brace_step_keeps. fold st. fold i. rewrite Hstep. simpl.
    apply in_or_app. right. now left.
  - pose proof (extract_loop_invariant filePath before (i := 0)
                  (st := mkExtractState [] None 0 false)) as Hinv.
    destruct Hinv as [_ Hc]; [split; [constructor | discriminate]|].
    destruct (Hc prev Hcur). simpl in *. fold i in H0. exact H0.
Qed.

Lemma declaration_closes_previous_function_witness :
  In (mkFunctionInfo (js "f") (js "main.ts") 1 1 (js "f(a)") [] [])
     (extractFunctions two_declarations (js "main.ts") (js "typescript")).
Proof.
  exact (proj1 (proj2
    (@declaration_closes_previous_function
       two_declarations (js "main.ts") (js "typescript")
       [js "function f(a) {"] [] (js "function g(b) {")
       (mkFunctionInfo (js "f") (js "main.ts") 1 1 (js "f(a)") [] [])
       (js "g") (js "b") eq_refl eq_refl eq_refl eq_refl))).
Defined.

(* ================================================================== *)
(** * Properties of the stores and of the identity key *)
(* ================================================================== *)

Section JsMapFacts.

Variable V : Type.
Implicit Types (m : JsMap.Map V) (k : jsstring) (v : V).

Lemma get_set_same m k v : JsMap.get k (JsMap.set k v m) = Some v.
Proof.
  induction m as [|[k' v'] t IH]; simpl.
  - now rewrite jsstring_eqb_refl.
  - destruct (jsstring_eqb k k') eqn:E; simpl; rewrite E; [reflexivity | exact IH].
Qed.

Lemma get_set_other m k k' v :
  k' <> k -> JsMap.get k' (JsMap.set k v m) = JsMap.get k' m.
Proof.
  intros Hne. induction m as [|[k0 v0] t IH]; simpl.
  - destruct (jsstring_eqb k' k) eqn:E; [|reflexivity].
    apply jsstring_eqb_eq in E. contradiction.
  - destruct (jsstring_eqb k k0) eqn:E; simpl.
    + apply jsstring_eqb_eq in E. subst k0.
      destruct (jsstring_eqb k' k) eqn:E'; [|reflexivity].
      apply jsstring_eqb_eq in E'. contradiction.
    + now rewrite IH.
Qed.

(** [set] on a key the map holds changes no key and adds no entry. *)
Lemma keys_set_present m k v old :
  JsMap.get k m = Some old -> JsMap.keys (JsMap.set k v m) = JsMap.keys m.
Proof.
  unfold JsMap.keys. induction m as [|[k' v'] t IH]; simpl; [discriminate|].
  destruct (jsstring_eqb k k') eqn:E; simpl; [reflexivity|].
  intros H. now rewrite IH.
Qed.

Lemma keys_set_absent m k v :
  JsMap.get k m = None -> JsMap.keys (JsMap.set k v m) = JsMap.keys m ++ [k].
Proof.
  unfold JsMap.keys. induction m as [|[k' v'] t IH]; simpl; [reflexivity|].
  destruct (jsstring_eqb k k') eqn:E; simpl; [discriminate|].
  intros H. now rewrite IH.
Qed.

Lemma get_in_keys m k v : JsMap.get k m = Some v -> In k (JsMap.keys m).
Proof.
  unfold JsMap.keys. induction m as [|[k' v'] t IH]; simpl; [discriminate|].
  destruct (jsstring_eqb k k') eqn:E.
  - apply jsstring_eqb_eq in E. intros _. now left.
  - intros H. right. now apply IH.
Qed.

Lemma get_not_in_keys m k : ~ In k (JsMap.keys m) -> JsMap.get k m = None.
Proof.
  intros H. destruct (JsMap.get k m) eqn:E; [|reflexivity].
  exfalso. apply H. eapply get_in_keys. eassumption.
Qed.

Lemma keys_set_incl m k v k' :
  In k' (JsMap.keys (JsMap.set k v m)) -> k' = k \/ In k' (JsMap.keys m).
Proof.
  destruct (JsMap.get k m) eqn:E.
  - erewrite keys_set_present by eassumption. now right.
  - rewrite keys_set_absent by assumption. intros H.
    apply in_app_or in H. destruct H as [H|[H|[]]]; [now right | now left].
Qed.

End JsMapFacts.

(** Splitting at the first occurrence of a separator is unambiguous. *)
Lemma split_at_first_separator (c : ascii) (a a' x x' : jsstring) :
  ~ In c a -> ~ In c a' ->
  a ++ c :: x = a' ++ c :: x' -> a = a' /\ x = x'.
Proof.
  revert a'. induction a as [|h t IH]; intros [|h' t'] Ha Ha' H; simpl in *.
  - injection H as ->. now split.
  - injection H as -> _. exfalso. apply Ha'. now left.
  - injection H as -> _. exfalso. apply Ha. now left.
  - injection H as -> H.
    assert (t = t' /\ x = x') as [-> ->] by (apply IH; tauto).
    now split.
Qed.

(** C4, as stated, fails: owner [a/b] with name [c] and owner [a] with
    name [b/c] get the same key. *)
Lemma repoId_distinct_for_all_tuples_fails : ~ repoId_distinct_for_all_tuples.
Proof.
  intros H.
  specialize (H (js "gitlab") (js "a/b") (js "c") (js "main")
                (js "gitlab") (js "a") (js "b/c") (js "main") eq_refl).
  vm_compute in H. discriminate H.
Qed.

(** C4, amended. For tuples whose remote and branch contain no colon and
    whose owner contains no slash, [generateRepoId] gives different tuples
    different keys; and [setRepository] under a key the store already
    holds replaces the record under that key: the record is the one read
    back, the keys of the store, their order and their number are what
    they were, and the other records are untouched. *)
Theorem repoId_distinct_and_setRepository_overwrites
        (remote owner name branch remote' owner' name' branch' : jsstring)
        (st : Stores) (repo old : Repository) :
  let colon := ":"%char in
  let slash := "/"%char in
  let repoId := generateRepoId remote owner name branch in
  ~ In colon remote -> ~ In colon branch -> ~ In slash owner ->
  ~ In colon remote' -> ~ In colon branch' -> ~ In slash owner' ->
  getRepository st repoId = Some old ->
  (repoId = generateRepoId remote' owner' name' branch' ->
   (remote, branch, owner, name) = (remote', branch', owner', name'))
  /\ getRepository (setRepository st repoId repo) repoId = Some repo
  /\ JsMap.keys (repositoryStore (setRepository st repoId repo))
     = JsMap.keys (repositoryStore st)
  /\ length (listRepositories (setRepository st repoId repo))
     = length (listRepositories st)
  /\ (forall other, other <> repoId ->
        getRepository (setRepository st repoId repo) other
        = getRepository st other).
Proof.
  intros colon slash repoId Hr Hb Ho Hr' Hb' Ho' Hold.
  split; [|split; [|split; [|split]]].
  - unfold repoId, generateRepoId. simpl. intros H.
    apply split_at_first_separator in H; try assumption.
    destruct H as [-> H].
    apply split_at_first_separator in H; try assumption.
    destruct H as [-> H].
    apply split_at_first_separator in H; try assumption.
    destruct H as [-> ->]. reflexivity.
  - apply get_set_same.
  - simpl. eapply keys_set_present. exact Hold.
  - unfold listRepositories, JsMap.values. rewrite !length_map.
    pose proof (keys_set_present (repositoryStore st) repoId repo Hold) as H.
    apply (f_equal (@length _)) in H. unfold JsMap.keys in H.
    now rewrite !length_map in H.
  - intros other Hne. unfold getRepository. simpl.
    now apply get_set_other.
Qed.

Lemma repoId_distinct_and_setRepository_overwrites_witness :
  getRepository (setRepository sample_stores (js "github:main:o/n")
                               (sample_repository ready))
                (js "github:main:o/n")
  = Some (sample_repository ready).
Proof.
  refine (proj1 (proj2
    (@repoId_distinct_and_setRepository_overwrites
       (js "github") (js "o") (js "n") (js "main")
       (js "github") (js "o") (js "n") (js "dev")
       sample_stores (sample_repository ready) (sample_repository pending)
       _ _ _ _ _ _ eq_refl)));
    vm_compute; intuition discriminate.
Defined.

(* ================================================================== *)
(** * Properties of the indexing pass *)
(* ================================================================== *)

Section IndexingFacts.

Variable glob_match : jsstring -> jsstring -> bool.

Lemma builtin_rules ig :
  Ignore.add_patterns ig IGNORE_PATTERNS
  = ig ++ map (fun p => Ignore.mkRule p false) IGNORE_PATTERNS.
Proof. reflexivity. Qed.

Lemma fold_plain_rules q ps : forall acc,
  fold_left (fun ignored r =>
               if glob_match (Ignore.pattern r) q then negb (Ignore.negative r)
               else ignored)
            (map (fun p => Ignore.mkRule p false) ps) acc
  = acc || existsb (fun p => glob_match p q) ps.
Proof.
  induction ps as [|p t IH]; intros acc; simpl.
  - now rewrite orb_false_r.
  - rewrite IH. destruct (glob_match p q); simpl.
    + now rewrite orb_true_r.
    + reflexivity.
Qed.

(** The built-in patterns come last and are not negated: a path one of
    them matches is matched whatever the rules before say. *)
Lemma test_one_builtin ig q :
  existsb (fun p => glob_match p q) IGNORE_PATTERNS = true ->
  Ignore.test_one glob_match (Ignore.add_patterns ig IGNORE_PATTERNS) q = true.
Proof.
  intros H. rewrite builtin_rules. unfold Ignore.test_one.
  rewrite fold_left_app, fold_plain_rules, H. apply orb_true_r.
Qed.

Lemma ignores_builtin co path :
  builtin_excluded glob_match path = true ->
  Ignore.ignores glob_match (ignore_rules co) path = true.
Proof.
  unfold builtin_excluded, Ignore.ignores, ignore_rules.
  rewrite existsb_app. simpl. rewrite orb_false_r.
  intros H. apply orb_true_iff in H. apply orb_true_iff.
  destruct H as [H|H].
  - left. apply existsb_exists in H. destruct H as [q [Hq Hm]].
    apply existsb_exists. exists q. split; [assumption|].
    now apply test_one_builtin.
  - right. now apply test_one_builtin.
Qed.

(** Without negated rules a path is ignored exactly when some rule
    matches it or a directory above it. *)
Lemma test_one_plain ig q :
  (forall r, In r ig -> Ignore.negative r = false) ->
  Ignore.test_one glob_match ig q = existsb (fun r => glob_match (Ignore.pattern r) q) ig.
Proof.
  unfold Ignore.test_one. intros Hplain.
  assert (H : forall acc,
            fold_left (fun ignored r =>
                         if glob_match (Ignore.pattern r) q
                         then negb (Ignore.negative r) else ignored)
                      ig acc
            = acc || existsb (fun r => glob_match (Ignore.pattern r) q) ig).
  { induction ig as [|r t IH]; intros acc; simpl.
    - now rewrite orb_false_r.
    - rewrite IH by (intros r' Hr'; apply Hplain; now right).
      rewrite (Hplain r (or_introl eq_refl)).
      destruct (glob_match (Ignore.pattern r) q); simpl;
        [now rewrite orb_true_r | reflexivity]. }
  apply H.
Qed.

Lemma not_ignored_plain ig path r q :
  (forall r, In r ig -> Ignore.negative r = false) ->
  Ignore.ignores glob_match ig path = false ->
  In r ig -> In q (Ignore.parents path ++ [path]) ->
  glob_match (Ignore.pattern r) q = false.
Proof.
  intros Hplain Hig Hr Hq. unfold Ignore.ignores in Hig.
  apply orb_false_iff in Hig. destruct Hig as [Hpar Hself].
  assert (Hone : Ignore.test_one glob_match ig q = false).
  { apply in_app_or in Hq. destruct Hq as [Hq|[<-|[]]]; [|assumption].
    destruct (Ignore.test_one glob_match ig q) eqn:E; [|reflexivity].
    assert (existsb (Ignore.test_one glob_match ig) (Ignore.parents path) = true);
      [|congruence].
    apply existsb_exists. eauto. }
  rewrite (test_one_plain ig q Hplain) in Hone.
  destruct (glob_match (Ignore.pattern r) q) eqn:E; [|reflexivity].
  assert (existsb (fun r => glob_match (Ignore.pattern r) q) ig = true); [|congruence].
  apply existsb_exists. eauto.
Qed.

(** A path that a rule excludes and that is not ignored in the end has
    been brought back by a later, negated rule. *)
Lemma fold_rules_reincluded q after :
  fold_left (fun ignored r =>
               if glob_match (Ignore.pattern r) q then negb (Ignore.negative r)
               else ignored)
            after true = false ->
  exists r', In r' after /\ Ignore.negative r' = true
             /\ glob_match (Ignore.pattern r') q = true.
Proof.
  induction after as [|r t IH]; simpl; intros H; [discriminate|].
  destruct (glob_match (Ignore.pattern r) q) eqn:Hm.
  - destruct (Ignore.negative r) eqn:Hn.
    + exists r. repeat split; [now left | assumption | assumption].
    + destruct (IH H) as [r' [Hin [Hn' Hm']]].
      exists r'. repeat split; [now right | assumption | assumption].
  - destruct (IH H) as [r' [Hin [Hn' Hm']]].
    exists r'. repeat split; [now right | assumption | assumption].
Qed.

Lemma test_one_reincluded before r after q :
  Ignore.test_one glob_match (before ++ r :: after) q = false ->
  Ignore.negative r = false ->
  glob_match (Ignore.pattern r) q = true ->
  exists r', In r' after /\ Ignore.negative r' = true
             /\ glob_match (Ignore.pattern r') q = true.
Proof.
  unfold Ignore.test_one. rewrite fold_left_app. cbn [fold_left].
  intros H Hn Hm. rewrite Hm, Hn in H. now apply fold_rules_reincluded.
Qed.

Lemma ignore_rules_split co :
  ignore_rules co
  = repository_rules co ++ map (fun p => Ignore.mkRule p false) IGNORE_PATTERNS.
Proof. unfold ignore_rules. now rewrite builtin_rules. Qed.

(** The rule that brings a path back is one of the repository's: no
    built-in rule is negated. *)
Lemma negated_rule_of_repository co r :
  In r (ignore_rules co) -> Ignore.negative r = true ->
  In r (repository_rules co).
Proof.
  rewrite ignore_rules_split. intros H Hn. apply in_app_or in H.
  destruct H as [H|H]; [assumption|].
  apply in_map_iff in H. destruct H as [p [<- _]]. discriminate Hn.
Qed.

Lemma not_ignored_reincluded co path before r after q :
  Ignore.ignores glob_match (ignore_rules co) path = false ->
  ignore_rules co = before ++ r :: after ->
  In q (Ignore.parents path ++ [path]) ->
  Ignore.negative r = false ->
  glob_match (Ignore.pattern r) q = true ->
  exists r', In r' after /\ In r' (repository_rules co)
             /\ Ignore.negative r' = true
             /\ glob_match (Ignore.pattern r') q = true.
Proof.
  intros Hig Hsplit Hq Hn Hm. unfold Ignore.ignores in Hig.
  apply orb_false_iff in Hig. destruct Hig as [Hpar Hself].
  assert (Hone : Ignore.test_one glob_match (ignore_rules co) q = false).
  { apply in_app_or in Hq. destruct Hq as [Hq|[<-|[]]]; [|assumption].
    destruct (Ignore.test_one glob_match (ignore_rules co) q) eqn:E;
      [|reflexivity].
    assert (existsb (Ignore.test_one glob_match (ignore_rules co))
                    (Ignore.parents path) = true); [|congruence].
    apply existsb_exists. eauto. }
  rewrite Hsplit in Hone.
  destruct (@test_one_reincluded before r after q Hone Hn Hm)
    as [r' [Hin [Hn' Hm']]].
  exists r'. repeat split; try assumption.
  apply negated_rule_of_repository; [|assumption].
  rewrite Hsplit. apply in_or_app. right. now right.
Qed.

Lemma index_file_keys co t file k :
  In k (JsMap.keys (t_files (index_file co t file))) ->
  k = file \/ In k (JsMap.keys (t_files t)).
Proof.
  unfold index_file. destruct (readFile co file); simpl.
  - apply keys_set_incl.
  - now right.
Qed.

Lemma index_files_from co l : forall t k,
  In k (JsMap.keys (t_files (fold_left (index_file co) l t))) ->
  In k l \/ In k (JsMap.keys (t_files t)).
Proof.
  induction l as [|file rest IH]; intros t k H; simpl in *.
  - now right.
  - apply IH in H. destruct H as [H|H]; [left; now right|].
    apply index_file_keys in H. destruct H as [->|H]; [left; now left | now right].
Qed.

Lemma index_files_processed co l : forall t,
  processed (fold_left (index_file co) l t)
  = processed t + length (filter (readable co) l).
Proof.
  induction l as [|file rest IH]; intros t; simpl.
  - lia.
  - rewrite IH. unfold index_file, readable.
    destruct (readFile co file); simpl; lia.
Qed.

Lemma indexed_is_code_file co k :
  In k (JsMap.keys (t_files (index_files glob_match co))) -> In k (codeFiles glob_match co).
Proof.
  intros H. apply index_files_from in H. destruct H as [H|[]]. exact H.
Qed.

End IndexingFacts.

(** C7, as stated, fails: with an ignore file of the two lines [*.ts]
    and [!main.ts], [main.ts] is indexed although the rule [*.ts], which
    excludes paths, matches its path; [other.ts] is not indexed. *)
Lemma indexed_only_if_no_rule_matches_fails : ~ indexed_only_if_no_rule_matches.
Proof.
  intros H.
  assert (Hrun : indexRepository suffix_glob sample_stores (js "github:main:o/n")
                                 reincluding_checkout 0
                 = Return reincluded_indexed) by (vm_compute; reflexivity).
  assert (Hget : exists fileContent,
             JsMap.get (js "main.ts") (files (snd reincluded_indexed))
             = Some fileContent)
    by (eexists; vm_compute; reflexivity).
  destruct Hget as [fileContent Hget].
  destruct reincluded_indexed as [st' index] eqn:E.
  destruct (H suffix_glob sample_stores st' (js "github:main:o/n")
              reincluding_checkout 0 index (js "main.ts") fileContent
              Hrun Hget) as [_ Hrules].
  specialize (Hrules (Ignore.mkRule (js "*.ts") false)).
  assert (Hmatch : suffix_glob (js "*.ts") (js "main.ts") = false).
  { apply Hrules; [|reflexivity]. vm_compute. now left. }
  vm_compute in Hmatch. discriminate Hmatch.
Qed.

(** What the index of that checkout holds. *)
Example reincluded_file_is_indexed :
  JsMap.keys (files (snd reincluded_indexed)) = [js "main.ts"]
  /\ map (fun r => (Ignore.pattern r, Ignore.negative r))
         (repository_rules reincluding_checkout)
     = [(js "*.ts", false); (js "main.ts", true)].
Proof. vm_compute. split; reflexivity. Qed.

(** C7, amended. For every repository, ignore file and file list: a
    file whose path, or a directory above it, matches a built-in exclusion
    pattern is not among the code files, so it is neither in the index nor
    counted in [filesProcessed], whatever its extension and whatever the
    repository's own rules say; a file in the index is one of the listed
    files, has an extension of the indexable set, and is not ignored by
    the rules, the repository's followed by the built-in ones: no
    built-in pattern matches it or a directory above it, and every rule
    that excludes paths and matches it or a directory above it is followed
    by a negated rule of the repository that matches the same path; so
    when the repository negates no pattern, no rule at all matches it or a
    directory above it; [filesProcessed] counts the code files that could
    be read and [totalFiles] the code files. *)
Theorem builtin_exclusions_never_indexed
        (glob_match : jsstring -> jsstring -> bool) (st st' : Stores)
        (repoId : jsstring) (co : Checkout) (now : nat)
        (index : RepositoryIndex) (path : jsstring) :
  indexRepository glob_match st repoId co now = Return (st', index) ->
  (builtin_excluded glob_match path = true ->
     ~ In path (codeFiles glob_match co)
     /\ JsMap.get path (files index) = None)
  /\ (forall fileContent,
        JsMap.get path (files index) = Some fileContent ->
        In path (allFiles co)
        /\ In (toLowerCase (Path.extname path)) CODE_EXTENSIONS
        /\ Ignore.ignores glob_match (ignore_rules co) path = false
        /\ builtin_excluded glob_match path = false
        /\ (forall before r after q,
              ignore_rules co = before ++ r :: after ->
              In q (Ignore.parents path ++ [path]) ->
              Ignore.negative r = false ->
              glob_match (Ignore.pattern r) q = true ->
              exists r',
                In r' after /\ In r' (repository_rules co)
                /\ Ignore.negative r' = true
                /\ glob_match (Ignore.pattern r') q = true)
        /\ ((forall r, In r (ignore_rules co) -> Ignore.negative r = false) ->
            forall r q,
              In r (ignore_rules co) ->
              In q (Ignore.parents path ++ [path]) ->
              glob_match (Ignore.pattern r) q = false))
  /\ filesProcessed (repository index)
     = length (filter (readable co) (codeFiles glob_match co))
  /\ totalFiles (repository index) = length (codeFiles glob_match co).
Proof.
  unfold indexRepository.
  destruct (JsMap.get repoId (repositoryStore st)) as [repo|]; [|discriminate].
  intros H. injection H as _ <-. simpl.
  assert (Hcode : forall p, In p (codeFiles glob_match co) ->
            In p (allFiles co)
            /\ In (toLowerCase (Path.extname p)) CODE_EXTENSIONS
            /\ Ignore.ignores glob_match (ignore_rules co) p = false).
  { intros p Hp. unfold codeFiles in Hp. apply filter_In in Hp.
    destruct Hp as [Hall Hp]. unfold is_code_file in Hp.
    apply andb_true_iff in Hp. destruct Hp as [Hext Hig].
    split; [assumption|]. split.
    - apply existsb_exists in Hext. destruct Hext as [e [He Heq]].
      apply jsstring_eqb_eq in Heq. now subst e.
    - now apply negb_true_iff in Hig. }
  assert (Hex : builtin_excluded glob_match path = true -> ~ In path (codeFiles glob_match co)).
  { intros Hb Hin. destruct (Hcode path Hin) as [_ [_ Hig]].
    rewrite (ignores_builtin glob_match co path Hb) in Hig. discriminate. }
  split; [|split; [|split]].
  - intros Hb. split; [now apply Hex|].
    apply get_not_in_keys. intros Hk. apply (Hex Hb).
    now apply indexed_is_code_file.
  - intros fileContent Hget. apply get_in_keys in Hget.
    apply indexed_is_code_file in Hget.
    destruct (Hcode path Hget) as [Ha [He Hig]].
    split; [assumption|]. split; [assumption|]. split; [assumption|].
    split; [|split].
    + destruct (builtin_excluded glob_match path) eqn:Hb; [|reflexivity].
      exfalso. now apply (Hex eq_refl).
    + intros before r after q Hsplit Hq Hn Hm.
      eapply not_ignored_reincluded; eassumption.
    + intros Hplain r q Hr Hq.
      eapply not_ignored_plain; eassumption.
  - unfold index_files. now rewrite index_files_processed.
  - reflexivity.
Qed.

Lemma builtin_exclusions_never_indexed_witness :
  ~ In (js "node_modules/x.ts") (codeFiles sample_glob sample_checkout)
  /\ JsMap.get (js "node_modules/x.ts") (files (snd sample_indexed)) = None.
Proof.
  refine (proj1
    (@builtin_exclusions_never_indexed
       sample_glob sample_stores (fst sample_indexed) (js "github:main:o/n")
       sample_checkout 0 (snd sample_indexed) (js "node_modules/x.ts") _) _);
    vm_compute; reflexivity.
Defined.




(** The one-line span is that of a text without a final line break:
    with one, the text has a second, empty line and the record, closed at
    the end of the text, ends there. *)
Example scenario_A_with_final_line_break :
  map (fun f => (fn_name f, startLine f, endLine f))
      (extractFunctions (add_source ++ nl) (js "main.ts") (js "typescript"))
  = [(js "add", 1, 2)].
Proof. vm_compute. reflexivity. Qed.


(* ================================================================== *)
(** * Properties of text search *)
(* ================================================================== *)

(** ** The pattern of a search is its query, unit by unit *)

Lemma backslash_is_syntax c :
  is_syntax_character c = false -> Ascii.eqb c backslash = false.
Proof.
  intros H. destruct (Ascii.eqb c backslash) eqn:E; [|reflexivity].
  apply Ascii.eqb_eq in E. subst c. vm_compute in H. discriminate.
Qed.

Lemma parse_literal_escapeRegex q : parse_literal (escapeRegex q) = Some (Lit q).
Proof.
  induction q as [|c t IH]; [reflexivity|].
  unfold escapeRegex in *. cbn [flat_map].
  destruct (is_syntax_character c) eqn:Hc.
  - cbn [app parse_literal]. rewrite Ascii.eqb_refl, Hc, IH. reflexivity.
  - cbn [app parse_literal]. rewrite (backslash_is_syntax c Hc), Hc, IH.
    reflexivity.
Qed.

Lemma RegExp_new_escapeRegex compile q :
  RegExp_new compile (escapeRegex q) = Some (Lit q).
Proof. unfold RegExp_new. now rewrite parse_literal_escapeRegex. Qed.

Lemma run_Lit ic q : forall i rest c k,
  run ic (Lit q) i rest c k
  = if prefix_matches ic q rest
    then k (i + length q) (skipn (length q) rest) c
    else None.
Proof.
  induction q as [|a q' IH]; intros i rest c k.
  - simpl. now rewrite Nat.add_0_r.
  - cbn [Lit run]. destruct rest as [|x t]; [reflexivity|].
    cbn [prefix_matches length skipn].
    destruct (unit_matches ic a x); [|reflexivity].
    rewrite IH. cbn [andb].
    replace (S i + length q') with (i + S (length q')) by lia. reflexivity.
Qed.

Lemma match_at_Lit ic q i rest :
  match_at ic (Lit q) i rest
  = if prefix_matches ic q rest then Some (i + length q, []) else None.
Proof. unfold match_at. now rewrite run_Lit. Qed.

Lemma scan_from_Lit_none ic q : forall rest i,
  scan_from ic (Lit q) i rest = None <-> occurs_in ic q rest = false.
Proof.
  induction rest as [|x t IH]; intros i; cbn [scan_from occurs_in];
    rewrite match_at_Lit; destruct (prefix_matches ic q _); simpl;
    try (split; [discriminate | discriminate]); try tauto.
  apply IH.
Qed.

Lemma occurs_in_skipn ic q n : forall s,
  occurs_in ic q (skipn n s) = true -> occurs_in ic q s = true.
Proof.
  induction n as [|n IH]; intros [|x t] H; simpl in *; try assumption.
  apply IH in H. rewrite H. apply orb_true_r.
Qed.

(** One [test]: a hit means the line contains the query; a miss leaves
    [lastIndex] at 0; from [lastIndex] 0 the answer is exact. *)
Lemma test_searchRegex ic q R line :
  is_searchRegex ic q R ->
  is_searchRegex ic q (snd (test R line))
  /\ (fst (test R line) = true -> occurs_in ic q line = true)
  /\ (fst (test R line) = false -> lastIndex (snd (test R line)) = 0)
  /\ (lastIndex R = 0 -> fst (test R line) = occurs_in ic q line).
Proof.
  intros [Hs [Hg Hi]]. unfold test, exec. rewrite Hs, Hg, Hi.
  destruct (length line <? lastIndex R) eqn:Hlen.
  - simpl. repeat split; try assumption; try discriminate.
    intros H0. rewrite H0 in Hlen. discriminate.
  - destruct (scan_from ic (Lit q) (lastIndex R) (skipn (lastIndex R) line))
      as [[[b e] c]|] eqn:Hscan; simpl.
    + assert (Hocc : occurs_in ic q (skipn (lastIndex R) line) = true).
      { destruct (occurs_in ic q (skipn (lastIndex R) line)) eqn:E; [reflexivity|].
        apply scan_from_Lit_none with (i := lastIndex R) in E. congruence. }
      repeat split; try assumption; try discriminate.
      * intros _. eapply occurs_in_skipn. exact Hocc.
      * intros H0. rewrite H0 in Hocc. simpl in Hocc. now rewrite Hocc.
    + apply scan_from_Lit_none in Hscan.
      repeat split; try assumption; try discriminate.
      intros H0. rewrite H0 in Hscan. simpl in Hscan. now rewrite Hscan.
Qed.

Lemma search_lines_items filePath lim ls : forall i results R,
  search_lines filePath lim i ls results R
  = scan_items lim (numbered filePath i ls) results R.
Proof.
  induction ls as [|line rest IH]; intros i results R; simpl; [reflexivity|].
  destruct (test R line) as [found R']. destruct found.
  - destruct (_ >=? lim)%Z; [reflexivity | apply IH].
  - apply IH.
Qed.

Lemma matching_lines_items ic q filePath ls : forall i,
  matching_lines ic q filePath i ls = item_hits ic q (numbered filePath i ls).
Proof.
  induction ls as [|line rest IH]; intros i; simpl; [reflexivity|].
  now rewrite IH.
Qed.


Lemma scan_items_app lim a : forall b results R,
  scan_items lim (a ++ b) results R
  = match scan_items lim a results R with
    | Returned rs => Returned rs
    | Running rs R' => scan_items lim b rs R'
    end.
Proof.
  induction a as [|[[p i] line] rest IH]; intros b results R; simpl; [reflexivity|].
  destruct (test R line) as [found R']. destruct found.
  - destruct (_ >=? lim)%Z; [reflexivity | apply IH].
  - apply IH.
Qed.

Section SearchFacts.

Variable compile : jsstring -> option regex.

Lemma items_of_hits options q fs :
  item_hits (flag_i options) q (items_of compile options fs)
  = expected_hits compile options q fs.
Proof.
  unfold items_of, expected_hits, item_hits.
  induction fs as [|[path fc] rest IH]; simpl; [reflexivity|].
  rewrite flat_map_app. fold (item_hits (flag_i options) q).
  f_equal; [|exact IH].
  destruct (passes_filter compile options path); [|reflexivity].
  symmetry. apply matching_lines_items.
Qed.


(** When the loop over the files returns, it has made the one pass. *)
Lemma search_files_items options lim fs : forall results R rs,
  search_files compile options lim fs results R = Return rs ->
  rs = results_of (scan_items lim (items_of compile options fs) results R).
Proof.
  induction fs as [|[path fc] rest IH]; intros results R rs H.
  - simpl in H. injection H as <-. reflexivity.
  - cbn [search_files] in H. unfold items_of. cbn [flat_map fst snd].
    fold (items_of compile options rest).
    unfold passes_filter.
    destruct (truthy_filePattern options) as [src|].
    + destruct (RegExp_new compile src) as [p|]; [|discriminate].
      destruct (fst (test (mkRegExp p false false 0) path)).
      * rewrite scan_items_app. rewrite search_lines_items in H.
        destruct (scan_items lim (numbered path 0 (lines_of (content fc)))
                             results R) as [rs' R'|rs'].
        -- now apply IH.
        -- injection H as <-. reflexivity.
      * simpl. now apply IH.
    + rewrite scan_items_app. rewrite search_lines_items in H.
      destruct (scan_items lim (numbered path 0 (lines_of (content fc)))
                           results R) as [rs' R'|rs'].
      * now apply IH.
      * injection H as <-. reflexivity.
Qed.

End SearchFacts.

(** ** What one pass reports *)

Lemma subseq_nil_l (A : Type) (ys : list A) : subseq [] ys.
Proof. induction ys; constructor; assumption. Qed.

Lemma subseq_In (A : Type) (xs ys : list A) (x : A) :
  subseq xs ys -> In x xs -> In x ys.
Proof.
  induction 1; simpl; intros H0; tauto.
Qed.

(** The results pushed are results for matching lines, in the order of
    the pass. *)
Lemma scan_items_sound ic q lim items : forall results R,
  is_searchRegex ic q R ->
  exists extra,
    results_of (scan_items lim items results R) = results ++ extra
    /\ subseq extra (item_hits ic q items).
Proof.
  induction items as [|[[p i] line] rest IH]; intros results R HR; simpl.
  - exists []. split; [now rewrite app_nil_r | constructor].
  - destruct (test_searchRegex line HR) as [HR' [Hhit _]].
    destruct (test R line) as [found R']. simpl in HR', Hhit.
    destruct found.
    + rewrite (Hhit eq_refl). cbn [app].
      destruct (_ >=? lim)%Z.
      * exists [hit p i line]. split; [reflexivity|].
        apply subseq_take. apply subseq_nil_l.
      * destruct (IH (results ++ [hit p i line]) R' HR') as [extra [He Hs]].
        exists (hit p i line :: extra). split.
        -- rewrite He. now rewrite <- app_assoc.
        -- now apply subseq_take.
    + destruct (IH results R' HR') as [extra [He Hs]].
      exists extra. split; [assumption|].
      destruct (occurs_in ic q line); cbn [app];
        [now apply subseq_skip | assumption].
Qed.

(** The cap: never more results than the limit, and never more than one
    when the limit is below one. *)
Lemma scan_items_cap lim items : forall results R,
  length results < Z.to_nat (Z.max 1 lim) ->
  length (results_of (scan_items lim items results R)) <= Z.to_nat (Z.max 1 lim)
  /\ forall rs R', scan_items lim items results R = Running rs R' ->
                   length rs < Z.to_nat (Z.max 1 lim).
Proof.
  induction items as [|[[p i] line] rest IH]; intros results R Hlen;
    cbn [scan_items].
  - cbn [results_of]. split; [lia|]. intros rs R' H. injection H as <- _. exact Hlen.
  - destruct (test R line) as [found R']. destruct found.
    + destruct (_ >=? lim)%Z eqn:Hge.
      * cbn [results_of]. rewrite length_app. cbn [length].
        split; [lia | discriminate].
      * apply IH. rewrite Z.geb_leb in Hge. apply Z.leb_gt in Hge.
        rewrite length_app in *. cbn [length] in *. lia.
    + now apply IH.
Qed.


Lemma matching_lines_In ic q filePath ls r : forall i,
  In r (matching_lines ic q filePath i ls) ->
  exists j line,
    nth_error ls j = Some line
    /\ occurs_in ic q line = true
    /\ r = hit filePath (i + j) line.
Proof.
  induction ls as [|l rest IH]; intros i H; simpl in H; [contradiction|].
  apply in_app_or in H. destruct H as [H|H].
  - destruct (occurs_in ic q l) eqn:E; [|contradiction].
    destruct H as [<-|[]]. exists 0, l. now rewrite Nat.add_0_r.
  - destruct (IH _ H) as [j [line [Hn [Ho Hr]]]].
    exists (S j), line. repeat split; try assumption.
    rewrite Hr. f_equal. lia.
Qed.

Section SearchTheorems.

Variable compile : jsstring -> option regex.

Lemma search_files_returns options lim fs : forall results R,
  filePattern_compiles compile options = true ->
  exists rs, search_files compile options lim fs results R = Return rs.
Proof.
  unfold filePattern_compiles.
  induction fs as [|[path fc] rest IH]; intros results R H; cbn [search_files].
  - eauto.
  - destruct (truthy_filePattern options) as [src|].
    + destruct (RegExp_new compile src) as [p|]; [|discriminate].
      destruct (fst (test _ path)); [|now apply IH].
      destruct (search_lines _ _ _ _ _ _); [now apply IH | eauto].
    + destruct (search_lines _ _ _ _ _ _); [now apply IH | eauto].
Qed.

Lemma expected_hits_In options q fs r :
  In r (expected_hits compile options q fs) ->
  exists path fileContent i line,
    In (path, fileContent) fs
    /\ passes_filter compile options path = true
    /\ nth_error (lines_of (content fileContent)) i = Some line
    /\ occurs_in (flag_i options) q line = true
    /\ r = mkSearchResult path (i + 1) (trim line) exact 10.
Proof.
  unfold expected_hits. intros H. apply in_flat_map in H.
  destruct H as [[path fc] [Hin H]]. simpl in H.
  destruct (passes_filter compile options path) eqn:Hp; [|contradiction].
  apply matching_lines_In in H. destruct H as [j [line [Hn [Ho Hr]]]].
  exists path, fc, j, line. repeat split; assumption.
Qed.

(** What [searchCode] does once the index is found. *)
Lemma searchCode_indexed st repoId query options index :
  getIndex st repoId = Some index ->
  searchCode compile st repoId query options
  = search_files compile options (effective_limit options) (files index) []
                 (mkRegExp (Lit query) true (flag_i options) 0).
Proof.
  unfold getIndex, searchCode. intros ->.
  now rewrite RegExp_new_escapeRegex.
Qed.

Lemma searchCode_cap st repoId query options rs :
  searchCode compile st repoId query options = Return rs ->
  length rs <= cap options.
Proof.
  unfold searchCode.
  destruct (JsMap.get repoId (indexStore st)) as [index|]; [|discriminate].
  rewrite RegExp_new_escapeRegex. intros H.
  apply search_files_items in H. subst rs.
  apply scan_items_cap. unfold cap. simpl. lia.
Qed.

End SearchTheorems.

(** C1 fails on the code.  The index holds [main.ts] with the two lines
    [add(1)] and [add(2)]; both contain the query [add], no file pattern is
    given and the cap is the default 50.  The claim says one result for
    each of the two lines; the search returns the result for line 1 only.
    The search pattern is one global RegExp whose [test] is called for
    every line: the match in line 1 leaves [lastIndex] at 3, and line 2 is
    searched from there on, where the query does not occur again. *)
Theorem searchCode_misses_the_line_after_a_match :
  getIndex (stores_with [("main.ts"%string, two_calls)]) (js "github:main:o/n")
  = Some (index_with [("main.ts"%string, two_calls)])
  /\ expected_hits (fun _ => None) no_options (js "add")
                   (files (index_with [("main.ts"%string, two_calls)]))
     = [ hit (js "main.ts") 0 (js "add(1)"); hit (js "main.ts") 1 (js "add(2)") ]
  /\ cap no_options = 50
  /\ searchCode (fun _ => None) (stores_with [("main.ts"%string, two_calls)])
                (js "github:main:o/n") (js "add") no_options
     = Return [ hit (js "main.ts") 0 (js "add(1)") ]
  /\ lastIndex (snd (test (mkRegExp (Lit (js "add")) true true 0) (js "add(1)")))
     = 3
  /\ fst (test (mkRegExp (Lit (js "add")) true true 3) (js "add(2)")) = false
  /\ fst (test (mkRegExp (Lit (js "add")) true true 0) (js "add(2)")) = true
  /\ ~ every_matching_line_reported.
Proof.
  do 7 (split; [vm_compute; reflexivity|]).
  intros H.
  specialize (H (fun _ => None) (stores_with [("main.ts"%string, two_calls)])
                (js "github:main:o/n") (js "add") no_options
                (index_with [("main.ts"%string, two_calls)]) eq_refl eq_refl).
  vm_compute in H. discriminate H.
Qed.

(** The same on a longer text: lines 2 and 6 contain the query and are
    not reported. *)
Example searchCode_after_a_reported_line :
  searchCode (fun _ => None)
             (stores_with
                [("main.ts"%string,
                  unlines ["  return add(1, 2);"; "add(3);"; "x"; "ADD";
                           "add add"; "add"]%string)])
             (js "github:main:o/n") (js "add") no_options
  = Return [ hit (js "main.ts") 0 (js "  return add(1, 2);");
             hit (js "main.ts") 3 (js "ADD");
             hit (js "main.ts") 4 (js "add add") ].
Proof. vm_compute. reflexivity. Qed.

(* ================================================================== *)
(** * Properties of the handlers *)
(* ================================================================== *)

Section HandlerFacts.

Variable compile : jsstring -> option regex.

Lemma search_repositories_cap st query options repositories :
  forall allResults all,
    search_repositories compile st query options repositories allResults
    = Return all ->
    length all <= length allResults + cap options * length repositories.
Proof.
  induction repositories as [|repo rest IH]; intros acc all H; simpl in H.
  - injection H as <-. simpl. lia.
  - destruct (not_ready st (repoId_of repo)).
    + apply IH in H. simpl. lia.
    + destruct (searchCode compile st (repoId_of repo) query options)
        as [results|e] eqn:Hs; [|discriminate].
      apply searchCode_cap in Hs. apply IH in H.
      rewrite length_app, length_map in H. simpl. lia.
Qed.

(** A repository that is not registered or not ready is passed over. *)
Lemma search_repositories_skips st query options repositories :
  forall allResults,
    search_repositories compile st query options repositories allResults
    = search_repositories compile st query options
        (filter (fun repo => negb (not_ready st (repoId_of repo))) repositories)
        allResults.
Proof.
  induction repositories as [|repo rest IH]; intros acc; simpl; [reflexivity|].
  destruct (not_ready st (repoId_of repo)) eqn:Hn; simpl.
  - apply IH.
  - rewrite Hn. destruct (searchCode compile st (repoId_of repo) query options);
      [apply IH | reflexivity].
Qed.

Lemma query_keywords_cap st repoId keywords :
  forall allResults all,
    query_keywords compile st repoId keywords allResults = Return all ->
    length all <= length allResults + 10 * length keywords.
Proof.
  induction keywords as [|keyword rest IH]; intros acc all H; simpl in H.
  - injection H as <-. simpl. lia.
  - destruct (searchCode compile st repoId keyword _) as [results|e] eqn:Hs;
      [|discriminate].
    apply searchCode_cap in Hs. apply IH in H.
    rewrite length_app, length_map in H.
    change (cap (mkSearchOptions None None (Some 10%Z))) with 10 in Hs.
    simpl. lia.
Qed.

Lemma query_repositories_cap st keywords repositories :
  forall allResults all,
    query_repositories compile st keywords repositories allResults = Return all ->
    length all
    <= length allResults + 10 * length keywords * length repositories.
Proof.
  induction repositories as [|repo rest IH]; intros acc all H; simpl in H.
  - injection H as <-. simpl. lia.
  - destruct (not_ready st (repoId_of repo)).
    + apply IH in H. simpl. lia.
    + destruct (query_keywords compile st (repoId_of repo) keywords acc)
        as [acc'|e] eqn:Hk; [|discriminate].
      apply query_keywords_cap in Hk. apply IH in H. simpl. lia.
Qed.

End HandlerFacts.

Lemma extractKeywords_length query : length (extractKeywords query) <= 10.
Proof. unfold extractKeywords. apply firstn_le_length. Qed.

(** C3, as stated, fails: [limit: 0] is replaced by the default 50, and
    the search returns a result. *)
Lemma capped_by_every_limit_fails : ~ capped_by_every_limit.
Proof.
  intros H.
  specialize (H (fun _ => None) (stores_with [("main.ts"%string, add_source)])
                (js "github:main:o/n") (js "add") None None 0%Z
                [hit (js "main.ts") 0 add_source] eq_refl).
  simpl in H. lia.
Qed.

(** C3, amended. For every search with a limit [L] of at least 1,
    [searchCode] returns at most [L] results.  The schema of the boundary
    accepts the limits from 1 to 100 and no other (20 when none is given),
    so a search issued through it returns at most 100 results, and the
    answer of the search handler, which puts the results of its
    repositories one after the other, holds at most [L] for each
    repository.  A limit of 0 or no limit stands for 50, and under a
    negative limit one result is returned. *)
Theorem searchCode_capped
        (compile : jsstring -> option regex) (st : Stores)
        (repoId query : jsstring) (filePattern : option jsstring)
        (caseSensitive : option bool) (L : Z) (rs : list SearchResult) :
  (1 <= L)%Z ->
  searchCode compile st repoId query
             (mkSearchOptions filePattern caseSensitive (Some L)) = Return rs ->
  (Z.of_nat (length rs) <= L)%Z
  /\ (forall given, SearchCodeInputSchema_limit given = Some L ->
                    (Z.of_nat (length rs) <= MAX_LIMIT)%Z)
  /\ (forall given, (MAX_LIMIT < given)%Z ->
                    SearchCodeInputSchema_limit (Some given) = None)
  /\ (forall repositories case_sensitive all,
        git_search_code compile st query repositories filePattern
                        case_sensitive L = Content all ->
        (Z.of_nat (length all) <= L * Z.of_nat (length repositories))%Z)
  /\ (forall o rs', (limit o = None \/ limit o = Some 0%Z) ->
        searchCode compile st repoId query o = Return rs' -> length rs' <= 50)
  /\ (forall o l rs', limit o = Some l -> (l < 0)%Z ->
        searchCode compile st repoId query o = Return rs' -> length rs' <= 1).
Proof.
  intros HL Hrun.
  assert (Hcap : forall cs, cap (mkSearchOptions filePattern cs (Some L)) = Z.to_nat L).
  { intros cs. unfold cap, effective_limit. simpl.
    destruct L; lia. }
  assert (Hlen : (Z.of_nat (length rs) <= L)%Z).
  { apply searchCode_cap in Hrun. rewrite Hcap in Hrun. lia. }
  split; [exact Hlen|]. split; [|split; [|split; [|split]]].
  - intros given Hg. unfold SearchCodeInputSchema_limit in Hg.
    destruct given as [l|].
    + destruct ((1 <=? l)%Z && (l <=? MAX_LIMIT)%Z) eqn:E; [|discriminate].
      injection Hg as ->. apply andb_true_iff in E. destruct E as [_ E].
      apply Z.leb_le in E. lia.
    + injection Hg as <-. unfold DEFAULT_LIMIT, MAX_LIMIT in *. lia.
  - intros given Hg. unfold SearchCodeInputSchema_limit.
    destruct (1 <=? given)%Z; simpl; [|reflexivity].
    destruct (given <=? MAX_LIMIT)%Z eqn:E; [|reflexivity].
    apply Z.leb_le in E. lia.
  - intros repositories cs all H. unfold git_search_code in H.
    destruct (search_repositories _ _ _ _ _ _) as [all'|e] eqn:Hs; [|discriminate].
    injection H as <-. apply search_repositories_cap in Hs.
    rewrite Hcap in Hs. simpl in Hs. nia.
  - intros o rs' Ho H. apply searchCode_cap in H.
    unfold cap, effective_limit in H.
    destruct Ho as [Ho|Ho]; rewrite Ho in H; simpl in H; lia.
  - intros o l rs' Ho Hl H. apply searchCode_cap in H.
    unfold cap, effective_limit in H. rewrite Ho in H.
    destruct l; lia.
Qed.

Lemma searchCode_capped_witness :
  (Z.of_nat (length [hit (js "main.ts") 0 (js "add(1)")]) <= 1)%Z.
Proof.
  exact (proj1
    (@searchCode_capped
       (fun _ => None)
       (stores_with [("main.ts"%string,
                      unlines ["add(1)"; "x"; "  Add(2)"]%string)])
       (js "github:main:o/n") (js "add") None None 1%Z
       [hit (js "main.ts") 0 (js "add(1)")]
       ltac:(lia) eq_refl)).
Defined.

(** C5, as stated, fails at the search tool: searching a repository that
    was registered but never indexed is answered with an empty list of
    results and no error. *)
Lemma missing_index_is_reported_fails : ~ missing_index_is_reported.
Proof.
  intros H.
  destruct (H (fun _ => None) sample_stores (js "add") [sample_ref] sample_ref
              None false 20%Z (or_introl eq_refl) eq_refl)
    as [prefix [e He]].
  vm_compute in He. discriminate He.
Qed.

(** C5, amended. [searchCode] on a repository whose index does not exist
    throws the error [Repository <id> not indexed] and returns no results.
    The handler of the search tool calls [searchCode] only for the
    repositories whose status is ready and passes over the others: when
    none of the repositories it is given is ready its answer is the empty
    list of results, without error; the error reaches the caller of the
    tool, as an [isError] answer, only for a repository that is marked
    ready and has no index. *)
Theorem search_without_index
        (compile : jsstring -> option regex) (st : Stores)
        (repoId query : jsstring) (options : SearchOptions) :
  getIndex st repoId = None ->
  searchCode compile st repoId query options
  = Throw (Error (js "Repository " ++ repoId ++ js " not indexed"))
  /\ (forall repositories file_pattern case_sensitive limit,
        git_search_code compile st query repositories file_pattern
                        case_sensitive limit
        = git_search_code compile st query
            (filter (fun repo => negb (not_ready st (repoId_of repo)))
                    repositories)
            file_pattern case_sensitive limit)
  /\ (forall repositories file_pattern case_sensitive limit,
        (forall repo, In repo repositories ->
                      not_ready st (repoId_of repo) = true) ->
        git_search_code compile st query repositories file_pattern
                        case_sensitive limit
        = Content [])
  /\ (forall repo rest file_pattern case_sensitive limit,
        repoId_of repo = repoId ->
        not_ready st repoId = false ->
        git_search_code compile st query (repo :: rest) file_pattern
                        case_sensitive limit
        = IsError (js "Error searching code: ")
                  (Error (js "Repository " ++ repoId ++ js " not indexed"))).
Proof.
  intros Hnone.
  assert (Hthrow : forall o,
            searchCode compile st repoId query o
            = Throw (Error (js "Repository " ++ repoId ++ js " not indexed"))).
  { intros o. unfold searchCode. unfold getIndex in Hnone. now rewrite Hnone. }
  split; [apply Hthrow|]. split; [|split].
  - intros repositories fp cs lim. unfold git_search_code.
    now rewrite search_repositories_skips.
  - intros repositories fp cs lim Hall. unfold git_search_code.
    rewrite search_repositories_skips.
    replace (filter _ repositories) with (@nil RepositoryRef); [reflexivity|].
    symmetry. induction repositories as [|repo rest IH]; [reflexivity|].
    simpl. rewrite (Hall repo (or_introl eq_refl)). simpl.
    apply IH. intros r Hr. apply Hall. now right.
  - intros repo rest fp cs lim Hid Hready. unfold git_search_code.
    cbn [search_repositories]. rewrite Hid, Hready, Hthrow. reflexivity.
Qed.

Lemma search_without_index_witness :
  searchCode (fun _ => None) sample_stores (js "github:main:o/n") (js "add")
             no_options
  = Throw (Error (js "Repository github:main:o/n not indexed")).
Proof.
  exact (proj1
    (@search_without_index (fun _ => None) sample_stores
       (js "github:main:o/n") (js "add") no_options eq_refl)).
Defined.

(** C10. In the natural-language query, every search for a keyword in a
    repository is [searchCode] with [{ limit: 10 }] and returns at most
    10 results, which are all that enter the accumulated list for that
    keyword and repository; so the list holds, before deduplication, at
    most 10 entries for each keyword and repository, at most 100 for each
    repository. *)
Theorem query_searches_capped_at_10
        (compile : jsstring -> option regex) (st : Stores)
        (query : jsstring) (repositories : list RepositoryRef)
        (allResults : list QueryHit) :
  query_repositories compile st (extractKeywords query) repositories []
  = Return allResults ->
  length allResults
  <= 10 * length (extractKeywords query) * length repositories
  /\ length allResults <= 100 * length repositories
  /\ (forall repoId keyword results,
        searchCode compile st repoId keyword
                   (mkSearchOptions None None (Some 10%Z)) = Return results ->
        length results <= 10)
  /\ (forall repoId keyword rest acc all,
        query_keywords compile st repoId (keyword :: rest) acc = Return all ->
        exists results,
          searchCode compile st repoId keyword
                     (mkSearchOptions None None (Some 10%Z)) = Return results
          /\ length results <= 10
          /\ query_keywords compile st repoId rest
               (acc ++ map (fun r => mkQueryHit repoId (sr_file r) (sr_line r)
                                                (sr_content r))
                           results)
             = Return all).
Proof.
  intros H. apply query_repositories_cap in H. simpl in H.
  pose proof (extractKeywords_length query) as Hk.
  assert (Hten : forall repoId keyword results,
            searchCode compile st repoId keyword
                       (mkSearchOptions None None (Some 10%Z)) = Return results ->
            length results <= 10).
  { intros repoId keyword results Hs. apply searchCode_cap in Hs. exact Hs. }
  split; [exact H|]. split; [nia|]. split; [exact Hten|].
  intros repoId keyword rest acc all Hq. cbn [query_keywords] in Hq.
  destruct (searchCode compile st repoId keyword _) as [results|e] eqn:Hs;
    [|discriminate].
  exists results. repeat split; [eapply Hten; eassumption | exact Hq].
Qed.

Lemma query_searches_capped_at_10_witness :
  length [mkQueryHit (js "github:main:o/n") (js "main.ts") 1 add_source]
  <= 10 * length (extractKeywords (js "How does add work?")) * 1.
Proof.
  exact (proj1
    (@query_searches_capped_at_10
       (fun _ => None) (stores_with [("main.ts"%string, add_source)])
       (js "How does add work?") [sample_ref]
       [mkQueryHit (js "github:main:o/n") (js "main.ts") 1 add_source]
       eq_refl)).
Defined.

(* ================================================================== *)
(** * Properties of the keyword query *)
(* ================================================================== *)

Lemma lowered_word_unit c :
  is_word (lower c) = true -> is_keyword_unit (lower c) = true.
Proof.
  destruct c as [[] [] [] [] [] [] [] []]; vm_compute; intros H;
    first [reflexivity | discriminate H].
Qed.

(** A field of [split_ws] is made of units of the text that are not
    whitespace. *)
Lemma split_ws_from_units s : forall in_run field c,
  In field (split_ws_from in_run s) -> In c field ->
  In c s /\ is_space c = false.
Proof.
  induction s as [|x t IH]; intros in_run field c Hf Hc; simpl in Hf.
  - destruct Hf as [<-|[]]. contradiction.
  - destruct (is_space x) eqn:Hx.
    + destruct in_run.
      * destruct (IH _ _ _ Hf Hc). split; [now right | assumption].
      * destruct Hf as [<-|Hf]; [contradiction|].
        destruct (IH _ _ _ Hf Hc). split; [now right | assumption].
    + destruct (split_ws_from false t) as [|f fs] eqn:Ht.
      * destruct Hf as [<-|[]]. destruct Hc as [<-|[]].
        split; [now left | assumption].
      * destruct Hf as [<-|Hf].
        -- destruct Hc as [<-|Hc]; [split; [now left | assumption]|].
           destruct (IH false f c) as [H1 H2];
             [rewrite Ht; now left | assumption |].
           split; [now right | assumption].
        -- destruct (IH false field c) as [H1 H2];
             [rewrite Ht; now right | assumption |].
           split; [now right | assumption].
Qed.

Lemma In_firstn (A : Type) (x : A) n : forall l, In x (firstn n l) -> In x l.
Proof.
  induction n as [|n IH]; intros [|y l] H; simpl in H; try contradiction.
  destruct H as [->|H]; [now left | right; now apply IH].
Qed.

Lemma keyword_units query k c :
  In k (extractKeywords query) -> In c k -> is_keyword_unit c = true.
Proof.
  unfold extractKeywords. intros Hk Hc.
  apply In_firstn in Hk. apply filter_In in Hk. destruct Hk as [Hk _].
  destruct (split_ws_from_units _ _ _ _ Hk Hc) as [Hin Hsp].
  unfold strip_punctuation, toLowerCase in Hin. rewrite map_map in Hin.
  apply in_map_iff in Hin. destruct Hin as [c0 [Hc0 _]].
  destruct (is_word (lower c0) || is_space (lower c0)) eqn:E.
  - subst c. rewrite Hsp, orb_false_r in E. now apply lowered_word_unit.
  - subst c. vm_compute in Hsp. discriminate.
Qed.

Lemma keyword_significant query k :
  In k (extractKeywords query) -> 2 < length k /\ ~ In k stopWords.
Proof.
  unfold extractKeywords. intros Hk.
  apply In_firstn in Hk. apply filter_In in Hk. destruct Hk as [_ Hk].
  unfold significant in Hk. apply andb_true_iff in Hk. destruct Hk as [Hlen Hstop].
  split; [now apply Nat.ltb_lt in Hlen|].
  intros Hin. apply negb_true_iff in Hstop.
  assert (existsb (jsstring_eqb k) stopWords = true); [|congruence].
  apply existsb_exists. exists k. split; [assumption | apply jsstring_eqb_refl].
Qed.

(** ** Deduplication *)

Lemma decimal_inj a b : decimal a = decimal b -> a = b.
Proof.
  unfold decimal. intros H.
  apply (f_equal string_of_list_ascii) in H.
  rewrite !string_of_list_ascii_of_string in H.
  apply (f_equal NilEmpty.uint_of_string) in H.
  rewrite !NilEmpty.usu in H. injection H as H.
  now apply Unsigned.to_uint_inj.
Qed.

Lemma digits_no_colon d :
  ~ In ":"%char (list_ascii_of_string (NilEmpty.string_of_uint d)).
Proof.
  induction d; simpl; intros H; try contradiction;
    destruct H as [H|H]; try discriminate; auto.
Qed.

Lemma decimal_no_colon n : ~ In ":"%char (decimal n).
Proof. apply digits_no_colon. Qed.

(** Within one repository the key tells the file and the line. *)
Lemma dedup_key_same_repository a b :
  q_repoId a = q_repoId b ->
  dedup_key a = dedup_key b ->
  q_file a = q_file b /\ q_line a = q_line b.
Proof.
  unfold dedup_key. intros Hrepo H. rewrite Hrepo in H.
  apply app_inv_head in H. simpl in H. injection H as H.
  apply (f_equal (@rev ascii)) in H.
  rewrite !rev_app_distr in H. simpl in H. rewrite <- !app_assoc in H.
  simpl in H.
  apply split_at_first_separator in H.
  - destruct H as [Hd Hf].
    apply (f_equal (@rev ascii)) in Hd, Hf. rewrite !rev_involutive in Hd, Hf.
    split; [assumption | now apply decimal_inj].
  - rewrite <- In_rev. apply decimal_no_colon.
  - rewrite <- In_rev. apply decimal_no_colon.
Qed.

Lemma same_place_same_key h x : same_place h x = true -> same_key h x = true.
Proof.
  unfold same_place, same_key. intros H.
  apply andb_true_iff in H. destruct H as [H Hl].
  apply andb_true_iff in H. destruct H as [Hr Hf].
  apply jsstring_eqb_eq in Hr, Hf. apply Nat.eqb_eq in Hl.
  apply jsstring_eqb_eq. unfold dedup_key. now rewrite Hr, Hf, Hl.
Qed.

Lemma same_key_same_place h x :
  q_repoId x = q_repoId h -> same_key h x = true -> same_place h x = true.
Proof.
  unfold same_place, same_key. intros Hr Hk. apply jsstring_eqb_eq in Hk.
  destruct (dedup_key_same_repository x h Hr Hk) as [Hf Hl].
  rewrite Hr, Hf, Hl, !jsstring_eqb_refl, Nat.eqb_refl. reflexivity.
Qed.

Lemma dedup_from_subseq results : forall seen,
  subseq (dedup_from seen results) results.
Proof.
  induction results as [|r rest IH]; intros seen; simpl; [constructor|].
  destruct (existsb _ seen); [apply subseq_skip | apply subseq_take]; apply IH.
Qed.

Lemma dedup_from_fresh results : forall seen x,
  In x (dedup_from seen results) ->
  existsb (jsstring_eqb (dedup_key x)) seen = false.
Proof.
  induction results as [|r rest IH]; intros seen x H; simpl in H; [contradiction|].
  destruct (existsb (jsstring_eqb (dedup_key r)) seen) eqn:E.
  - now apply IH.
  - destruct H as [<-|H]; [assumption|].
    apply IH in H. simpl in H. now apply orb_false_iff in H.
Qed.

Lemma dedup_from_NoDup results : forall seen,
  NoDup (map dedup_key (dedup_from seen results)).
Proof.
  induction results as [|r rest IH]; intros seen; simpl; [constructor|].
  destruct (existsb (jsstring_eqb (dedup_key r)) seen) eqn:E; [apply IH|].
  simpl. constructor; [|apply IH].
  intros Hin. apply in_map_iff in Hin. destruct Hin as [x [Hk Hx]].
  apply dedup_from_fresh in Hx. simpl in Hx. apply orb_false_iff in Hx.
  destruct Hx as [Hx _]. rewrite Hk, jsstring_eqb_refl in Hx. discriminate.
Qed.

(** The entry kept for a key is the first entry of the list with that
    key, and it is the only one kept. *)
Lemma dedup_from_first h results : forall seen,
  existsb (jsstring_eqb (dedup_key h)) seen = false ->
  find (same_key h) (dedup_from seen results) = find (same_key h) results
  /\ count (same_key h) (dedup_from seen results)
     = if existsb (same_key h) results then 1 else 0.
Proof.
  assert (Hseen : forall results seen,
            existsb (jsstring_eqb (dedup_key h)) seen = true ->
            count (same_key h) (dedup_from seen results) = 0).
  { intros rs seen Hs. unfold count.
    destruct (filter (same_key h) (dedup_from seen rs)) as [|x xs] eqn:E;
      [reflexivity|].
    assert (Hx : In x (filter (same_key h) (dedup_from seen rs)))
      by (rewrite E; now left).
    apply filter_In in Hx. destruct Hx as [Hx Hk].
    apply dedup_from_fresh in Hx. unfold same_key in Hk.
    apply jsstring_eqb_eq in Hk. rewrite Hk in Hx. congruence. }
  induction results as [|r rest IH]; intros seen Hs; simpl; [now split|].
  destruct (existsb (jsstring_eqb (dedup_key r)) seen) eqn:E.
  - assert (Hr : same_key h r = false).
    { unfold same_key. destruct (jsstring_eqb (dedup_key r) (dedup_key h)) eqn:Ek;
        [|reflexivity].
      apply jsstring_eqb_eq in Ek. rewrite Ek in E. congruence. }
    rewrite Hr. simpl. now apply IH.
  - unfold count in *. simpl. destruct (same_key h r) eqn:Hr; simpl.
    + split; [reflexivity|]. f_equal. apply Hseen. simpl.
      unfold same_key in Hr. apply jsstring_eqb_eq in Hr.
      now rewrite Hr, jsstring_eqb_refl.
    + apply IH. simpl. rewrite Hs, orb_false_r.
      unfold same_key in Hr.
      destruct (jsstring_eqb (dedup_key h) (dedup_key r)) eqn:Ek; [|reflexivity].
      apply jsstring_eqb_eq in Ek. rewrite Ek, jsstring_eqb_refl in Hr.
      discriminate.
Qed.

Lemma find_filter (A : Type) (p : A -> bool) (l : list A) :
  find p l = hd_error (filter p l).
Proof.
  induction l as [|x t IH]; simpl; [reflexivity|].
  destruct (p x); [reflexivity | exact IH].
Qed.

Lemma filter_implied (A : Type) (p q : A -> bool) (l : list A) :
  (forall x, q x = true -> p x = true) ->
  filter q (filter p l) = filter q l.
Proof.
  intros Himp. induction l as [|x t IH]; simpl; [reflexivity|].
  destruct (p x) eqn:Hp; simpl.
  - now rewrite IH.
  - destruct (q x) eqn:Hq; [|exact IH].
    rewrite (Himp x Hq) in Hp. discriminate.
Qed.

(** After deduplication the results at the place of [h] are the first
    result with the key of [h], if that one is at the place of [h], and
    none otherwise. *)
Lemma dedup_same_place h results f :
  find (same_key h) results = Some f ->
  count (same_place h) (deduplicateResults results)
  = if same_place h f then 1 else 0.
Proof.
  intros Hf. unfold deduplicateResults.
  destruct (dedup_from_first h results [] eq_refl) as [Hfind Hcount].
  assert (Hex : existsb (same_key h) results = true).
  { apply find_some in Hf. apply existsb_exists. now exists f. }
  rewrite Hex in Hcount. rewrite Hf, find_filter in Hfind.
  unfold count in *.
  rewrite <- (@filter_implied _ (same_key h) (same_place h));
    [|intros x; apply same_place_same_key].
  destruct (filter (same_key h) (dedup_from [] results)) as [|y [|z t]];
    try discriminate.
  simpl in Hfind. injection Hfind as ->. simpl.
  now destruct (same_place h f).
Qed.

(** C9, as stated, fails: the key is the text made of the repository
    key, the path and the line number, and the results [first_hit] and
    [second_hit], of different files of different repositories, have the
    same key.  Deduplication keeps the first and drops the second, whose
    line is then not among the results at all. *)
Lemma each_place_kept_once_fails : ~ each_place_kept_once.
Proof.
  intros H.
  specialize (H [first_hit; second_hit] second_hit (or_intror (or_introl eq_refl))).
  vm_compute in H. discriminate H.
Qed.

(** The query handler comes to those two results, and answers with the
    first alone. *)
Example colliding_keys_in_the_handler :
  repoId_of sample_ref = js "github:main:o/n"
  /\ repoId_of second_ref = js "github:main:o/n:src"
  /\ dedup_key first_hit = dedup_key second_hit
  /\ query_repositories (fun _ => None) colliding_stores
                        (extractKeywords (js "add")) [sample_ref; second_ref] []
     = Return [first_hit; second_hit]
  /\ git_query_codebase (fun _ => None) colliding_stores (js "add")
                        [sample_ref; second_ref]
     = Content [first_hit].
Proof. do 4 (split; [vm_compute; reflexivity|]). vm_compute. reflexivity. Qed.

(** C9, amended. Keyword extraction lower-cases the query, replaces
    punctuation by spaces, splits on whitespace, keeps the tokens longer
    than two units that are no stop word, and keeps at most the first ten;
    so a keyword is made of lower-case letters, digits and underscores
    only.  The query [How does add work?] gives exactly [add] and [work].
    Deduplication is keyed by the text made of the repository key, the
    file path and the line number: it keeps a part of the list, in order,
    in which no key occurs twice, and for every entry of the list the entry
    kept for its key is the first of the list with that key and the only
    one kept.  So the line of an entry appears once when the first entry
    with its key is an entry for that line, and not at all otherwise; it
    appears once whenever the entries with its key are all entries for
    that line, as they are when the entries are of one repository.  On the
    index of scenario A the query returns the line of [main.ts] once, and
    a line that both keywords match is returned once. *)
Theorem keywords_and_deduplication :
  (forall query,
      extractKeywords query
      = firstn 10 (filter significant
                          (split_ws (strip_punctuation (toLowerCase query))))
      /\ length (extractKeywords query) <= 10
      /\ Forall (fun k => 2 < length k
                          /\ ~ In k stopWords
                          /\ Forall (fun c => is_keyword_unit c = true) k)
                (extractKeywords query))
  /\ extractKeywords (js "How does add work?") = [js "add"; js "work"]
  /\ (forall results,
        subseq (deduplicateResults results) results
        /\ NoDup (map dedup_key (deduplicateResults results))
        /\ forall h, In h results ->
             find (same_key h) (deduplicateResults results)
             = find (same_key h) results
             /\ count (same_key h) (deduplicateResults results) = 1
             /\ (exists f,
                   find (same_key h) results = Some f
                   /\ count (same_place h) (deduplicateResults results)
                      = if same_place h f then 1 else 0)
             /\ ((forall x, In x results -> same_key h x = true ->
                            same_place h x = true) ->
                 count (same_place h) (deduplicateResults results) = 1)
             /\ ((forall x, In x results -> q_repoId x = q_repoId h) ->
                 count (same_place h) (deduplicateResults results) = 1))
  /\ git_query_codebase (fun _ => None)
                        (stores_with [("main.ts"%string, add_source)])
                        (js "How does add work?") [sample_ref]
     = Content [mkQueryHit (js "github:main:o/n") (js "main.ts") 1 add_source]
  /\ (query_repositories (fun _ => None)
                         (stores_with [("main.ts"%string, commented_source)])
                         (extractKeywords (js "How does add work?"))
                         [sample_ref] []
      = Return [ mkQueryHit (js "github:main:o/n") (js "main.ts") 1
                            (js "// how add does its work");
                 mkQueryHit (js "github:main:o/n") (js "main.ts") 2 add_source;
                 mkQueryHit (js "github:main:o/n") (js "main.ts") 1
                            (js "// how add does its work") ]
      /\ git_query_codebase (fun _ => None)
                            (stores_with [("main.ts"%string, commented_source)])
                            (js "How does add work?") [sample_ref]
         = Content [ mkQueryHit (js "github:main:o/n") (js "main.ts") 1
                                (js "// how add does its work");
                     mkQueryHit (js "github:main:o/n") (js "main.ts") 2
                                add_source ]).
Proof.
  split; [|split; [|split; [|split; [|split]]]].
  - intros query. split; [reflexivity|]. split; [apply extractKeywords_length|].
    apply Forall_forall. intros k Hk.
    destruct (keyword_significant query k Hk) as [Hlen Hstop].
    repeat split; try assumption.
    apply Forall_forall. intros c Hc. eapply keyword_units; eassumption.
  - vm_compute. reflexivity.
  - intros results.
    split; [apply dedup_from_subseq|]. split; [apply dedup_from_NoDup|].
    intros h Hh.
    destruct (dedup_from_first h results [] eq_refl) as [Hfind Hcount].
    assert (Hex : existsb (same_key h) results = true).
    { apply existsb_exists. exists h. split; [assumption|].
      unfold same_key. apply jsstring_eqb_refl. }
    rewrite Hex in Hcount.
    destruct (find (same_key h) results) as [f|] eqn:Hf.
    2:{ exfalso. apply (find_none _ _ Hf) in Hh.
        unfold same_key in Hh. rewrite jsstring_eqb_refl in Hh. discriminate. }
    assert (Hgeneral : (forall x, In x results -> same_key h x = true ->
                                  same_place h x = true) ->
                       count (same_place h) (deduplicateResults results) = 1).
    { intros Hinj. rewrite (dedup_same_place h results Hf).
      destruct (find_some _ _ Hf) as [Hin Hk]. now rewrite (Hinj f Hin Hk). }
    split; [exact Hfind|]. split; [exact Hcount|].
    split; [exists f; split; [reflexivity | now apply dedup_same_place]|].
    split; [exact Hgeneral|].
    intros Hrepo. apply Hgeneral. intros x Hx Hk.
    now apply same_key_same_place; [apply Hrepo|].
  - vm_compute. reflexivity.
  - vm_compute. reflexivity.
  - vm_compute. reflexivity.
Qed.

(* ================================================================== *)
(** * The pattern matcher is sound *)
(* ================================================================== *)

Lemma firstn_add (A : Type) (a b : nat) (l : list A) :
  firstn (a + b) l = firstn a l ++ firstn b (skipn a l).
Proof.
  revert l. induction a as [|a IH]; intros [|x l]; simpl;
    try reflexivity.
  - now rewrite firstn_nil.
  - now rewrite IH.
Qed.

Lemma skipn_add (A : Type) (a b : nat) (l : list A) :
  skipn b (skipn a l) = skipn (a + b) l.
Proof. rewrite skipn_skipn. f_equal. lia. Qed.

Lemma recorded_incl ic r r' new :
  (forall n, incl (groups n r) (groups n r')) ->
  recorded ic r new -> recorded ic r' new.
Proof.
  intros Hi H. unfold recorded in *. rewrite Forall_forall in *.
  intros e He. destruct (H e He) as (body & Hb & Hl).
  exists body. split; [now apply (Hi (fst e))|assumption].
Qed.

Lemma recorded_app ic r a b :
  recorded ic r a -> recorded ic r b -> recorded ic r (a ++ b).
Proof. unfold recorded. intros. now apply Forall_app. Qed.

Section Soundness.

Variable ic : bool.

Lemma star_loop_sound greedy r1 k :
  sound_at ic r1 (lang ic r1) ->
  forall fuel i rest c res,
    star_loop ic greedy r1 k fuel i rest c = Some res ->
    exists n new,
      n <= length rest /\ star_of (lang ic r1) (firstn n rest)
      /\ recorded ic r1 new
      /\ k (i + n) (skipn n rest) (new ++ c) = Some res.
Proof.
  intros H1. induction fuel as [|f IHf]; intros i rest c res H.
  - simpl in H. exists 0, []. rewrite Nat.add_0_r. simpl.
    repeat split; [lia|constructor|constructor|assumption].
  - cbn [star_loop] in H.
    assert (Hstop : k i rest c = Some res ->
                    exists n new,
                      n <= length rest /\ star_of (lang ic r1) (firstn n rest)
                      /\ recorded ic r1 new
                      /\ k (i + n) (skipn n rest) (new ++ c) = Some res).
    { intros Hk. exists 0, []. rewrite Nat.add_0_r. simpl.
      repeat split; [lia|constructor|constructor|assumption]. }
    assert (Hagain :
              run ic r1 i rest c
                  (fun i' rest' c' =>
                     if i' =? i then None
                     else star_loop ic greedy r1 k f i' rest' c') = Some res ->
              exists n new,
                n <= length rest /\ star_of (lang ic r1) (firstn n rest)
                /\ recorded ic r1 new
                /\ k (i + n) (skipn n rest) (new ++ c) = Some res).
    { intros Hr. apply H1 in Hr. destruct Hr as (n1 & new1 & Hn1 & Hw1 & Hc1 & Hk).
      destruct (i + n1 =? i); [discriminate|].
      apply IHf in Hk. destruct Hk as (n2 & new2 & Hn2 & Hw2 & Hc2 & Hk).
      rewrite length_skipn in Hn2.
      exists (n1 + n2), (new2 ++ new1). repeat split.
      - lia.
      - rewrite firstn_add. now constructor.
      - now apply recorded_app.
      - rewrite <- skipn_add, Nat.add_assoc, <- app_assoc. exact Hk. }
    fold (star_loop ic greedy r1 k) in H.
    destruct greedy.
    + destruct (run ic r1 i rest c _) eqn:E.
      * injection H as <-. now apply Hagain.
      * now apply Hstop.
    + destruct (k i rest c) eqn:E.
      * injection H as <-. now apply Hstop.
      * now apply Hagain.
Qed.

(** The matcher is sound for the language of the pattern. *)
Lemma run_sound r : sound_at ic r (lang ic r).
Proof.
  induction r as [ |a|inv p| |r1 IH1 r2 IH2|r1 IH1 r2 IH2|r1 IH1|g r1 IH1|m r1 IH1];
    intros i rest c k res H.
  - simpl in H. exists 0, []. rewrite Nat.add_0_r.
    repeat split; [lia|constructor|assumption].
  - simpl in H. destruct rest as [|x t]; [discriminate|].
    destruct (unit_matches ic a x) eqn:E; [|discriminate].
    exists 1, []. rewrite Nat.add_1_r. simpl. repeat split.
    + lia.
    + now exists x.
    + constructor.
    + assumption.
  - simpl in H. destruct rest as [|x t]; [discriminate|].
    destruct (class_matches ic inv p x) eqn:E; [|discriminate].
    exists 1, []. rewrite Nat.add_1_r. simpl. repeat split.
    + lia.
    + now exists x.
    + constructor.
    + assumption.
  - simpl in H. destruct (i =? 0); [|discriminate].
    exists 0, []. rewrite Nat.add_0_r.
    repeat split; [lia|constructor|assumption].
  - simpl in H. apply IH1 in H. destruct H as (n1 & new1 & Hn1 & Hw1 & Hc1 & H).
    apply IH2 in H. destruct H as (n2 & new2 & Hn2 & Hw2 & Hc2 & H).
    rewrite length_skipn in Hn2.
    exists (n1 + n2), (new2 ++ new1). repeat split.
    + lia.
    + simpl. exists (firstn n1 rest), (firstn n2 (skipn n1 rest)).
      split; [apply firstn_add|now split].
    + apply recorded_app.
      * eapply recorded_incl; [|exact Hc2]. intros n. simpl. apply incl_appr, incl_refl.
      * eapply recorded_incl; [|exact Hc1]. intros n. simpl. apply incl_appl, incl_refl.
    + rewrite <- skipn_add, Nat.add_assoc, <- app_assoc. exact H.
  - simpl in H. destruct (run ic r1 i rest c k) eqn:E.
    + injection H as <-. apply IH1 in E.
      destruct E as (n & new & Hn & Hw & Hc & Hk).
      exists n, new. repeat split; try assumption.
      * simpl. now left.
      * eapply recorded_incl; [|exact Hc]. intros n'. simpl. apply incl_appl, incl_refl.
    + apply IH2 in H. destruct H as (n & new & Hn & Hw & Hc & Hk).
      exists n, new. repeat split; try assumption.
      * simpl. now right.
      * eapply recorded_incl; [|exact Hc]. intros n'. simpl. apply incl_appr, incl_refl.
  - simpl in H. destruct (run ic r1 i rest c _) eqn:E.
    + injection H as <-. apply IH1 in E.
      destruct E as (n & new & Hn & Hw & Hc & Hk).
      destruct (i + n =? i); [discriminate|].
      exists n, new. repeat split; try assumption. simpl. now right.
    + exists 0, []. rewrite Nat.add_0_r.
      repeat split; [lia|simpl; now left|constructor|assumption].
  - rewrite run_Star in H.
    apply (star_loop_sound _ _ IH1) in H. exact H.
  - simpl in H. apply IH1 in H. destruct H as (n & new & Hn & Hw & Hc & Hk).
    replace (i + n - i) with n in Hk by lia.
    exists n, ((m, firstn n rest) :: new). repeat split; try assumption.
    constructor.
    + exists r1. simpl. rewrite Nat.eqb_refl. split; [now left|assumption].
    + eapply recorded_incl; [|exact Hc]. intros n'. simpl. apply incl_appr, incl_refl.
Qed.

End Soundness.

(* ================================================================== *)
(** * What the patterns capture *)
(* ================================================================== *)

Lemma match_at_recorded ic r i rest e c :
  match_at ic r i rest = Some (e, c) -> recorded ic r c.
Proof.
  unfold match_at. intros H. apply run_sound in H.
  destruct H as (n & new & _ & _ & Hc & H). injection H as _ <-.
  now rewrite app_nil_r.
Qed.

Lemma scan_from_recorded ic r : forall rest i b e c,
  scan_from ic r i rest = Some (b, e, c) -> recorded ic r c.
Proof.
  induction rest as [|x t IH]; intros i b e c H; simpl in H.
  - destruct (match_at ic r i []) as [[e' c']|] eqn:E; [|discriminate].
    injection H as _ _ <-. eapply match_at_recorded; eassumption.
  - destruct (match_at ic r i (x :: t)) as [[e' c']|] eqn:E.
    + injection H as _ _ <-. eapply match_at_recorded; eassumption.
    + eapply IH; eassumption.
Qed.

Lemma capture_In n c v : capture n c = Some v -> In (n, v) c.
Proof.
  induction c as [|[k w] t IH]; simpl; [discriminate|].
  destruct (k =? n) eqn:E.
  - intros [= <-]. apply Nat.eqb_eq in E. subst. now left.
  - intros H. right. now apply IH.
Qed.

(** A capture of a match holds a word of a group with its number. *)
Lemma match_capture r s c n v :
  match_ r s = Some c -> capture n c = Some v ->
  exists body, In body (groups n r) /\ lang false body v.
Proof.
  unfold match_. intros Hm Hc.
  destruct (scan_from false r 0 s) as [[[b e] c']|] eqn:E; [|discriminate].
  injection Hm as ->. apply scan_from_recorded in E.
  apply capture_In in Hc. unfold recorded in E. rewrite Forall_forall in E.
  exact (E _ Hc).
Qed.

Lemma star_of_class inv p v :
  star_of (lang false (Class inv p)) v ->
  Forall (fun x => xorb inv (p x) = true) v.
Proof.
  induction 1 as [|u v Hu _ IH]; [constructor|].
  destruct Hu as (x & -> & Hx). simpl. constructor; assumption.
Qed.

(** [\w+] captures an identifier. *)
Lemma lang_name n : lang false (Plus true w_) n -> is_identifier n = true.
Proof.
  intros (u & v & -> & (x & -> & Hx) & Hv).
  apply star_of_class in Hv. simpl in Hx. unfold class_matches in Hx.
  simpl in *. rewrite Hx. simpl.
  apply forallb_forall. rewrite Forall_forall in Hv. exact Hv.
Qed.

(** A run of units other than [a] holds no [a]. *)
Lemma lang_not_unit a v :
  lang false (Star true (not_unit a)) v -> includes_char a v = false.
Proof.
  intros H. apply star_of_class in H. unfold includes_char.
  induction H as [|x v Hx _ IH]; [reflexivity|].
  simpl in *. rewrite IH, orb_false_r.
  rewrite Ascii.eqb_sym. now destruct (Ascii.eqb x a).
Qed.

Lemma truthy_group_capture n c v :
  truthy_group n c = Some v -> capture n c = Some v /\ v <> [].
Proof.
  unfold truthy_group. destruct (capture n c) as [[|x t]|]; try discriminate.
  intros [= <-]. split; [reflexivity|discriminate].
Qed.

Lemma first_capture_nonempty p line v : first_capture p line = Some v -> v <> [].
Proof.
  unfold first_capture. destruct (match_ p line); [|discriminate].
  intros H. now apply truthy_group_capture in H.
Qed.

(** The name and the parameter text of a declaration line. *)
Lemma declaration_in_captures l n params :
  declaration_in functionPatterns l = Some (n, params) ->
  is_identifier n = true /\ includes_char ")" params = false.
Proof.
  assert (Hp : forall p,
             In p functionPatterns ->
             (forall body, In body (groups 1 p) -> body = Plus true w_)
             /\ (forall body, In body (groups 2 p) ->
                              body = Star true (not_unit ")"))).
  { intros p Hp. simpl in Hp.
    destruct Hp as [<-|[<-|[<-|[<-|[]]]]]; split; intros body Hb; simpl in Hb;
      repeat (destruct Hb as [<-|Hb]; [reflexivity|]); destruct Hb. }
  revert Hp. generalize functionPatterns as ps.
  induction ps as [|p ps IH]; intros Hp H; simpl in H; [discriminate|].
  assert (Hps : forall q, In q ps ->
             (forall body, In body (groups 1 q) -> body = Plus true w_)
             /\ (forall body, In body (groups 2 q) ->
                              body = Star true (not_unit ")")))
    by (intros q Hq; apply Hp; now right).
  destruct (match_ p l) as [c|] eqn:Em; [|now apply IH].
  destruct (truthy_group 1 c) as [n'|] eqn:Et; [|now apply IH].
  injection H as <- <-.
  destruct (Hp p (or_introl eq_refl)) as [H1 H2].
  apply truthy_group_capture in Et. destruct Et as [Ec _].
  destruct (match_capture _ _ _ Em Ec) as (body & Hb & Hl).
  rewrite (H1 _ Hb) in Hl. split; [now apply lang_name|].
  unfold group_or_empty. destruct (capture 2 c) as [v|] eqn:E2; [|reflexivity].
  destruct (match_capture _ _ _ Em E2) as (body2 & Hb2 & Hl2).
  rewrite (H2 _ Hb2) in Hl2. now apply lang_not_unit.
Qed.

(* ================================================================== *)
(** * The records of the lexical extractor *)
(* ================================================================== *)

Section ExtractorRecords.

Variable filePath : jsstring.

Lemma close_at_end_open_record n st :
  close_at_end n st = out st ++ map (fun cur => with_endLine cur n) (open_record st).
Proof.
  unfold close_at_end, open_record.
  destruct (currentFunction st); [|now rewrite app_nil_r].
  destruct (inFunction st); [reflexivity|now rewrite app_nil_r].
Qed.

Lemma declaration_step_open_record i line st n params :
  declaration_in functionPatterns (trim line) = Some (n, params) ->
  out (declaration_step filePath i line st)
  = out st ++ map (fun cur => with_endLine cur i) (open_record st)
  /\ open_record (declaration_step filePath i line st)
     = [mkFunctionInfo n filePath (i + 1) (i + 1)
                       (n ++ js "(" ++ params ++ js ")") [] []].
Proof.
  intros H. unfold declaration_step. rewrite H. simpl. split; [|reflexivity].
  unfold open_record. destruct (currentFunction st); [|now rewrite app_nil_r].
  destruct (inFunction st); [reflexivity|now rewrite app_nil_r].
Qed.

Lemma declaration_step_none i line st :
  declaration_in functionPatterns (trim line) = None ->
  declaration_step filePath i line st = st.
Proof. intros H. unfold declaration_step. now rewrite H. Qed.

(** The brace tracker closes the open record or leaves everything. *)
Lemma brace_step_open_record i line st :
  (out (brace_step i line st) = out st
   /\ open_record (brace_step i line st) = open_record st)
  \/ (exists cur, open_record st = [cur]
                  /\ out (brace_step i line st) = out st ++ [with_endLine cur (i + 1)]
                  /\ open_record (brace_step i line st) = []).
Proof.
  unfold brace_step, open_record.
  destruct (inFunction st) eqn:Ein; [|left; now rewrite Ein].
  destruct (currentFunction st) as [cur|] eqn:Ecur; [|left; now rewrite Ein, Ecur].
  destruct ((_ <=? 0)%Z && includes_char "}" line).
  - right. exists cur. simpl. auto.
  - left. simpl. auto.
Qed.

Lemma map_opening_with_endLine n fs :
  map opening (map (fun cur => with_endLine cur n) fs) = map opening fs.
Proof. rewrite map_map. apply map_ext. reflexivity. Qed.

Lemma line_step_opening i line st :
  map opening (out (line_step filePath i line st)
               ++ open_record (line_step filePath i line st))
  = map opening (out st ++ open_record st)
    ++ map opened_by (declarations i [line]).
Proof.
  unfold line_step.
  assert (H1 : map opening (out (declaration_step filePath i line st)
                            ++ open_record (declaration_step filePath i line st))
               = map opening (out st ++ open_record st)
                 ++ map opened_by (declarations i [line])).
  { cbn [declarations]. rewrite app_nil_r.
    destruct (declaration_in functionPatterns (trim line))
      as [[n params]|] eqn:E.
    - destruct (declaration_step_open_record i line st E) as [-> ->].
      rewrite !map_app, map_opening_with_endLine. reflexivity.
    - rewrite (declaration_step_none i line st E). cbn [map].
      now rewrite app_nil_r. }
  rewrite <- H1.
  destruct (brace_step_open_record i line (declaration_step filePath i line st))
    as [[-> ->]|(cur & Hp & -> & ->)]; [reflexivity|].
  rewrite Hp, app_nil_r, !map_app. reflexivity.
Qed.

Lemma declarations_cons i line rest :
  declarations i (line :: rest) = declarations i [line] ++ declarations (S i) rest.
Proof. cbn [declarations]. now rewrite app_nil_r. Qed.

Lemma extract_loop_opening ls : forall i st,
  map opening (out (extract_loop filePath i ls st)
               ++ open_record (extract_loop filePath i ls st))
  = map opening (out st ++ open_record st) ++ map opened_by (declarations i ls).
Proof.
  induction ls as [|line rest IH]; intros i st.
  - simpl. now rewrite app_nil_r.
  - rewrite (declarations_cons i line rest). cbn [extract_loop].
    rewrite IH, line_step_opening, (map_app opened_by).
    symmetry. apply app_assoc.
Qed.

Lemma StronglySorted_snoc (A : Type) (R : A -> A -> Prop) xs x :
  StronglySorted R xs -> Forall (fun y => R y x) xs -> StronglySorted R (xs ++ [x]).
Proof.
  induction 1 as [|y ys Hs IH Hy]; intros Hx; simpl.
  - repeat constructor.
  - inversion Hx; subst. constructor; [now apply IH|].
    apply Forall_app. split; [assumption|now constructor].
Qed.

Lemma pending_current st cur :
  In cur (open_record st) -> currentFunction st = Some cur.
Proof.
  unfold open_record. destruct (currentFunction st); [|intros []].
  destruct (inFunction st); [|intros []]. intros [<-|[]]. reflexivity.
Qed.

Lemma declaration_step_sorted i line st :
  loop_invariant i st -> sorted_state st ->
  sorted_state (declaration_step filePath i line st).
Proof.
  intros [Hspan Hcur] [Hs Hp].
  destruct (declaration_in functionPatterns (trim line)) as [[n params]|] eqn:E;
    [|now rewrite declaration_step_none].
  destruct (declaration_step_open_record i line st E) as [Ho Hpe].
  unfold sorted_state. rewrite Ho, Hpe.
  destruct (open_record st) as [|cur [|]] eqn:Epend.
  - simpl. rewrite app_nil_r. split; [assumption|].
    intros c [<-|[]]. eapply Forall_impl; [|exact Hspan].
    intros f (_ & _ & Hf). unfold ends_before. simpl. lia.
  - simpl. split.
    + apply StronglySorted_snoc; [assumption|].
      eapply Forall_impl; [|apply (Hp cur); now left].
      intros f Hf. exact Hf.
    + intros c [<-|[]]. apply Forall_app. split.
      * eapply Forall_impl; [|exact Hspan].
        intros f (_ & _ & Hf). unfold ends_before. simpl. lia.
      * constructor; [|constructor]. unfold ends_before. simpl. lia.
  - exfalso. unfold open_record in Epend.
    destruct (currentFunction st); [|discriminate].
    destruct (inFunction st); discriminate.
Qed.

Lemma brace_step_sorted i line st :
  sorted_state st -> sorted_state (brace_step i line st).
Proof.
  intros [Hs Hp]. unfold sorted_state.
  destruct (brace_step_open_record i line st) as [[-> ->]|(cur & Hpe & -> & ->)].
  - now split.
  - split; [|intros c []].
    apply StronglySorted_snoc; [assumption|].
    apply (Hp cur). rewrite Hpe. now left.
Qed.

Lemma extract_loop_sorted ls : forall i st,
  loop_invariant i st -> sorted_state st ->
  sorted_state (extract_loop filePath i ls st).
Proof.
  induction ls as [|line rest IH]; intros i st Hinv Hs; [exact Hs|].
  cbn [extract_loop]. apply IH.
  - now apply line_step_invariant.
  - unfold line_step. apply brace_step_sorted.
    now apply declaration_step_sorted.
Qed.

(** Every record, pushed or open, is well formed. *)
Lemma well_formed_with_endLine f n :
  well_formed_record filePath f -> well_formed_record filePath (with_endLine f n).
Proof. intros H. exact H. Qed.

Lemma line_step_well_formed i line st :
  Forall (well_formed_record filePath) (out st ++ open_record st) ->
  Forall (well_formed_record filePath)
         (out (line_step filePath i line st)
          ++ open_record (line_step filePath i line st)).
Proof.
  intros H. unfold line_step.
  assert (H1 : Forall (well_formed_record filePath)
                 (out (declaration_step filePath i line st)
                  ++ open_record (declaration_step filePath i line st))).
  { destruct (declaration_in functionPatterns (trim line)) as [[n params]|] eqn:E;
      [|now rewrite declaration_step_none].
    destruct (declaration_step_open_record i line st E) as [-> ->].
    apply Forall_app in H. destruct H as [Ho Hp].
    repeat (apply Forall_app; split); try assumption.
    - rewrite Forall_forall in *. intros f Hf. apply in_map_iff in Hf.
      destruct Hf as (cur & <- & Hc). apply well_formed_with_endLine. now apply Hp.
    - constructor; [|constructor].
      destruct (declaration_in_captures _ E) as [Hn Hparams].
      unfold well_formed_record. simpl. repeat split; try assumption.
      exists params. now split. }
  destruct (brace_step_open_record i line (declaration_step filePath i line st))
    as [[-> ->]|(cur & Hp & -> & ->)]; [assumption|].
  rewrite Hp in H1. rewrite app_nil_r.
  apply Forall_app in H1. destruct H1 as [Ho Hc].
  apply Forall_app. split; [assumption|].
  inversion Hc; subst. constructor; [|constructor].
  now apply well_formed_with_endLine.
Qed.

Lemma extract_loop_well_formed ls : forall i st,
  Forall (well_formed_record filePath) (out st ++ open_record st) ->
  Forall (well_formed_record filePath)
         (out (extract_loop filePath i ls st)
          ++ open_record (extract_loop filePath i ls st)).
Proof.
  induction ls as [|line rest IH]; intros i st H; [exact H|].
  cbn [extract_loop]. apply IH. now apply line_step_well_formed.
Qed.

End ExtractorRecords.

Lemma close_at_end_well_formed filePath n st :
  Forall (well_formed_record filePath) (out st ++ open_record st) ->
  Forall (well_formed_record filePath) (close_at_end n st).
Proof.
  intros H. rewrite close_at_end_open_record.
  apply Forall_app in H. destruct H as [Ho Hp].
  apply Forall_app. split; [assumption|].
  rewrite Forall_forall in *. intros f Hf. apply in_map_iff in Hf.
  destruct Hf as (cur & <- & Hc). apply well_formed_with_endLine. now apply Hp.
Qed.

(** X1. The records of [extractFunctions] are those of the declaration
    lines, one for one and in order: the record of a declaration on line
    [l] with name [n] and parameter text [p] starts on line [l], is named
    [n] and has the signature [n(p)].  So there are as many records as
    declaration lines, and a text without one gives no record. *)
Theorem extractFunctions_follows_declarations (content filePath language : jsstring) :
  map opening (extractFunctions content filePath language)
  = map opened_by (declarations 0 (lines_of content))
  /\ length (extractFunctions content filePath language)
     = length (declarations 0 (lines_of content)).
Proof.
  assert (H : map opening (extractFunctions content filePath language)
             = map opened_by (declarations 0 (lines_of content))).
  { unfold extractFunctions. rewrite close_at_end_open_record.
    rewrite map_app, map_opening_with_endLine, <- map_app.
    now rewrite extract_loop_opening. }
  split; [exact H|].
  apply (f_equal (@length _)) in H. now rewrite !length_map in H.
Qed.

(** X2. The records of [extractFunctions] are in line order and do not
    overlap: each record ends before any later record starts. *)
Theorem extractFunctions_spans_disjoint (content filePath language : jsstring) :
  StronglySorted ends_before (extractFunctions content filePath language).
Proof.
  unfold extractFunctions. rewrite close_at_end_open_record.
  assert (Hinv : loop_invariant 0 (mkExtractState [] None 0 false))
    by (split; [constructor|discriminate]).
  assert (Hs : sorted_state (mkExtractState [] None 0 false))
    by (split; [constructor|intros c []]).
  destruct (@extract_loop_sorted filePath (lines_of content) 0 _ Hinv Hs)
    as [Hso Hp].
  destruct (open_record _) as [|cur [|]] eqn:E.
  - simpl. now rewrite app_nil_r.
  - simpl. apply StronglySorted_snoc; [assumption|].
    apply (Hp cur). now left.
  - exfalso. unfold open_record in E.
    destruct (currentFunction _); [|discriminate].
    destruct (inFunction _); discriminate.
Qed.

(** X3. Every record of [extractFunctions] carries the path of the file
    it was given, empty [calls] and [calledBy] lists, a name that is a
    non-empty run of word characters, and the signature [name(params)]
    whose parameter text holds no closing parenthesis. *)
Theorem extractFunctions_records_well_formed (content filePath language : jsstring) :
  Forall (well_formed_record filePath)
         (extractFunctions content filePath language).
Proof.
  unfold extractFunctions.
  apply close_at_end_well_formed.
  apply (@extract_loop_well_formed filePath (lines_of content) 0
           (mkExtractState [] None 0 false)).
  constructor.
Qed.

(* ================================================================== *)
(** * Where a record ends *)
(* ================================================================== *)

Section ExtractorEnds.

Variable filePath : jsstring.

Lemma brace_step_closes i line st :
  out (brace_step i line st) = out st
  \/ (exists cur,
         out (brace_step i line st) = out st ++ [with_endLine cur (i + 1)]
         /\ includes_char "}" line = true).
Proof.
  unfold brace_step. destruct (inFunction st); [|now left].
  destruct (currentFunction st) as [cur|]; [|now left].
  destruct (_ <=? 0)%Z; [|now left].
  destruct (includes_char "}" line) eqn:E; [|now left].
  right. exists cur. now split.
Qed.

Lemma line_step_closes whole i line st :
  nth_error whole i = Some line ->
  Forall (closes_on whole) (out st) ->
  Forall (closes_on whole) (out (line_step filePath i line st)).
Proof.
  intros Hline Hout. unfold line_step.
  assert (H1 : Forall (closes_on whole) (out (declaration_step filePath i line st))).
  { destruct (declaration_in functionPatterns (trim line)) as [[n params]|] eqn:E;
      [|now rewrite declaration_step_none].
    destruct (declaration_step_open_record filePath i line st E) as [-> _].
    apply Forall_app. split; [exact Hout|].
    apply Forall_forall. intros f Hf. apply in_map_iff in Hf.
    destruct Hf as (cur & <- & _). right. left.
    exists line, n, params. now split. }
  destruct (brace_step_closes i line (declaration_step filePath i line st))
    as [->|(cur & -> & Hbrace)]; [exact H1|].
  apply Forall_app. split; [exact H1|].
  constructor; [|constructor]. left. exists line. cbn [endLine with_endLine].
  replace (i + 1 - 1) with i by lia. now split.
Qed.

Lemma extract_loop_closes rest : forall before st,
  Forall (closes_on (before ++ rest)) (out st) ->
  Forall (closes_on (before ++ rest))
         (out (extract_loop filePath (length before) rest st)).
Proof.
  induction rest as [|line rest IH]; intros before st H; [exact H|].
  cbn [extract_loop].
  replace (before ++ line :: rest) with ((before ++ [line]) ++ rest) in *
    by (now rewrite <- app_assoc).
  replace (S (length before)) with (length (before ++ [line]))
    by (rewrite length_app; simpl; lia).
  apply IH. apply line_step_closes; [|exact H].
  rewrite <- app_assoc. cbn [app].
  rewrite nth_error_app2 by lia. now rewrite Nat.sub_diag.
Qed.

End ExtractorEnds.

(** X4. Every record of [extractFunctions] ends in one of three ways:
    on a line that holds a closing brace, where the brace balance closed
    it; on the line before a declaration line, which closed it; or on the
    last line of the text. *)
Theorem extractFunctions_end_lines (content filePath language : jsstring) :
  Forall (closes_on (lines_of content))
         (extractFunctions content filePath language).
Proof.
  unfold extractFunctions. rewrite close_at_end_open_record.
  apply Forall_app. split.
  - apply (@extract_loop_closes filePath (lines_of content) []
             (mkExtractState [] None 0 false)).
    constructor.
  - apply Forall_forall. intros f Hf. apply in_map_iff in Hf.
    destruct Hf as (cur & <- & _). right. right. reflexivity.
Qed.

(* ================================================================== *)
(** * What a greedy pattern takes *)
(* ================================================================== *)

Lemma word_not_space x : is_word x = true -> is_space x = false.
Proof.
  destruct x as [[] [] [] [] [] [] [] []]; vm_compute; intros H;
    first [reflexivity | discriminate H].
Qed.

(** A greedy quantifier over a class takes the whole run of members, when
    what follows the pattern accepts that. *)
Lemma star_class_max inv p k res tail :
  match tail with
  | [] => True
  | x :: _ => class_matches false inv p x = false
  end ->
  forall w i c fuel,
    forallb (class_matches false inv p) w = true ->
    length (w ++ tail) < fuel ->
    k (i + length w) tail c = Some res ->
    star_loop false true (Class inv p) k fuel i (w ++ tail) c = Some res.
Proof.
  intros Htail. induction w as [|x w IH]; intros i c fuel Hw Hf Hk;
    (destruct fuel as [|f]; [simpl in Hf; lia|]).
  - simpl in *. rewrite Nat.add_0_r in Hk.
    destruct tail as [|y t]; [exact Hk|]. now rewrite Htail.
  - simpl in Hw. apply andb_true_iff in Hw. destruct Hw as [Hx Hw].
    cbn [star_loop app run]. rewrite Hx.
    replace (S i =? i) with false by (symmetry; apply Nat.eqb_neq; lia).
    fold (star_loop false true (Class inv p) k).
    rewrite (IH (S i) c f Hw).
    + reflexivity.
    + simpl in Hf. lia.
    + simpl in Hk. now rewrite Nat.add_succ_r in Hk.
Qed.

Lemma run_star_class_max inv p k res tail w i c :
  match tail with
  | [] => True
  | x :: _ => class_matches false inv p x = false
  end ->
  forallb (class_matches false inv p) w = true ->
  k (i + length w) tail c = Some res ->
  run false (Star true (Class inv p)) i (w ++ tail) c k = Some res.
Proof.
  intros Htail Hw Hk. rewrite run_Star.
  apply star_class_max; try assumption. lia.
Qed.

Lemma run_plus_class_max inv p k res tail x w i c :
  match tail with
  | [] => True
  | y :: _ => class_matches false inv p y = false
  end ->
  forallb (class_matches false inv p) (x :: w) = true ->
  k (i + length (x :: w)) tail c = Some res ->
  run false (Plus true (Class inv p)) i ((x :: w) ++ tail) c k = Some res.
Proof.
  intros Htail Hw Hk. simpl in Hw. apply andb_true_iff in Hw.
  destruct Hw as [Hx Hw]. unfold Plus. cbn [run app]. rewrite Hx.
  change (run false (Star true (Class inv p)) (S i) (w ++ tail) c k = Some res).
  apply run_star_class_max; try assumption.
  simpl in Hk. now rewrite Nat.add_succ_r in Hk.
Qed.

Lemma trimStart_spaces a b :
  all_space a = true ->
  match b with [] => True | c :: _ => is_space c = false end ->
  trimStart (a ++ b) = b.
Proof.
  intros Ha Hb. induction a as [|x a IH]; simpl in *.
  - destruct b as [|c b]; [reflexivity|]. simpl. now rewrite Hb.
  - apply andb_true_iff in Ha. destruct Ha as [Hx Ha]. rewrite Hx. now apply IH.
Qed.

Lemma trimStart_app a c b :
  is_space c = false -> trimStart (a ++ c :: b) = trimStart a ++ c :: b.
Proof.
  intros Hc. induction a as [|x a IH]; simpl.
  - now rewrite Hc.
  - destruct (is_space x); [exact IH|reflexivity].
Qed.

Lemma trimEnd_app a c b :
  is_space c = false -> trimEnd (a ++ c :: b) = a ++ c :: trimEnd b.
Proof.
  intros Hc. unfold trimEnd.
  rewrite rev_app_distr. simpl. rewrite <- app_assoc. simpl.
  rewrite trimStart_app by exact Hc. rewrite rev_app_distr. simpl.
  now rewrite rev_involutive, <- app_assoc.
Qed.

Lemma run_Seq ic r1 r2 i rest c k :
  run ic (Seq r1 r2) i rest c k
  = run ic r1 i rest c (fun i' rest' c' => run ic r2 i' rest' c' k).
Proof. reflexivity. Qed.

Lemma run_Char_hit a i t c k :
  run false (Char a) i (a :: t) c k = k (S i) t c.
Proof. simpl. unfold unit_matches. now rewrite Ascii.eqb_refl. Qed.

Lemma run_Group ic n r i rest c k :
  run ic (Group n r) i rest c k
  = run ic r i rest c
        (fun i' rest' c' => k i' rest' ((n, firstn (i' - i) rest) :: c')).
Proof. reflexivity. Qed.

Lemma firstn_length_app (A : Type) (a b : list A) :
  firstn (length a) (a ++ b) = a.
Proof.
  rewrite firstn_app, Nat.sub_diag, firstn_all. simpl. apply app_nil_r.
Qed.

Lemma not_word_after_spaces ws c t :
  all_space ws = true -> is_word c = false ->
  match ws ++ c :: t with
  | [] => True
  | y :: _ => class_matches false false is_word y = false
  end.
Proof.
  intros Hws Hc. destruct ws as [|s ws]; simpl; [exact Hc|].
  simpl in Hws. apply andb_true_iff in Hws. destruct Hws as [Hs _].
  unfold class_matches. simpl.
  destruct (is_word s) eqn:E; [|reflexivity].
  apply word_not_space in E. congruence.
Qed.

Lemma no_unit_class a v :
  includes_char a v = false ->
  forallb (class_matches false true (fun x => Ascii.eqb x a)) v = true.
Proof.
  unfold includes_char. induction v as [|x v IH]; [reflexivity|].
  simpl. intros H. apply orb_false_iff in H. destruct H as [Hx Hv].
  rewrite (IH Hv), andb_true_r. unfold class_matches. simpl.
  rewrite Ascii.eqb_sym, Hx. reflexivity.
Qed.

Lemma scan_from_at_start ic r i rest e c :
  match_at ic r i rest = Some (e, c) -> scan_from ic r i rest = Some (i, e, c).
Proof. intros H. destruct rest; simpl; now rewrite H. Qed.

Lemma declarations_nth ls : forall k i line n params,
  nth_error ls i = Some line ->
  declaration_in functionPatterns (trim line) = Some (n, params) ->
  In (k + i + 1, n, params) (declarations k ls).
Proof.
  induction ls as [|l rest IH]; intros k i line n params Hn Hd.
  - destruct i; discriminate.
  - rewrite declarations_cons. apply in_or_app. destruct i as [|i]; simpl in Hn.
    + injection Hn as ->. left. cbn [declarations]. rewrite Hd.
      rewrite Nat.add_0_r. now left.
    + right. replace (k + S i + 1) with (S k + i + 1) by lia.
      eapply IH; eassumption.
Qed.

(* ================================================================== *)
(** * The declarations the extractor recognises *)
(* ================================================================== *)

(** What follows the keyword in the first declaration pattern, on what
    follows the keyword in a classic declaration. *)
Lemma classic_following_match i0 sp0 sp n0 name ws params tail :
  all_space (sp0 :: sp) = true ->
  is_identifier (n0 :: name) = true ->
  all_space ws = true ->
  includes_char ")" params = false ->
  exists e,
    run false
        (Seq (Plus true s_) (Seq name_ (Seq (Star true s_) params_)))
        i0
        ((sp0 :: sp) ++ (n0 :: name) ++ ws ++ js "(" ++ params ++ js ")" ++ tail)
        [] (fun i' _ c' => Some (i', c'))
    = Some (e, [(2, params); (1, n0 :: name)]).
Proof.
  intros Hsp Hname Hws Hparams. eexists. rewrite run_Seq.
  assert (Hn0 : is_word n0 = true /\ forallb is_word name = true).
  { simpl in Hname. now apply andb_true_iff in Hname. }
  destruct Hn0 as [Hn0 Hn].
  eapply (@run_plus_class_max false is_space _ _
            ((n0 :: name) ++ ws ++ js "(" ++ params ++ js ")" ++ tail)
            sp0 sp).
  { simpl. unfold class_matches. simpl. now apply word_not_space. }
  { exact Hsp. }
  cbv beta. rewrite run_Seq. unfold name_. rewrite run_Group.
  eapply (@run_plus_class_max false is_word _ _
            (ws ++ js "(" ++ params ++ js ")" ++ tail) n0 name).
  { apply not_word_after_spaces; [exact Hws|reflexivity]. }
  { simpl. unfold class_matches at 1. simpl. rewrite Hn0. exact Hn. }
  cbv beta.
  replace (i0 + length (sp0 :: sp) + length (n0 :: name)
           - (i0 + length (sp0 :: sp))) with (length (n0 :: name)) by lia.
  rewrite firstn_length_app. rewrite run_Seq.
  eapply (@run_star_class_max false is_space _ _
            (js "(" ++ params ++ js ")" ++ tail) ws).
  { reflexivity. }
  { exact Hws. }
  cbv beta. unfold params_. cbn [Seqs]. rewrite run_Seq.
  cbn [js list_ascii_of_string app]. rewrite run_Char_hit.
  rewrite run_Seq, run_Group.
  eapply (@run_star_class_max true (fun x => Ascii.eqb x ")") _ _
            (")"%char :: tail) params).
  { reflexivity. }
  { now apply no_unit_class. }
  cbv beta. rewrite run_Char_hit.
  match goal with
  | |- context [firstn ?n (params ++ ?t)] =>
      replace n with (length params) by lia
  end.
  rewrite firstn_length_app. reflexivity.
Qed.

Lemma run_async_skip x t i c k :
  Ascii.eqb "a" x = false -> run false async_ i (x :: t) c k = k i (x :: t) c.
Proof.
  intros H. unfold async_, L. cbn [js list_ascii_of_string Lit run unit_matches].
  now rewrite H.
Qed.

(** What follows the keyword in the second declaration pattern, on what
    follows the keyword in an arrow declaration. *)
Lemma arrow_following_match i0 sp0 sp n0 name ws1 ws2 params ws3 tail :
  all_space (sp0 :: sp) = true ->
  is_identifier (n0 :: name) = true ->
  all_space ws1 = true -> all_space ws2 = true ->
  includes_char ")" params = false ->
  all_space ws3 = true ->
  exists e,
    run false
        (Seq (Plus true s_)
           (Seq name_
              (Seq (Star true s_)
                 (Seq (Char "=")
                    (Seq (Star true s_)
                       (Seq async_
                          (Seq params_ (Seq (Star true s_) (L "=>")))))))))
        i0
        ((sp0 :: sp) ++ (n0 :: name) ++ ws1 ++ js "=" ++ ws2 ++ js "("
            ++ params ++ js ")" ++ ws3 ++ js "=>" ++ tail)
        [] (fun i' _ c' => Some (i', c'))
    = Some (e, [(2, params); (1, n0 :: name)]).
Proof.
  intros Hsp Hname Hws1 Hws2 Hparams Hws3. eexists. rewrite run_Seq.
  assert (Hn0 : is_word n0 = true /\ forallb is_word name = true).
  { simpl in Hname. now apply andb_true_iff in Hname. }
  destruct Hn0 as [Hn0 Hn].
  eapply (@run_plus_class_max false is_space _ _
            ((n0 :: name) ++ ws1 ++ js "=" ++ ws2 ++ js "(" ++ params
               ++ js ")" ++ ws3 ++ js "=>" ++ tail)
            sp0 sp).
  { simpl. unfold class_matches. simpl. now apply word_not_space. }
  { exact Hsp. }
  cbv beta. rewrite run_Seq. unfold name_. rewrite run_Group.
  eapply (@run_plus_class_max false is_word _ _
            (ws1 ++ js "=" ++ ws2 ++ js "(" ++ params ++ js ")" ++ ws3
                 ++ js "=>" ++ tail) n0 name).
  { apply not_word_after_spaces; [exact Hws1|reflexivity]. }
  { simpl. unfold class_matches at 1. simpl. rewrite Hn0. exact Hn. }
  cbv beta.
  replace (i0 + length (sp0 :: sp) + length (n0 :: name)
           - (i0 + length (sp0 :: sp))) with (length (n0 :: name)) by lia.
  rewrite firstn_length_app. rewrite run_Seq.
  eapply (@run_star_class_max false is_space _ _
            (js "=" ++ ws2 ++ js "(" ++ params ++ js ")" ++ ws3 ++ js "=>"
                ++ tail) ws1).
  { reflexivity. }
  { exact Hws1. }
  cbv beta. rewrite run_Seq. cbn [js list_ascii_of_string app].
  rewrite run_Char_hit. rewrite run_Seq.
  eapply (@run_star_class_max false is_space _ _
            ("("%char :: params ++ ")"%char :: ws3 ++ "="%char :: ">"%char :: tail)
            ws2).
  { reflexivity. }
  { exact Hws2. }
  cbv beta. rewrite run_Seq, run_async_skip by reflexivity.
  rewrite run_Seq. unfold params_. cbn [Seqs]. rewrite run_Seq.
  rewrite run_Char_hit. rewrite run_Seq, run_Group.
  eapply (@run_star_class_max true (fun x => Ascii.eqb x ")") _ _
            (")"%char :: ws3 ++ "="%char :: ">"%char :: tail) params).
  { reflexivity. }
  { now apply no_unit_class. }
  cbv beta. rewrite run_Char_hit. rewrite run_Seq.
  match goal with
  | |- context [firstn ?n (params ++ ?t)] =>
      replace n with (length params) by lia
  end.
  rewrite firstn_length_app.
  eapply (@run_star_class_max false is_space _ _
            ("="%char :: ">"%char :: tail) ws3).
  { reflexivity. }
  { exact Hws3. }
  cbv beta.
  cbn [run L js list_ascii_of_string Lit unit_matches Ascii.eqb Bool.eqb].
  reflexivity.
Qed.

(** A pattern anchored at the start matches nowhere else. *)
Lemma scan_from_Bol ic r : forall rest i,
  0 < i -> scan_from ic (Seq Bol r) i rest = None.
Proof.
  assert (Hm : forall i rest, 0 < i -> match_at ic (Seq Bol r) i rest = None).
  { intros i rest Hi. unfold match_at. cbn [run].
    destruct i; [lia|reflexivity]. }
  induction rest as [|x t IH]; intros i Hi; cbn [scan_from]; rewrite Hm by exact Hi.
  - reflexivity.
  - apply IH. lia.
Qed.

Lemma match_Bol_none r s :
  match_at false (Seq Bol r) 0 s = None -> match_ (Seq Bol r) s = None.
Proof.
  intros H. unfold match_. destruct s as [|x t]; cbn [scan_from]; rewrite H.
  - reflexivity.
  - now rewrite scan_from_Bol by lia.
Qed.

Lemma match_at_start r s e c :
  match_at false r 0 s = Some (e, c) -> match_ r s = Some c.
Proof.
  intros H. unfold match_. now rewrite (scan_from_at_start _ _ _ _ H).
Qed.

Lemma classic_declaration_in exported sp name ws params tail :
  all_space sp = true -> 1 <= length sp ->
  is_identifier name = true ->
  all_space ws = true ->
  includes_char ")" params = false ->
  declaration_in functionPatterns
    (export_prefix exported ++ js "function" ++ sp ++ name ++ ws ++ js "("
        ++ params ++ js ")" ++ tail)
  = Some (name, params).
Proof.
  intros Hsp Hlen Hname Hws Hparams.
  destruct sp as [|sp0 sp]; [simpl in Hlen; lia|].
  destruct name as [|n0 name]; [discriminate|].
  assert (Hm : exists e,
             match_at false
               (Seqs [Bol; export_; async_; L "function"; Plus true s_; name_;
                      Star true s_; params_])
               0
               (export_prefix exported ++ js "function" ++ (sp0 :: sp)
                  ++ (n0 :: name) ++ ws ++ js "(" ++ params ++ js ")" ++ tail)
             = Some (e, [(2, params); (1, n0 :: name)])).
  { unfold match_at. cbn [Seqs].
    remember (Seq (Plus true s_) (Seq name_ (Seq (Star true s_) params_)))
      as following eqn:Ef.
    destruct exported.
    - destruct (classic_following_match 15 sp0 sp n0 name ws params tail
                  Hsp Hname Hws Hparams) as [e He].
      rewrite <- Ef in He. exists e. unfold export_prefix.
      cbn [js list_ascii_of_string app] in *. cbn. rewrite He. reflexivity.
    - destruct (classic_following_match 8 sp0 sp n0 name ws params tail
                  Hsp Hname Hws Hparams) as [e He].
      rewrite <- Ef in He. exists e. unfold export_prefix.
      cbn [js list_ascii_of_string app] in *. cbn. rewrite He. reflexivity. }
  destruct Hm as [e He].
  unfold functionPatterns. cbn [declaration_in].
  now rewrite (match_at_start _ _ He).
Qed.

Lemma arrow_declaration_in exported sp name ws1 ws2 params ws3 tail :
  all_space sp = true -> 1 <= length sp ->
  is_identifier name = true ->
  all_space ws1 = true -> all_space ws2 = true ->
  includes_char ")" params = false ->
  all_space ws3 = true ->
  declaration_in functionPatterns
    (export_prefix exported ++ js "const" ++ sp ++ name ++ ws1 ++ js "="
        ++ ws2 ++ js "(" ++ params ++ js ")" ++ ws3 ++ js "=>" ++ tail)
  = Some (name, params).
Proof.
  intros Hsp Hlen Hname Hws1 Hws2 Hparams Hws3.
  destruct sp as [|sp0 sp]; [simpl in Hlen; lia|].
  destruct name as [|n0 name]; [discriminate|].
  assert (Hm : exists e,
             match_at false
               (Seqs [Bol; export_; declarator; Plus true s_; name_;
                      Star true s_; Char "="; Star true s_; async_; params_;
                      Star true s_; L "=>"])
               0
               (export_prefix exported ++ js "const" ++ (sp0 :: sp)
                  ++ (n0 :: name) ++ ws1 ++ js "=" ++ ws2 ++ js "(" ++ params
                  ++ js ")" ++ ws3 ++ js "=>" ++ tail)
             = Some (e, [(2, params); (1, n0 :: name)])).
  { unfold match_at. cbn [Seqs].
    remember (Seq (Plus true s_)
                (Seq name_
                   (Seq (Star true s_)
                      (Seq (Char "=")
                         (Seq (Star true s_)
                            (Seq async_
                               (Seq params_ (Seq (Star true s_) (L "=>")))))))))
      as following eqn:Ef.
    destruct exported.
    - destruct (arrow_following_match 12 sp0 sp n0 name ws1 ws2 params ws3 tail
                  Hsp Hname Hws1 Hws2 Hparams Hws3) as [e He].
      rewrite <- Ef in He. exists e. unfold export_prefix.
      cbn [js list_ascii_of_string app] in *. cbn. rewrite He. reflexivity.
    - destruct (arrow_following_match 5 sp0 sp n0 name ws1 ws2 params ws3 tail
                  Hsp Hname Hws1 Hws2 Hparams Hws3) as [e He].
      rewrite <- Ef in He. exists e. unfold export_prefix.
      cbn [js list_ascii_of_string app] in *. cbn. rewrite He. reflexivity. }
  destruct Hm as [e He].
  assert (Hfirst : match_
                     (Seqs [Bol; export_; async_; L "function"; Plus true s_;
                            name_; Star true s_; params_])
                     (export_prefix exported ++ js "const" ++ (sp0 :: sp)
                        ++ (n0 :: name) ++ ws1 ++ js "=" ++ ws2 ++ js "("
                        ++ params ++ js ")" ++ ws3 ++ js "=>" ++ tail)
                   = None).
  { cbn [Seqs]. apply match_Bol_none. destruct exported; reflexivity. }
  unfold functionPatterns. cbn [declaration_in].
  now rewrite Hfirst, (match_at_start _ _ He).
Qed.

Lemma trim_classic_declaration indent exported sp name ws params tail :
  all_space indent = true ->
  trim (classic_declaration indent exported sp name ws params tail)
  = export_prefix exported ++ js "function" ++ sp ++ name ++ ws ++ js "("
       ++ params ++ js ")" ++ trimEnd tail.
Proof.
  intros Hi. unfold trim, classic_declaration.
  rewrite trimStart_spaces; [|exact Hi|now destruct exported].
  replace (export_prefix exported ++ js "function" ++ sp ++ name ++ ws
              ++ js "(" ++ params ++ js ")" ++ tail)
    with ((export_prefix exported ++ js "function" ++ sp ++ name ++ ws
              ++ js "(" ++ params)
            ++ ")"%char :: tail)
    by (now rewrite <- !app_assoc).
  rewrite trimEnd_app by reflexivity.
  now rewrite <- !app_assoc.
Qed.

Lemma trim_arrow_declaration indent exported sp name ws1 ws2 params ws3 tail :
  all_space indent = true ->
  trim (arrow_declaration indent exported sp name ws1 ws2 params ws3 tail)
  = export_prefix exported ++ js "const" ++ sp ++ name ++ ws1 ++ js "="
       ++ ws2 ++ js "(" ++ params ++ js ")" ++ ws3 ++ js "=>" ++ trimEnd tail.
Proof.
  intros Hi. unfold trim, arrow_declaration.
  rewrite trimStart_spaces; [|exact Hi|now destruct exported].
  replace (export_prefix exported ++ js "const" ++ sp ++ name ++ ws1 ++ js "="
              ++ ws2 ++ js "(" ++ params ++ js ")" ++ ws3 ++ js "=>" ++ tail)
    with ((export_prefix exported ++ js "const" ++ sp ++ name ++ ws1 ++ js "="
              ++ ws2 ++ js "(" ++ params ++ js ")" ++ ws3 ++ js "=")
            ++ ">"%char :: tail)
    by (now rewrite <- !app_assoc).
  rewrite trimEnd_app by reflexivity.
  now rewrite <- !app_assoc.
Qed.

(** A declaration line gives a record. *)
Lemma declared_line_gives_record content filePath language i line name params :
  nth_error (lines_of content) i = Some line ->
  declaration_in functionPatterns (trim line) = Some (name, params) ->
  exists f,
    In f (extractFunctions content filePath language)
    /\ startLine f = i + 1
    /\ fn_name f = name
    /\ signature f = name ++ js "(" ++ params ++ js ")"
    /\ fn_file f = filePath
    /\ i + 1 <= endLine f <= length (lines_of content).
Proof.
  intros Hline Hd.
  pose proof (declarations_nth _ 0 _ Hline Hd) as Hin.
  apply (in_map opened_by) in Hin.
  assert (Ho : map opening (extractFunctions content filePath language)
               = map opened_by (declarations 0 (lines_of content))).
  { unfold extractFunctions. rewrite close_at_end_open_record.
    rewrite map_app, map_opening_with_endLine, <- map_app.
    now rewrite extract_loop_opening. }
  rewrite <- Ho in Hin. apply in_map_iff in Hin.
  destruct Hin as (f & Hf & Hfin). unfold opening in Hf. simpl in Hf.
  injection Hf as Hs Hn Hsig.
  assert (Hwf : Forall (well_formed_record filePath)
                       (extractFunctions content filePath language)).
  { unfold extractFunctions. apply close_at_end_well_formed.
    apply (@extract_loop_well_formed filePath (lines_of content) 0
             (mkExtractState [] None 0 false)).
    constructor. }
  assert (Hspan : Forall (span_within (length (lines_of content)))
                         (extractFunctions content filePath language)).
  { unfold extractFunctions. apply close_at_end_spans.
    apply (extract_loop_invariant filePath (lines_of content) (i := 0)).
    split; [constructor|discriminate]. }
  rewrite Forall_forall in Hwf, Hspan.
  destruct (Hwf f Hfin) as (Hfile & _).
  destruct (Hspan f Hfin) as (_ & Hse & Hel).
  exists f. subst name. repeat split; try assumption; lia.
Qed.

(** X5. A line that declares a function the classic way, with the
    keyword [function], after [export] or not, a name of word characters
    and a parameter text without a closing parenthesis, whatever its
    indentation and whatever follows the parameters, gives a record: it
    starts on that line, has that name, the signature [name(params)] and
    the path of the file, and ends on that line or a later one. *)
Theorem extractFunctions_finds_classic_declaration
        (content filePath language : jsstring) (i : nat)
        (indent : jsstring) (exported : bool)
        (sp name ws params tail : jsstring) :
  nth_error (lines_of content) i
  = Some (classic_declaration indent exported sp name ws params tail) ->
  all_space indent = true ->
  all_space sp = true -> 1 <= length sp ->
  is_identifier name = true ->
  all_space ws = true ->
  includes_char ")" params = false ->
  exists f,
    In f (extractFunctions content filePath language)
    /\ startLine f = i + 1
    /\ fn_name f = name
    /\ signature f = name ++ js "(" ++ params ++ js ")"
    /\ fn_file f = filePath
    /\ i + 1 <= endLine f <= length (lines_of content).
Proof.
  intros Hline Hindent Hsp Hlen Hname Hws Hparams.
  eapply declared_line_gives_record; [exact Hline|].
  rewrite trim_classic_declaration by exact Hindent.
  now apply classic_declaration_in.
Qed.

Lemma extractFunctions_finds_classic_declaration_witness :
  exists f,
    In f (extractFunctions two_declarations (js "main.ts") (js "typescript"))
    /\ startLine f = 2
    /\ fn_name f = js "g"
    /\ signature f = js "g(b)"
    /\ fn_file f = js "main.ts"
    /\ 2 <= endLine f <= 2.
Proof.
  apply (@extractFunctions_finds_classic_declaration
           two_declarations (js "main.ts") (js "typescript") 1
           [] false (js " ") (js "g") [] (js "b") (js " {"));
    first [reflexivity | simpl; lia].
Defined.

(** X6. A line that binds an arrow function to a constant, with the
    keyword [const], after [export] or not, a name of word characters,
    the equals sign, a parameter text in parentheses without a closing
    parenthesis and the arrow, whatever its indentation and whatever
    follows the arrow, gives a record: it starts on that line, has that
    name, the signature [name(params)] and the path of the file, and ends
    on that line or a later one. *)
Theorem extractFunctions_finds_arrow_declaration
        (content filePath language : jsstring) (i : nat)
        (indent : jsstring) (exported : bool)
        (sp name ws1 ws2 params ws3 tail : jsstring) :
  nth_error (lines_of content) i
  = Some (arrow_declaration indent exported sp name ws1 ws2 params ws3 tail) ->
  all_space indent = true ->
  all_space sp = true -> 1 <= length sp ->
  is_identifier name = true ->
  all_space ws1 = true -> all_space ws2 = true ->
  includes_char ")" params = false ->
  all_space ws3 = true ->
  exists f,
    In f (extractFunctions content filePath language)
    /\ startLine f = i + 1
    /\ fn_name f = name
    /\ signature f = name ++ js "(" ++ params ++ js ")"
    /\ fn_file f = filePath
    /\ i + 1 <= endLine f <= length (lines_of content).
Proof.
  intros Hline Hindent Hsp Hlen Hname Hws1 Hws2 Hparams Hws3.
  eapply declared_line_gives_record; [exact Hline|].
  rewrite trim_arrow_declaration by exact Hindent.
  now apply arrow_declaration_in.
Qed.

Lemma extractFunctions_finds_arrow_declaration_witness :
  exists f,
    In f (extractFunctions add_source (js "main.ts") (js "typescript"))
    /\ startLine f = 1
    /\ fn_name f = js "add"
    /\ signature f = js "add(a, b)"
    /\ fn_file f = js "main.ts"
    /\ 1 <= endLine f <= 1.
Proof.
  apply (@extractFunctions_finds_arrow_declaration
           add_source (js "main.ts") (js "typescript") 0
           [] true (js " ") (js "add") (js " ") (js " ") (js "a, b") (js " ")
           (js " a + b"));
    first [reflexivity | simpl; lia].
Defined.

(* ================================================================== *)
(** * Properties of the per-file lists *)
(* ================================================================== *)

Lemma existsb_jsstring_eqb x seen :
  existsb (jsstring_eqb x) seen = true <-> In x seen.
Proof.
  rewrite existsb_exists. split.
  - intros (y & Hy & He). apply jsstring_eqb_eq in He. now subst.
  - intros H. exists x. split; [assumption|apply jsstring_eqb_refl].
Qed.

(** [unique] keeps the first occurrence of every element not seen yet. *)
Lemma unique_In xs : forall seen x,
  In x (unique seen xs) <-> In x xs /\ ~ In x seen.
Proof.
  induction xs as [|y t IH]; intros seen x; simpl; [tauto|].
  destruct (existsb (jsstring_eqb y) seen) eqn:E.
  - apply existsb_jsstring_eqb in E. rewrite IH. split.
    + intros [H1 H2]. auto.
    + intros [[<-|H1] H2]; [contradiction|auto].
  - assert (Hy : ~ In y seen).
    { intros H. apply existsb_jsstring_eqb in H. congruence. }
    simpl. rewrite IH. simpl. split.
    + intros [<-|[H1 H2]]; [auto|]. split; [auto|]. intros H. apply H2. now right.
    + intros [[<-|H1] H2]; [now left|].
      destruct (list_eq_dec ascii_dec y x) as [->|Hne]; [now left|].
      right. split; [assumption|]. intros [H|H]; [now apply Hne|now apply H2].
Qed.

Lemma unique_NoDup xs : forall seen, NoDup (unique seen xs).
Proof.
  induction xs as [|y t IH]; intros seen; simpl; [constructor|].
  destruct (existsb (jsstring_eqb y) seen); [apply IH|].
  constructor; [|apply IH].
  rewrite unique_In. intros [_ H]. apply H. now left.
Qed.

Lemma existsb_jsstring_eqb_false x seen :
  existsb (jsstring_eqb x) seen = false <-> ~ In x seen.
Proof.
  rewrite <- existsb_jsstring_eqb. destruct (existsb (jsstring_eqb x) seen);
    split; congruence.
Qed.

(** [unique] looks at what has been seen as a set. *)
Lemma unique_seen xs : forall seen seen',
  (forall x, In x seen <-> In x seen') ->
  unique seen xs = unique seen' xs.
Proof.
  induction xs as [|y t IH]; intros seen seen' H; [reflexivity|].
  cbn [unique].
  assert (E : existsb (jsstring_eqb y) seen = existsb (jsstring_eqb y) seen').
  { destruct (existsb (jsstring_eqb y) seen) eqn:E1; symmetry.
    - apply existsb_jsstring_eqb. apply H. now apply existsb_jsstring_eqb.
    - apply existsb_jsstring_eqb_false. intros H'. apply H in H'.
      apply existsb_jsstring_eqb in H'. congruence. }
  rewrite E. destruct (existsb (jsstring_eqb y) seen').
  - now apply IH.
  - f_equal. apply IH. intros x. simpl. now rewrite H.
Qed.

Lemma unique_distinct xs : forall seen,
  NoDup xs -> (forall x, In x xs -> ~ In x seen) -> unique seen xs = xs.
Proof.
  induction xs as [|y t IH]; intros seen Hnd Hfresh; [reflexivity|].
  cbn [unique]. inversion Hnd as [|? ? Hnotin Hnd']; subst.
  replace (existsb (jsstring_eqb y) seen) with false
    by (symmetry; apply existsb_jsstring_eqb_false; apply Hfresh; now left).
  f_equal. apply IH; [exact Hnd'|].
  intros x Hx [<-|H]; [contradiction|].
  apply (Hfresh x); [now right|exact H].
Qed.

Lemma first_capture_identifier p line n :
  (forall body, In body (groups 1 p) -> body = Plus true w_) ->
  first_capture p line = Some n -> is_identifier n = true.
Proof.
  intros Hg H. unfold first_capture in H.
  destruct (match_ p line) as [c|] eqn:Em; [|discriminate].
  apply truthy_group_capture in H. destruct H as [Hc _].
  destruct (match_capture _ _ _ Em Hc) as (body & Hb & Hl).
  rewrite (Hg _ Hb) in Hl. now apply lang_name.
Qed.

Lemma functionNamePatterns_groups p body :
  In p functionNamePatterns -> In body (groups 1 p) -> body = Plus true w_.
Proof.
  intros Hp Hb. simpl in Hp.
  repeat (destruct Hp as [<-|Hp];
          [simpl in Hb;
           repeat (destruct Hb as [<-|Hb]; [reflexivity|]); destruct Hb|]).
  destruct Hp.
Qed.

Lemma export_items_nonempty captured s : In s (export_items captured) -> s <> [].
Proof.
  unfold export_items. rewrite filter_In. intros [_ H] ->. discriminate H.
Qed.

(** X7. The three lists the indexer keeps for a file hold no entry
    twice and no empty entry; a function name is a run of word characters
    and none of [if], [for], [while], [switch] and [catch]. *)
Theorem per_file_lists_are_sets (content language : jsstring) :
  (NoDup (extractFunctionNames content language)
   /\ Forall (fun n => is_identifier n = true /\ ~ In n control_keywords)
             (extractFunctionNames content language))
  /\ (NoDup (extractImports content language)
      /\ Forall (fun s => s <> []) (extractImports content language))
  /\ (NoDup (extractExports content language)
      /\ Forall (fun s => s <> []) (extractExports content language)).
Proof.
  repeat split; try apply unique_NoDup; apply Forall_forall; intros x Hx.
  - unfold extractFunctionNames in Hx. apply unique_In in Hx.
    destruct Hx as [Hx _]. apply in_flat_map in Hx.
    destruct Hx as (line & _ & Hx). apply in_flat_map in Hx.
    destruct Hx as (p & Hp & Hx).
    destruct (first_capture p line) as [n|] eqn:E; [|destruct Hx].
    destruct (existsb (jsstring_eqb n) control_keywords) eqn:Ek; [destruct Hx|].
    destruct Hx as [<-|[]]. split.
    + eapply first_capture_identifier; [|exact E].
      intros body. now apply functionNamePatterns_groups.
    + intros H. apply existsb_jsstring_eqb in H. congruence.
  - unfold extractImports in Hx. apply unique_In in Hx.
    destruct Hx as [Hx _]. apply in_flat_map in Hx.
    destruct Hx as (line & _ & Hx). apply in_flat_map in Hx.
    destruct Hx as (p & Hp & Hx).
    destruct (first_capture p line) as [n|] eqn:E; [|destruct Hx].
    destruct Hx as [<-|[]]. eapply first_capture_nonempty; exact E.
  - unfold extractExports in Hx. apply unique_In in Hx.
    destruct Hx as [Hx _]. apply in_flat_map in Hx.
    destruct Hx as (line & _ & Hx). apply in_flat_map in Hx.
    destruct Hx as (p & Hp & Hx).
    destruct (first_capture p line) as [n|] eqn:E; [|destruct Hx].
    eapply export_items_nonempty; exact Hx.
Qed.

(* ================================================================== *)
(** * Control statements *)
(* ================================================================== *)

Lemma run_Opt_skip ic r i rest c k :
  run ic r i rest c (fun i' rest' c' => if i' =? i then None else k i' rest' c')
  = None ->
  run ic (Opt r) i rest c k = k i rest c.
Proof. intros H. cbn [run]. now rewrite H. Qed.

(** What follows the name in the fourth declaration pattern, on what
    follows the keyword of a control statement. *)
Lemma method_following_match i0 cs name ws1 cond ws2 tail :
  all_space ws1 = true ->
  includes_char ")" cond = false ->
  all_space ws2 = true ->
  exists e,
    run false
        (Seq (Star true s_)
           (Seq params_
              (Seq (Star true s_)
                 (Seq (Opt (Seqs [Char ":"; Star true s_; Plus true w_]))
                    (Seq (Star true s_) (Char "{"))))))
        i0
        (ws1 ++ js "(" ++ cond ++ js ")" ++ ws2 ++ js "{" ++ tail)
        ((1, name) :: cs) (fun i' _ c' => Some (i', c'))
    = Some (e, (2, cond) :: (1, name) :: cs).
Proof.
  intros Hws1 Hcond Hws2. eexists. rewrite run_Seq.
  eapply (@run_star_class_max false is_space _ _
            (js "(" ++ cond ++ js ")" ++ ws2 ++ js "{" ++ tail) ws1).
  { reflexivity. }
  { exact Hws1. }
  cbv beta. rewrite run_Seq. unfold params_. cbn [Seqs]. rewrite run_Seq.
  cbn [js list_ascii_of_string app]. rewrite run_Char_hit.
  rewrite run_Seq, run_Group.
  eapply (@run_star_class_max true (fun x => Ascii.eqb x ")") _ _
            (")"%char :: ws2 ++ "{"%char :: tail) cond).
  { reflexivity. }
  { now apply no_unit_class. }
  cbv beta. rewrite run_Char_hit. rewrite run_Seq.
  match goal with
  | |- context [firstn ?n (cond ++ ?t)] =>
      replace n with (length cond) by lia
  end.
  rewrite firstn_length_app.
  eapply (@run_star_class_max false is_space _ _ ("{"%char :: tail) ws2).
  { reflexivity. }
  { exact Hws2. }
  cbv beta. rewrite run_Seq.
  rewrite run_Opt_skip by reflexivity.
  rewrite run_Seq.
  eapply (@run_star_class_max false is_space _ _ ("{"%char :: tail) []).
  { reflexivity. }
  { reflexivity. }
  cbv beta. rewrite run_Char_hit. reflexivity.
Qed.

Lemma run_Bol_start ic rest c k : run ic Bol 0 rest c k = k 0 rest c.
Proof. reflexivity. Qed.

(** The fourth declaration pattern on a control statement. *)
Lemma control_statement_match kw ws1 cond ws2 tail :
  In kw control_keywords ->
  all_space ws1 = true ->
  includes_char ")" cond = false ->
  all_space ws2 = true ->
  exists e,
    match_at false
      (Seqs [Bol; Star true s_;
             Opt (Alts (L "public") [L "private"; L "protected"]);
             Star true s_; Opt (Seq (L "static") (Plus true s_)); async_;
             name_; Star true s_; params_; Star true s_;
             Opt (Seqs [Char ":"; Star true s_; Plus true w_]);
             Star true s_; Char "{"])
      0
      (kw ++ ws1 ++ js "(" ++ cond ++ js ")" ++ ws2 ++ js "{" ++ tail)
    = Some (e, [(2, cond); (1, kw)]).
Proof.
  intros Hkw Hws1 Hcond Hws2.
  destruct (method_following_match (0 + length kw) [] kw ws1 cond ws2 tail
              Hws1 Hcond Hws2) as [e He].
  exists e. unfold match_at. cbn [Seqs]. cbn [Seqs] in He.
  rewrite run_Seq, run_Bol_start.
  simpl in Hkw.
  destruct Hkw as [<-|[<-|[<-|[<-|[<-|[]]]]]];
    cbn [js list_ascii_of_string app length Nat.add] in *;
    (rewrite run_Seq;
     match goal with
     | |- run false (Star true s_) 0 ?T [] ?k = _ =>
         apply (@run_star_class_max false is_space k _ T [] 0 []);
         [reflexivity|reflexivity|]
     end;
     cbv beta; cbn [length Nat.add app];
     rewrite run_Seq, run_Opt_skip by reflexivity;
     rewrite run_Seq;
     match goal with
     | |- run false (Star true s_) 0 ?T [] ?k = _ =>
         apply (@run_star_class_max false is_space k _ T [] 0 []);
         [reflexivity|reflexivity|]
     end;
     cbv beta; cbn [length Nat.add app];
     rewrite run_Seq, run_Opt_skip by reflexivity;
     rewrite run_Seq, run_async_skip by reflexivity;
     rewrite run_Seq; unfold name_; rewrite run_Group).
  - eapply (@run_plus_class_max false is_word _ _
              (ws1 ++ "("%char :: cond ++ ")"%char :: ws2 ++ "{"%char :: tail)
              "i"%char ["f"%char]).
    { apply not_word_after_spaces; [exact Hws1|reflexivity]. }
    { reflexivity. }
    cbv beta. cbn [length Nat.add Nat.sub firstn app]. exact He.
  - eapply (@run_plus_class_max false is_word _ _
              (ws1 ++ "("%char :: cond ++ ")"%char :: ws2 ++ "{"%char :: tail)
              "f"%char ["o"%char; "r"%char]).
    { apply not_word_after_spaces; [exact Hws1|reflexivity]. }
    { reflexivity. }
    cbv beta. cbn [length Nat.add Nat.sub firstn app]. exact He.
  - eapply (@run_plus_class_max false is_word _ _
              (ws1 ++ "("%char :: cond ++ ")"%char :: ws2 ++ "{"%char :: tail)
              "w"%char ["h"%char; "i"%char; "l"%char; "e"%char]).
    { apply not_word_after_spaces; [exact Hws1|reflexivity]. }
    { reflexivity. }
    cbv beta. cbn [length Nat.add Nat.sub firstn app]. exact He.
  - eapply (@run_plus_class_max false is_word _ _
              (ws1 ++ "("%char :: cond ++ ")"%char :: ws2 ++ "{"%char :: tail)
              "s"%char ["w"%char; "i"%char; "t"%char; "c"%char; "h"%char]).
    { apply not_word_after_spaces; [exact Hws1|reflexivity]. }
    { reflexivity. }
    cbv beta. cbn [length Nat.add Nat.sub firstn app]. exact He.
  - eapply (@run_plus_class_max false is_word _ _
              (ws1 ++ "("%char :: cond ++ ")"%char :: ws2 ++ "{"%char :: tail)
              "c"%char ["a"%char; "t"%char; "c"%char; "h"%char]).
    { apply not_word_after_spaces; [exact Hws1|reflexivity]. }
    { reflexivity. }
    cbv beta. cbn [length Nat.add Nat.sub firstn app]. exact He.
Qed.

Lemma control_statement_in kw ws1 cond ws2 tail :
  In kw control_keywords ->
  all_space ws1 = true ->
  includes_char ")" cond = false ->
  all_space ws2 = true ->
  declaration_in functionPatterns
    (kw ++ ws1 ++ js "(" ++ cond ++ js ")" ++ ws2 ++ js "{" ++ tail)
  = Some (kw, cond).
Proof.
  intros Hkw Hws1 Hcond Hws2.
  destruct (@control_statement_match kw ws1 cond ws2 tail Hkw Hws1 Hcond Hws2)
    as [e He].
  apply match_at_start in He.
  unfold functionPatterns. cbn [declaration_in]. rewrite He. clear He.
  cbn [Seqs]. simpl in Hkw.
  destruct Hkw as [<-|[<-|[<-|[<-|[<-|[]]]]]];
    rewrite !match_Bol_none by reflexivity; reflexivity.
Qed.

Lemma trim_control_statement indent kw ws1 cond ws2 tail :
  In kw control_keywords ->
  all_space indent = true ->
  trim (control_statement indent kw ws1 cond ws2 tail)
  = kw ++ ws1 ++ js "(" ++ cond ++ js ")" ++ ws2 ++ js "{" ++ trimEnd tail.
Proof.
  intros Hkw Hi. unfold trim, control_statement.
  rewrite trimStart_spaces;
    [|exact Hi
     |simpl in Hkw; destruct Hkw as [<-|[<-|[<-|[<-|[<-|[]]]]]]; reflexivity].
  replace (kw ++ ws1 ++ js "(" ++ cond ++ js ")" ++ ws2 ++ js "{" ++ tail)
    with ((kw ++ ws1 ++ js "(" ++ cond ++ js ")" ++ ws2) ++ "{"%char :: tail)
    by (now rewrite <- !app_assoc).
  rewrite trimEnd_app by reflexivity.
  now rewrite <- !app_assoc.
Qed.

(** X8. [extractFunctions] does not set control statements apart: a
    line that opens an [if], [for], [while], [switch] or [catch] block,
    with its condition in parentheses and the opening brace, gives a
    record named after the keyword, with the condition as its parameter
    text, while [extractFunctionNames] never lists that keyword for the
    same text. *)
Theorem extractFunctions_records_control_statements
        (content filePath language : jsstring) (i : nat)
        (indent kw ws1 cond ws2 tail : jsstring) :
  nth_error (lines_of content) i
  = Some (control_statement indent kw ws1 cond ws2 tail) ->
  In kw control_keywords ->
  all_space indent = true ->
  all_space ws1 = true ->
  includes_char ")" cond = false ->
  all_space ws2 = true ->
  (exists f,
      In f (extractFunctions content filePath language)
      /\ startLine f = i + 1
      /\ fn_name f = kw
      /\ signature f = kw ++ js "(" ++ cond ++ js ")"
      /\ fn_file f = filePath
      /\ i + 1 <= endLine f <= length (lines_of content))
  /\ ~ In kw (extractFunctionNames content language).
Proof.
  intros Hline Hkw Hindent Hws1 Hcond Hws2. split.
  - eapply declared_line_gives_record; [exact Hline|].
    rewrite trim_control_statement by assumption.
    now apply control_statement_in.
  - intros H. unfold extractFunctionNames in H. apply unique_In in H.
    destruct H as [H _]. apply in_flat_map in H.
    destruct H as (line & _ & H). apply in_flat_map in H.
    destruct H as (p & _ & H).
    destruct (first_capture p line) as [n|]; [|destruct H].
    destruct (existsb (jsstring_eqb n) control_keywords) eqn:E; [destruct H|].
    destruct H as [<-|[]].
    apply existsb_jsstring_eqb in Hkw. congruence.
Qed.

Lemma extractFunctions_records_control_statements_witness :
  (exists f,
      In f (extractFunctions (unlines ["if (a) {"; "}"]%string) (js "main.ts")
                             (js "typescript"))
      /\ startLine f = 1
      /\ fn_name f = js "if"
      /\ signature f = js "if(a)"
      /\ fn_file f = js "main.ts"
      /\ 1 <= endLine f <= 2)
  /\ ~ In (js "if")
          (extractFunctionNames (unlines ["if (a) {"; "}"]%string)
                                (js "typescript")).
Proof.
  apply (@extractFunctions_records_control_statements
           (unlines ["if (a) {"; "}"]%string) (js "main.ts") (js "typescript")
           0 [] (js "if") (js " ") (js "a") (js " ") []);
    first [reflexivity | exact (or_introl eq_refl)].
Defined.

(* ================================================================== *)
(** * More properties of text search *)
(* ================================================================== *)

(** A pattern made by [escapeRegex], never used before, tests for the
    text it was made from. *)
Lemma test_Lit g ic q line :
  fst (test (mkRegExp (Lit q) g ic 0) line) = occurs_in ic q line.
Proof.
  unfold test, exec. cbn [global lastIndex ignoreCase source].
  replace (if g then 0 else 0) with 0 by now destruct g.
  cbn [Nat.ltb Nat.leb skipn].
  destruct (scan_from ic (Lit q) 0 line) as [[[b e] c]|] eqn:E.
  - simpl. destruct (occurs_in ic q line) eqn:Eo; [reflexivity|].
    apply (scan_from_Lit_none ic q line 0) in Eo. congruence.
  - simpl. apply scan_from_Lit_none in E. now rewrite E.
Qed.

(** X9. Whatever characters a text holds, the pattern source
    [escapeRegex] makes of it compiles, and the pattern, with or without
    the [g] and [i] flags and not used before, accepts a line exactly when
    the line contains the text as a literal substring, compared as the
    flag says. *)
Theorem escapeRegex_searches_literally
        (compile : jsstring -> option regex) (str : jsstring) (g ic : bool)
        (line : jsstring) :
  exists r,
    RegExp_new compile (escapeRegex str) = Some r
    /\ fst (test (mkRegExp r g ic 0) line) = occurs_in ic str line.
Proof.
  exists (Lit str). split.
  - unfold RegExp_new. now rewrite parse_literal_escapeRegex.
  - apply test_Lit.
Qed.





(** X11. A file pattern that does not compile is met when the first file
    of the index is visited, before any line is searched: the search
    throws the SyntaxError if the index holds a file, whatever the query
    and the limit, and returns no result without complaint if the index
    holds none. *)
Theorem searchCode_invalid_file_pattern
        (compile : jsstring -> option regex) (st : Stores)
        (repoId query : jsstring) (options : SearchOptions)
        (index : RepositoryIndex) (src : jsstring) :
  getIndex st repoId = Some index ->
  truthy_filePattern options = Some src ->
  RegExp_new compile src = None ->
  searchCode compile st repoId query options
  = match files index with
    | [] => Return []
    | _ :: _ => Throw (SyntaxError src)
    end.
Proof.
  intros Hindex Hsrc Hbad.
  rewrite (searchCode_indexed compile st repoId query options Hindex).
  destruct (files index) as [|[path fileContent] rest]; [reflexivity|].
  cbn [search_files]. now rewrite Hsrc, Hbad.
Qed.

Lemma searchCode_invalid_file_pattern_witness :
  searchCode (fun _ => None)
             (stores_with [("main.ts"%string, js "add(1)")])
             (js "github:main:o/n") (js "add")
             (mkSearchOptions (Some (js "(")) None None)
  = Throw (SyntaxError (js "("))
  /\ searchCode (fun _ => None) (stores_with [])
                (js "github:main:o/n") (js "add")
                (mkSearchOptions (Some (js "(")) None None)
     = Return [].
Proof.
  split.
  - exact (@searchCode_invalid_file_pattern
             (fun _ => None) (stores_with [("main.ts"%string, js "add(1)")])
             (js "github:main:o/n") (js "add")
             (mkSearchOptions (Some (js "(")) None None)
             (index_with [("main.ts"%string, js "add(1)")]) (js "(")
             eq_refl eq_refl eq_refl).
  - exact (@searchCode_invalid_file_pattern
             (fun _ => None) (stores_with [])
             (js "github:main:o/n") (js "add")
             (mkSearchOptions (Some (js "(")) None None)
             (index_with []) (js "(")
             eq_refl eq_refl eq_refl).
Defined.

(* ================================================================== *)
(** * The offset carried from line to line *)
(* ================================================================== *)

Lemma scan_from_Lit ic q : forall rest i,
  scan_from ic (Lit q) i rest
  = match first_occurrence ic q rest with
    | Some p => Some (i + p, i + p + length q, [])
    | None => None
    end.
Proof.
  induction rest as [|x t IH]; intros i.
  - cbn [scan_from first_occurrence]. rewrite match_at_Lit.
    destruct (prefix_matches ic q []); [|reflexivity].
    now rewrite Nat.add_0_r.
  - cbn [scan_from first_occurrence]. rewrite match_at_Lit.
    destruct (prefix_matches ic q (x :: t)).
    + now rewrite Nat.add_0_r.
    + rewrite IH. destruct (first_occurrence ic q t) as [p|]; [|reflexivity].
      cbn [option_map]. now rewrite !Nat.add_succ_r.
Qed.

Lemma first_occurrence_occurs ic q s :
  occurs_in ic q s = match first_occurrence ic q s with
                     | Some _ => true
                     | None => false
                     end.
Proof.
  induction s as [|x t IH]; cbn [occurs_in first_occurrence].
  - destruct (prefix_matches ic q []); reflexivity.
  - destruct (prefix_matches ic q (x :: t)); [reflexivity|].
    rewrite IH. now destruct (first_occurrence ic q t).
Qed.

(** What [test] answers for the search pattern, and the offset it
    leaves. *)
Lemma test_carries ic q R line :
  is_searchRegex ic q R ->
  test R line
  = match occurrence_from ic q (lastIndex R) line with
    | Some p => (true, set_lastIndex R (lastIndex R + p + length q))
    | None => (false, set_lastIndex R 0)
    end.
Proof.
  intros (Hs & Hg & Hi). unfold test, exec, occurrence_from.
  rewrite Hs, Hg, Hi.
  destruct (lastIndex R <=? length line) eqn:E.
  - apply Nat.leb_le in E.
    replace (length line <? lastIndex R) with false
      by (symmetry; apply Nat.ltb_ge; exact E).
    rewrite scan_from_Lit.
    now destruct (first_occurrence ic q (skipn (lastIndex R) line)).
  - apply Nat.leb_gt in E.
    replace (length line <? lastIndex R) with true
      by (symmetry; apply Nat.ltb_lt; exact E).
    reflexivity.
Qed.

(** X12. The search pattern of [searchCode] is global, so it carries an
    offset from one line to the next.  A turn of the loop over the lines
    of a file reports the line exactly when the query occurs in it at or
    after the offset carried; after a line that is reported the offset is
    the end of the occurrence found, and after a line that is not it is
    0.  So a line that contains the query is missed when it follows a
    reported line and contains the query only before the offset at which
    the match in that line ended. *)
Theorem search_lines_carries_the_offset
        (ic : bool) (query filePath line : jsstring) (lim : Z) (i : nat)
        (rest : list jsstring) (results : list SearchResult) (R : RegExp) :
  is_searchRegex ic query R ->
  search_lines filePath lim i (line :: rest) results R
  = match occurrence_from ic query (lastIndex R) line with
    | Some p =>
        if (Z.of_nat (length (results ++ [hit filePath i line])) >=? lim)%Z
        then Returned (results ++ [hit filePath i line])
        else search_lines filePath lim (S i) rest
                          (results ++ [hit filePath i line])
                          (set_lastIndex R (lastIndex R + p + length query))
    | None =>
        search_lines filePath lim (S i) rest results (set_lastIndex R 0)
    end
  /\ is_searchRegex ic query (snd (test R line))
  /\ (occurrence_from ic query 0 line = None <->
      occurs_in ic query line = false).
Proof.
  intros HR. split; [|split].
  - cbn [search_lines]. rewrite (test_carries line HR).
    now destruct (occurrence_from ic query (lastIndex R) line).
  - now destruct (test_searchRegex line HR).
  - unfold occurrence_from. cbn [Nat.leb skipn].
    rewrite first_occurrence_occurs.
    destruct (first_occurrence ic query line); split; congruence.
Qed.

Lemma search_lines_carries_the_offset_witness :
  search_lines (js "main.ts") 50 0 [js "add(1, 2)"; js "add"; js "x add"] []
               (mkRegExp (Lit (js "add")) true true 0)
  = Running [hit (js "main.ts") 0 (js "add(1, 2)");
             hit (js "main.ts") 2 (js "x add")]
            (mkRegExp (Lit (js "add")) true true 5).
Proof.
  pose proof (@search_lines_carries_the_offset
                true (js "add") (js "main.ts") (js "add(1, 2)") 50 0
                [js "add"; js "x add"] []
                (mkRegExp (Lit (js "add")) true true 0)
                (conj eq_refl (conj eq_refl eq_refl))) as H.
  destruct H as [H _]. rewrite H. reflexivity.
Defined.

(* ================================================================== *)
(** * More properties of the indexing pass *)
(* ================================================================== *)

Lemma In_set (V : Type) (m : JsMap.Map V) k v k' v' :
  In (k, v) (JsMap.set k' v' m) -> In (k, v) m \/ (k = k' /\ v = v').
Proof.
  induction m as [|[k0 v0] m IH]; simpl.
  - intros [[= <- <-]|[]]. now right.
  - destruct (jsstring_eqb k' k0) eqn:E.
    + apply jsstring_eqb_eq in E. subst k0.
      intros [[= <- <-]|H]; [now right|left; now right].
    + intros [H|H]; [left; now left|].
      destruct (IH H) as [H'|H']; [left; now right|now right].
Qed.

Lemma set_table_of (A : Type) (f : FileContent -> A) k v fs :
  JsMap.set k (f v) (table_of f fs) = table_of f (JsMap.set k v fs).
Proof.
  unfold table_of. induction fs as [|[k0 v0] fs IH]; simpl; [reflexivity|].
  destruct (jsstring_eqb k k0); simpl; [reflexivity|]. now rewrite IH.
Qed.

Lemma index_file_read co t filePath text :
  readFile co filePath = Some text ->
  index_file co t filePath
  = mkTables (JsMap.set filePath (file_record filePath text) (t_files t))
             (set_functions filePath
                (extractFunctions text filePath
                   (language_of (toLowerCase (Path.extname filePath))))
                (t_functions t))
             (JsMap.set filePath (fc_imports (file_record filePath text))
                        (t_imports t))
             (JsMap.set filePath (fc_exports (file_record filePath text))
                        (t_exports t))
             (S (processed t)).
Proof. intros H. unfold index_file. now rewrite H. Qed.

Lemma index_file_unreadable co t filePath :
  readFile co filePath = None -> index_file co t filePath = t.
Proof. intros H. unfold index_file. now rewrite H. Qed.

(** What the files table holds under a path after a run of the loop. *)
Lemma fold_index_file_get co path l : forall t,
  JsMap.get path (t_files (fold_left (index_file co) l t))
  = match readFile co path with
    | Some text =>
        if existsb (jsstring_eqb path) l then Some (file_record path text)
        else JsMap.get path (t_files t)
    | None => JsMap.get path (t_files t)
    end.
Proof.
  induction l as [|f l IH]; intros t.
  - simpl. now destruct (readFile co path).
  - cbn [fold_left existsb]. rewrite IH.
    destruct (jsstring_eqb path f) eqn:E.
    + apply jsstring_eqb_eq in E. subst f.
      destruct (readFile co path) as [text|] eqn:Er.
      * rewrite (index_file_read co t path Er). cbn [t_files orb].
        rewrite get_set_same. now destruct (existsb (jsstring_eqb path) l).
      * now rewrite (index_file_unreadable co t path Er).
    + assert (Hne : path <> f).
      { intros ->. now rewrite jsstring_eqb_refl in E. }
      assert (Hget : JsMap.get path (t_files (index_file co t f))
                     = JsMap.get path (t_files t)).
      { destruct (readFile co f) as [text|] eqn:Er.
        - rewrite (index_file_read co t f Er). cbn [t_files].
          now apply get_set_other.
        - now rewrite (index_file_unreadable co t f Er). }
      rewrite Hget. reflexivity.
Qed.

(** The import and export tables follow the files table. *)
Lemma fold_index_file_tables co l : forall t,
  t_imports t = table_of fc_imports (t_files t) ->
  t_exports t = table_of fc_exports (t_files t) ->
  t_imports (fold_left (index_file co) l t)
  = table_of fc_imports (t_files (fold_left (index_file co) l t))
  /\ t_exports (fold_left (index_file co) l t)
     = table_of fc_exports (t_files (fold_left (index_file co) l t)).
Proof.
  induction l as [|f l IH]; intros t Hi He; [now split|].
  cbn [fold_left]. apply IH.
  - destruct (readFile co f) as [text|] eqn:Er.
    + rewrite (index_file_read co t f Er). cbn [t_imports t_files].
      now rewrite Hi, set_table_of.
    + now rewrite (index_file_unreadable co t f Er).
  - destruct (readFile co f) as [text|] eqn:Er.
    + rewrite (index_file_read co t f Er). cbn [t_exports t_files].
      now rewrite He, set_table_of.
    + now rewrite (index_file_unreadable co t f Er).
Qed.

(** Where an entry of the functions table comes from. *)
Lemma set_functions_In filePath fns : forall m key fn,
  In (key, fn) (set_functions filePath fns m) ->
  In (key, fn) m
  \/ (In fn fns /\ key = filePath ++ js ":" ++ fn_name fn).
Proof.
  unfold set_functions.
  induction fns as [|g fns IH]; intros m key fn H; [now left|].
  cbn [fold_left] in H. apply IH in H. destruct H as [H|[H1 H2]].
  - apply In_set in H. destruct H as [H|[-> ->]]; [now left|].
    right. split; [now left|reflexivity].
  - right. split; [now right|assumption].
Qed.

Lemma fold_index_file_functions co l : forall t key fn,
  In (key, fn) (t_functions (fold_left (index_file co) l t)) ->
  In (key, fn) (t_functions t)
  \/ (In (fn_file fn) l
      /\ key = fn_file fn ++ js ":" ++ fn_name fn
      /\ exists text,
           readFile co (fn_file fn) = Some text
           /\ In fn (extractFunctions text (fn_file fn)
                       (language (file_record (fn_file fn) text)))).
Proof.
  induction l as [|f l IH]; intros t key fn H; [now left|].
  cbn [fold_left] in H. apply IH in H.
  destruct H as [H|(H1 & H2 & H3)].
  - destruct (readFile co f) as [text|] eqn:Er.
    + rewrite (index_file_read co t f Er) in H. cbn [t_functions] in H.
      apply set_functions_In in H. destruct H as [H|[Hin Hkey]]; [now left|].
      assert (Hfile : fn_file fn = f).
      { assert (Hwf : Forall (well_formed_record f)
                        (extractFunctions text f
                           (language_of (toLowerCase (Path.extname f))))).
        { unfold extractFunctions. apply close_at_end_well_formed.
          apply (@extract_loop_well_formed f (lines_of text) 0
                   (mkExtractState [] None 0 false)).
          constructor. }
        rewrite Forall_forall in Hwf. now destruct (Hwf fn Hin). }
      right. rewrite Hfile. split; [now left|]. split; [assumption|].
      exists text. split; assumption.
    + rewrite (index_file_unreadable co t f Er) in H. now left.
  - right. split; [now right|]. split; assumption.
Qed.

Lemma code_extension_language ext :
  In ext CODE_EXTENSIONS -> language_of ext <> js "unknown".
Proof.
  assert (H : forallb (fun e => negb (jsstring_eqb (language_of e) (js "unknown")))
                      CODE_EXTENSIONS = true) by (vm_compute; reflexivity).
  rewrite forallb_forall in H. intros Hin He. specialize (H ext Hin).
  rewrite He, jsstring_eqb_refl in H. discriminate H.
Qed.

Section IndexTheorems.

Variable glob_match : jsstring -> jsstring -> bool.

Lemma indexRepository_Return st repoId co now st' index :
  indexRepository glob_match st repoId co now = Return (st', index) ->
  exists repo,
    getRepository st repoId = Some repo
    /\ index
       = mkRepositoryIndex
           (mkRepository (id repo) (remote repo) (owner repo) (name repo)
                         (branch repo) (localPath repo) ready
                         (processed (index_files glob_match co))
                         (length (codeFiles glob_match co)) (Some now)
                         (error_message repo))
           (t_files (index_files glob_match co))
           (t_functions (index_files glob_match co))
           (t_imports (index_files glob_match co))
           (t_exports (index_files glob_match co))
    /\ st' = mkStores (JsMap.set repoId (repository index) (repositoryStore st))
                      (JsMap.set repoId index (indexStore st)).
Proof.
  unfold indexRepository, getRepository.
  destruct (JsMap.get repoId (repositoryStore st)) as [repo|]; [|discriminate].
  intros [= <- <-]. exists repo. repeat split.
Qed.

Lemma index_files_get co path :
  JsMap.get path (t_files (index_files glob_match co))
  = match readFile co path with
    | Some text =>
        if existsb (jsstring_eqb path) (codeFiles glob_match co)
        then Some (file_record path text)
        else None
    | None => None
    end.
Proof. unfold index_files. now rewrite fold_index_file_get. Qed.

End IndexTheorems.

(** X13. [indexRepository] on a key that is not registered throws
    [Repository <key> not found in store] and nothing else.  On a
    registered key it returns, and afterwards the key is bound in both
    stores: to the index returned, and to the repository record of that
    index, which is [ready], carries the time of the pass, counts the code
    files found and those read, never more read than found, and keeps the
    identity it had; so the handlers no longer take the repository for
    not ready.  Every other key of either store is bound as before, and
    the repository store lists the same keys in the same order. *)
Theorem indexRepository_registers_the_index
        (glob_match : jsstring -> jsstring -> bool) (st : Stores)
        (repoId : jsstring) (co : Checkout) (now : nat) :
  match getRepository st repoId with
  | None =>
      indexRepository glob_match st repoId co now
      = Throw (Error (js "Repository " ++ repoId ++ js " not found in store"))
  | Some repo =>
      exists st' index,
        indexRepository glob_match st repoId co now = Return (st', index)
        /\ getIndex st' repoId = Some index
        /\ getRepository st' repoId = Some (repository index)
        /\ status (repository index) = ready
        /\ indexedAt (repository index) = Some now
        /\ totalFiles (repository index) = length (codeFiles glob_match co)
        /\ filesProcessed (repository index)
           = length (filter (readable co) (codeFiles glob_match co))
        /\ filesProcessed (repository index) <= totalFiles (repository index)
        /\ identity (repository index) = identity repo
        /\ not_ready st' repoId = false
        /\ (forall other, other <> repoId ->
              getRepository st' other = getRepository st other
              /\ getIndex st' other = getIndex st other)
        /\ JsMap.keys (repositoryStore st') = JsMap.keys (repositoryStore st)
  end.
Proof.
  destruct (getRepository st repoId) as [repo|] eqn:Hrepo.
  - unfold indexRepository. unfold getRepository in Hrepo. rewrite Hrepo.
    eexists. eexists. split; [reflexivity|].
    assert (Hp : processed (index_files glob_match co)
                 = length (filter (readable co) (codeFiles glob_match co))).
    { unfold index_files. now rewrite index_files_processed. }
    unfold getIndex, getRepository, not_ready, getRepository, identity.
    cbn [indexStore repositoryStore repository status indexedAt totalFiles
         filesProcessed id remote owner name branch localPath].
    rewrite !get_set_same. cbn [status Status_eqb negb].
    repeat split.
    + exact Hp.
    + rewrite Hp. apply filter_length_le.
    + now apply get_set_other.
    + now apply get_set_other.
    + eapply keys_set_present. exact Hrepo.
  - unfold indexRepository. unfold getRepository in Hrepo. now rewrite Hrepo.
Qed.

(** X14. After [indexRepository], [getFileContent] gives back what the
    pass read: for a code file of the checkout that could be read, the
    record of that path with the text read, the number of its lines, a
    language of the language table (never [unknown]) and the three lists
    extracted from the text; for every other path, nothing. *)
Theorem indexRepository_then_getFileContent
        (glob_match : jsstring -> jsstring -> bool) (st st' : Stores)
        (repoId : jsstring) (co : Checkout) (now : nat)
        (index : RepositoryIndex) (path : jsstring) :
  indexRepository glob_match st repoId co now = Return (st', index) ->
  match readFile co path with
  | Some text =>
      if existsb (jsstring_eqb path) (codeFiles glob_match co) then
        getFileContent st' repoId path = Return (Some (file_record path text))
        /\ fc_path (file_record path text) = path
        /\ content (file_record path text) = text
        /\ lines (file_record path text) = length (lines_of text)
        /\ language (file_record path text) <> js "unknown"
      else getFileContent st' repoId path = Return None
  | None => getFileContent st' repoId path = Return None
  end.
Proof.
  intros H. apply indexRepository_Return in H.
  destruct H as (repo & Hrepo & Hindex & ->).
  assert (Hget : getFileContent
                   (mkStores
                      (JsMap.set repoId (repository index) (repositoryStore st))
                      (JsMap.set repoId index (indexStore st)))
                   repoId path
                 = Return (JsMap.get path (t_files (index_files glob_match co)))).
  { unfold getFileContent. cbn [indexStore]. rewrite get_set_same.
    now rewrite Hindex. }
  rewrite Hget, index_files_get.
  destruct (readFile co path) as [text|]; [|reflexivity].
  destruct (existsb (jsstring_eqb path) (codeFiles glob_match co)) eqn:E;
    [|reflexivity].
  repeat split.
  apply existsb_jsstring_eqb in E. unfold codeFiles in E.
  apply filter_In in E. destruct E as [_ E]. unfold is_code_file in E.
  apply andb_true_iff in E. destruct E as [E _].
  apply existsb_exists in E. destruct E as (ext & Hext & He).
  apply jsstring_eqb_eq in He. cbn [language file_record]. rewrite He.
  now apply code_extension_language.
Qed.

Lemma indexRepository_then_getFileContent_witness :
  getFileContent (fst sample_indexed) (js "github:main:o/n") (js "main.ts")
  = Return (Some (file_record (js "main.ts") add_source))
  /\ getFileContent (fst sample_indexed) (js "github:main:o/n")
                    (js "node_modules/x.ts")
     = Return None.
Proof.
  split.
  - exact (proj1 (@indexRepository_then_getFileContent
                    sample_glob sample_stores (fst sample_indexed)
                    (js "github:main:o/n") sample_checkout 0
                    (snd sample_indexed) (js "main.ts") eq_refl)).
  - exact (@indexRepository_then_getFileContent
             sample_glob sample_stores (fst sample_indexed)
             (js "github:main:o/n") sample_checkout 0
             (snd sample_indexed) (js "node_modules/x.ts") eq_refl).
Defined.

(** X15. In the index [indexRepository] returns, the import table and
    the export table are the files table seen through the import list and
    the export list of each record: the same paths in the same order.
    Every entry of the functions table is a record [extractFunctions]
    gives for the text of an indexed file, under the key [file:name] made
    of the path and the name of the record. *)
Theorem index_tables_agree
        (glob_match : jsstring -> jsstring -> bool) (st st' : Stores)
        (repoId : jsstring) (co : Checkout) (now : nat)
        (index : RepositoryIndex) :
  indexRepository glob_match st repoId co now = Return (st', index) ->
  imports index = table_of fc_imports (files index)
  /\ exports index = table_of fc_exports (files index)
  /\ forall key fn,
       In (key, fn) (functions index) ->
       key = fn_file fn ++ js ":" ++ fn_name fn
       /\ exists fileContent,
            JsMap.get (fn_file fn) (files index) = Some fileContent
            /\ In fn (extractFunctions (content fileContent) (fn_file fn)
                                       (language fileContent)).
Proof.
  intros H. apply indexRepository_Return in H.
  destruct H as (repo & Hrepo & -> & _). cbn [imports exports files functions].
  destruct (fold_index_file_tables co (codeFiles glob_match co)
              (mkTables JsMap.empty JsMap.empty JsMap.empty JsMap.empty 0)
              eq_refl eq_refl) as [Hi He].
  split; [exact Hi|]. split; [exact He|].
  intros key fn Hin. unfold index_files in Hin.
  apply fold_index_file_functions in Hin.
  destruct Hin as [[]|(Hfile & Hkey & text & Hread & Hfn)].
  split; [exact Hkey|].
  exists (file_record (fn_file fn) text). split; [|exact Hfn].
  rewrite index_files_get, Hread.
  apply existsb_jsstring_eqb in Hfile. now rewrite Hfile.
Qed.

Lemma index_tables_agree_witness :
  imports (snd sample_indexed)
  = table_of fc_imports (files (snd sample_indexed))
  /\ exports (snd sample_indexed)
     = table_of fc_exports (files (snd sample_indexed)).
Proof.
  destruct (@index_tables_agree sample_glob sample_stores (fst sample_indexed)
              (js "github:main:o/n") sample_checkout 0 (snd sample_indexed)
              eq_refl) as (Hi & He & _).
  split; assumption.
Defined.

(** The paths of the files table after a run of the loop: those it had,
    then the files read, each where it was first read. *)
Lemma fold_index_file_keys co l : forall t,
  JsMap.keys (t_files (fold_left (index_file co) l t))
  = JsMap.keys (t_files t)
    ++ unique (JsMap.keys (t_files t)) (filter (readable co) l).
Proof.
  induction l as [|f l IH]; intros t.
  - simpl. now rewrite app_nil_r.
  - cbn [fold_left filter]. rewrite IH. unfold readable at 2.
    destruct (readFile co f) as [text|] eqn:Er.
    + rewrite (index_file_read co t f Er). cbn [t_files unique].
      destruct (JsMap.get f (t_files t)) as [old|] eqn:Eg.
      * rewrite keys_set_present with (old := old) by exact Eg.
        replace (existsb (jsstring_eqb f) (JsMap.keys (t_files t))) with true;
          [reflexivity|].
        symmetry. apply existsb_jsstring_eqb. eapply get_in_keys. exact Eg.
      * rewrite keys_set_absent by exact Eg.
        assert (Hnot : ~ In f (JsMap.keys (t_files t))).
        { intros H. clear - Eg H. induction (t_files t) as [|[k v] m IHm];
            [destruct H|].
          cbn [JsMap.get] in Eg.
          destruct (jsstring_eqb f k) eqn:E; [discriminate|].
          destruct H as [H|H]; [|now apply IHm].
          cbn [fst] in H. subst k. now rewrite jsstring_eqb_refl in E. }
        replace (existsb (jsstring_eqb f) (JsMap.keys (t_files t))) with false
          by (symmetry; now apply existsb_jsstring_eqb_false).
        rewrite <- app_assoc. cbn [app]. f_equal. f_equal.
        apply unique_seen. intros x. rewrite in_app_iff. simpl. tauto.
    + now rewrite (index_file_unreadable co t f Er).
Qed.

(** X16. The files table of the index lists the code files of the
    checkout that could be read, each once, in the order in which the
    checkout lists them; it is the order in which [searchCode] visits
    them.  When the checkout lists no file twice, these are all the code
    files read, as many as [filesProcessed] counts. *)
Theorem index_files_in_checkout_order
        (glob_match : jsstring -> jsstring -> bool) (st st' : Stores)
        (repoId : jsstring) (co : Checkout) (now : nat)
        (index : RepositoryIndex) :
  indexRepository glob_match st repoId co now = Return (st', index) ->
  JsMap.keys (files index)
  = unique [] (filter (readable co) (codeFiles glob_match co))
  /\ NoDup (JsMap.keys (files index))
  /\ (NoDup (allFiles co) ->
      JsMap.keys (files index)
      = filter (readable co) (codeFiles glob_match co)
      /\ length (files index) = filesProcessed (repository index)).
Proof.
  intros H. apply indexRepository_Return in H.
  destruct H as (repo & _ & -> & _). cbn [files repository filesProcessed].
  assert (Hkeys : JsMap.keys (t_files (index_files glob_match co))
                  = unique [] (filter (readable co) (codeFiles glob_match co))).
  { unfold index_files. now rewrite fold_index_file_keys. }
  split; [exact Hkeys|]. split; [rewrite Hkeys; apply unique_NoDup|].
  intros Hnd.
  assert (Hsame : unique [] (filter (readable co) (codeFiles glob_match co))
                  = filter (readable co) (codeFiles glob_match co)).
  { apply unique_distinct; [|intros x _ []].
    apply NoDup_filter. unfold codeFiles. now apply NoDup_filter. }
  split; [now rewrite Hkeys|].
  replace (length (t_files (index_files glob_match co)))
    with (length (JsMap.keys (t_files (index_files glob_match co))))
    by (unfold JsMap.keys; apply length_map).
  rewrite Hkeys, Hsame. unfold index_files.
  now rewrite index_files_processed.
Qed.

Lemma index_files_in_checkout_order_witness :
  JsMap.keys (files (snd sample_indexed)) = [js "main.ts"].
Proof.
  exact (proj1 (@index_files_in_checkout_order
                  sample_glob sample_stores (fst sample_indexed)
                  (js "github:main:o/n") sample_checkout 0
                  (snd sample_indexed) eq_refl)).
Defined.

(* ================================================================== *)
(** * Indexing again *)
(* ================================================================== *)

Lemma set_set_same (V : Type) (m : JsMap.Map V) k v v' :
  JsMap.set k v' (JsMap.set k v m) = JsMap.set k v' m.
Proof.
  induction m as [|[k0 v0] m IH]; simpl.
  - now rewrite jsstring_eqb_refl.
  - destruct (jsstring_eqb k k0) eqn:E; simpl; rewrite E; [reflexivity|].
    now rewrite IH.
Qed.

(** X17. Indexing a repository again builds its index from nothing:
    after a first pass, a second pass over a checkout returns the tables
    of that checkout alone, whatever the first pass had found, and binds
    the key to the new index in place of the old.  Over the same checkout
    it returns the same tables and the same record but for the time, and
    at the same time it leaves both stores exactly as they were. *)
Theorem indexRepository_again
        (glob_match : jsstring -> jsstring -> bool) (st st1 : Stores)
        (repoId : jsstring) (co co' : Checkout) (now now' : nat)
        (index1 : RepositoryIndex) :
  indexRepository glob_match st repoId co now = Return (st1, index1) ->
  exists st2 index2,
    indexRepository glob_match st1 repoId co' now' = Return (st2, index2)
    /\ getIndex st2 repoId = Some index2
    /\ files index2 = t_files (index_files glob_match co')
    /\ functions index2 = t_functions (index_files glob_match co')
    /\ imports index2 = t_imports (index_files glob_match co')
    /\ exports index2 = t_exports (index_files glob_match co')
    /\ identity (repository index2) = identity (repository index1)
    /\ JsMap.keys (repositoryStore st2) = JsMap.keys (repositoryStore st1)
    /\ JsMap.keys (indexStore st2) = JsMap.keys (indexStore st1)
    /\ (co' = co ->
        files index2 = files index1 /\ functions index2 = functions index1
        /\ imports index2 = imports index1 /\ exports index2 = exports index1
        /\ (now' = now -> index2 = index1 /\ st2 = st1)).
Proof.
  intros H. apply indexRepository_Return in H.
  destruct H as (repo & Hrepo & Hindex & ->).
  unfold indexRepository. cbn [repositoryStore]. rewrite get_set_same.
  eexists. eexists. split; [reflexivity|].
  unfold getIndex. cbn [indexStore files functions imports exports repository].
  rewrite get_set_same. rewrite !set_set_same.
  unfold getRepository in Hrepo.
  repeat split.
  - cbn [repositoryStore].
    now rewrite !keys_set_present with (old := repo) by exact Hrepo.
  - cbn [indexStore].
    destruct (JsMap.get repoId (indexStore st)) as [old|] eqn:E.
    + now rewrite !keys_set_present with (old := old) by exact E.
    + now rewrite !keys_set_absent by exact E.
  - subst co'. now rewrite Hindex.
  - subst co'. now rewrite Hindex.
  - subst co'. now rewrite Hindex.
  - subst co'. now rewrite Hindex.
  - subst co' now'. now rewrite Hindex.
  - subst co' now'. now rewrite Hindex.
Qed.

Lemma indexRepository_again_witness :
  indexRepository sample_glob (fst scenario_indexed) (js "github:main:o/n")
                  scenario_checkout 0
  = Return scenario_indexed.
Proof.
  destruct (@indexRepository_again
              sample_glob sample_stores (fst scenario_indexed)
              (js "github:main:o/n") scenario_checkout scenario_checkout 0 0
              (snd scenario_indexed) eq_refl)
    as (st2 & index2 & Hrun & _ & _ & _ & _ & _ & _ & _ & _ & Hsame).
  destruct (Hsame eq_refl) as (_ & _ & _ & _ & Hnow).
  destruct (Hnow eq_refl) as [-> ->]. exact Hrun.
Defined.

(* ================================================================== *)
(** * Registering a repository *)
(* ================================================================== *)

(** X18. [setRepository] under a key that is not bound yet registers
    the record at the end of the store: [listRepositories], which lists
    the records in the order of their registration, gains it as its last
    element; the key is then bound to the record, every other key is
    bound as before, and the index store is untouched. *)
Theorem setRepository_registers_at_the_end
        (st : Stores) (repoId : jsstring) (repo : Repository) :
  getRepository st repoId = None ->
  listRepositories (setRepository st repoId repo) = listRepositories st ++ [repo]
  /\ getRepository (setRepository st repoId repo) repoId = Some repo
  /\ (forall other, other <> repoId ->
        getRepository (setRepository st repoId repo) other
        = getRepository st other)
  /\ indexStore (setRepository st repoId repo) = indexStore st.
Proof.
  intros Hnew. unfold listRepositories, getRepository, setRepository in *.
  cbn [repositoryStore indexStore]. split; [|split; [|split]].
  - induction (repositoryStore st) as [|[k v] m IH]; [reflexivity|].
    simpl in *. destruct (jsstring_eqb repoId k); [discriminate|].
    simpl. now rewrite IH.
  - apply get_set_same.
  - intros other Hother. now apply get_set_other.
  - reflexivity.
Qed.

Lemma setRepository_registers_at_the_end_witness :
  listRepositories (setRepository sample_stores (js "gitlab:dev:a/b")
                                  (sample_repository ready))
  = [sample_repository pending; sample_repository ready].
Proof.
  exact (proj1 (@setRepository_registers_at_the_end
                  sample_stores (js "gitlab:dev:a/b") (sample_repository ready)
                  eq_refl)).
Defined.

(* ================================================================== *)
(** * Splitting and joining lines *)
(* ================================================================== *)

Lemma split_on_nonempty sep s : split_on sep s <> [].
Proof.
  destruct s as [|c t]; simpl; [discriminate|].
  destruct (Ascii.eqb c sep); [discriminate|].
  destruct (split_on sep t); discriminate.
Qed.

(** Joining the lines of a text gives the text back. *)
Lemma join_lines_of s : join [LF] (lines_of s) = s.
Proof.
  unfold lines_of, LF. induction s as [|c t IH]; [reflexivity|].
  cbn [split_on].
  pose proof (@split_on_nonempty "010"%char t) as Hne.
  destruct (Ascii.eqb c "010"%char) eqn:E.
  - apply Ascii.eqb_eq in E. subst c.
    destruct (split_on "010"%char t) as [|f fs]; [contradiction|].
    change (join ["010"%char] ([] :: f :: fs))
      with ("010"%char :: join ["010"%char] (f :: fs)).
    now rewrite IH.
  - destruct (split_on "010"%char t) as [|f fs]; [contradiction|].
    rewrite <- IH. destruct fs; reflexivity.
Qed.

Lemma split_on_one_field sep x :
  includes_char sep x = false -> split_on sep x = [x].
Proof.
  unfold includes_char. induction x as [|c x IH]; [reflexivity|].
  simpl. intros H. apply orb_false_iff in H. destruct H as [Hc Hx].
  rewrite Ascii.eqb_sym, Hc, (IH Hx). reflexivity.
Qed.

Lemma split_on_app_sep sep x r :
  includes_char sep x = false ->
  split_on sep (x ++ sep :: r) = x :: split_on sep r.
Proof.
  unfold includes_char. induction x as [|c x IH]; simpl.
  - intros _. now rewrite Ascii.eqb_refl.
  - intros H. apply orb_false_iff in H. destruct H as [Hc Hx].
    rewrite Ascii.eqb_sym, Hc, (IH Hx). reflexivity.
Qed.

(** Splitting joined lines gives the lines back, when there is at least
    one and none holds a line break. *)
Lemma lines_of_join ls :
  ls <> [] -> forallb one_line ls = true -> lines_of (join [LF] ls) = ls.
Proof.
  unfold lines_of, one_line, LF.
  induction ls as [|x ls IH]; intros Hne H; [contradiction|].
  cbn [forallb] in H. apply andb_true_iff in H. destruct H as [Hx Hls].
  apply negb_true_iff in Hx.
  destruct ls as [|y ls].
  - cbn [join]. now apply split_on_one_field.
  - change (join ["010"%char] (x :: y :: ls))
      with (x ++ "010"%char :: join ["010"%char] (y :: ls)).
    rewrite split_on_app_sep by exact Hx.
    rewrite IH; [reflexivity|discriminate|exact Hls].
Qed.

Lemma split_on_fields sep s : forallb (fun f => negb (includes_char sep f))
                                      (split_on sep s) = true.
Proof.
  induction s as [|c t IH]; [reflexivity|].
  cbn [split_on]. destruct (Ascii.eqb c sep) eqn:E.
  - cbn [forallb]. rewrite IH. reflexivity.
  - destruct (split_on sep t) as [|f fs].
    { unfold includes_char. cbn [forallb existsb].
      now rewrite Ascii.eqb_sym, E. }
    cbn [forallb] in *. apply andb_true_iff in IH. destruct IH as [Hf Hfs].
    rewrite Hfs, andb_true_r. unfold includes_char in *. cbn [existsb].
    rewrite Ascii.eqb_sym, E. exact Hf.
Qed.

Lemma lines_of_one_line s : forallb one_line (lines_of s) = true.
Proof. apply split_on_fields. Qed.

Lemma forallb_firstn (A : Type) (p : A -> bool) n : forall l,
  forallb p l = true -> forallb p (firstn n l) = true.
Proof.
  induction n as [|n IH]; intros [|x l] H; try reflexivity.
  simpl in *. apply andb_true_iff in H. destruct H as [Hx Hl].
  now rewrite Hx, IH.
Qed.

Lemma forallb_skipn (A : Type) (p : A -> bool) n : forall l,
  forallb p l = true -> forallb p (skipn n l) = true.
Proof.
  induction n as [|n IH]; intros [|x l] H; try reflexivity; try exact H.
  simpl in *. apply andb_true_iff in H. destruct H as [Hx Hl]. now apply IH.
Qed.

Lemma slice_length (A : Type) (s e : nat) (l : list A) :
  e <= length l -> length (slice s e l) = e - s.
Proof.
  intros H. unfold slice. rewrite length_firstn, length_skipn. lia.
Qed.

Lemma slice_nth_error (A : Type) (s e k : nat) (l : list A) :
  k < e - s -> nth_error (slice s e l) k = nth_error l (s + k).
Proof.
  intros H. unfold slice. rewrite nth_error_firstn.
  replace (k <? e - s) with true by (symmetry; apply Nat.ltb_lt; exact H).
  apply nth_error_skipn.
Qed.

Lemma slice_whole (A : Type) (e : nat) (l : list A) :
  length l <= e -> slice 0 e l = l.
Proof. intros H. unfold slice. rewrite Nat.sub_0_r. simpl. now apply firstn_all2. Qed.

(** The lines of a range that lies within the text. *)
Lemma lines_of_selected content s e :
  1 <= s -> s <= e -> e <= length (lines_of content) ->
  lines_of (selected_lines content s e) = slice (s - 1) e (lines_of content).
Proof.
  intros H1 H2 H3. unfold selected_lines. apply lines_of_join.
  - intros H. apply (f_equal (@length _)) in H.
    rewrite slice_length in H by exact H3. simpl in H. lia.
  - unfold slice. apply forallb_firstn, forallb_skipn, lines_of_one_line.
Qed.

(* ================================================================== *)
(** * Properties of the file handler *)
(* ================================================================== *)

Lemma truncate_short text :
  (length text <=? FILE_CONTENT_LIMIT) = true -> truncate text = text.
Proof.
  intros H. unfold truncate. apply Nat.leb_le in H.
  replace (FILE_CONTENT_LIMIT <? length text) with false; [reflexivity|].
  symmetry. apply Nat.ltb_ge. exact H.
Qed.

(** X19. A request for the lines [s] to [e] of a file of a ready,
    indexed repository, with [1 <= s <= e] and [e] no more than the number
    of lines, is answered with those lines and no others: the text handed
    to the formatter splits into the [e - s + 1] lines numbered [s] to [e]
    of the file, provided it is within the length limit; the path, the
    language of the file and the start line [s] go with it. *)
Theorem file_handler_serves_the_line_range
        (st : Stores) (repo : RepositoryRef) (file_path : jsstring)
        (s e : nat) (index : RepositoryIndex) (fileContent : FileContent) :
  not_ready st (repoId_of repo) = false ->
  getIndex st (repoId_of repo) = Some index ->
  JsMap.get file_path (files index) = Some fileContent ->
  1 <= s -> s <= e -> e <= length (lines_of (content fileContent)) ->
  (length (selected_lines (content fileContent) s e) <=? FILE_CONTENT_LIMIT)
  = true ->
  git_get_file_content st repo file_path (Some s) (Some e)
  = Formatted (mkFileView file_path
                          (selected_lines (content fileContent) s e)
                          (language fileContent) s)
  /\ length (lines_of (selected_lines (content fileContent) s e)) = e - s + 1
  /\ forall k, k < e - s + 1 ->
       nth_error (lines_of (selected_lines (content fileContent) s e)) k
       = nth_error (lines_of (content fileContent)) (s - 1 + k).
Proof.
  intros Hready Hindex Hfile H1 H2 H3 Hfits.
  split; [|split].
  - unfold git_get_file_content, getFileContent. rewrite Hready.
    unfold getIndex in Hindex. rewrite Hindex, Hfile.
    destruct s as [|s']; [lia|]. destruct e as [|e']; [lia|].
    unfold line_range, line_or. cbn [truthy_line].
    fold (selected_lines (content fileContent) (S s') (S e')).
    now rewrite (truncate_short _ Hfits).
  - rewrite lines_of_selected by assumption.
    rewrite slice_length by assumption. lia.
  - intros k Hk. rewrite lines_of_selected by assumption.
    apply slice_nth_error. lia.
Qed.

Lemma file_handler_serves_the_line_range_witness :
  git_get_file_content (stores_with [("main.ts"%string, three_lines)])
                       sample_ref (js "main.ts") (Some 2) (Some 3)
  = Formatted (mkFileView (js "main.ts") (unlines ["b"; "c"]%string)
                          (js "typescript") 2).
Proof.
  exact (proj1 (@file_handler_serves_the_line_range
                  (stores_with [("main.ts"%string, three_lines)])
                  sample_ref (js "main.ts") 2 3
                  (index_with [("main.ts"%string, three_lines)])
                  (file_record (js "main.ts") three_lines)
                  eq_refl eq_refl eq_refl
                  (le_S _ _ (le_n 1)) (le_S _ _ (le_n 2)) (le_n 3) eq_refl)).
Defined.

(** X20. At the edges of a line range the file handler never fails.  A
    range that ends before it starts, or starts after the last line, is
    answered with the empty text; a range that ends at or beyond the last
    line is answered with the lines from its start to the last line; a
    range without a start runs from line 1, and a range without an end
    runs to the last line. *)
Theorem file_handler_line_range_edges
        (st : Stores) (repo : RepositoryRef) (file_path : jsstring)
        (s e : nat) (index : RepositoryIndex) (fileContent : FileContent) :
  not_ready st (repoId_of repo) = false ->
  getIndex st (repoId_of repo) = Some index ->
  JsMap.get file_path (files index) = Some fileContent ->
  1 <= s -> 1 <= e ->
  (e < s \/ length (lines_of (content fileContent)) < s ->
   git_get_file_content st repo file_path (Some s) (Some e)
   = Formatted (mkFileView file_path [] (language fileContent) s))
  /\ (s <= length (lines_of (content fileContent)) ->
      length (lines_of (content fileContent)) <= e ->
      lines_of (selected_lines (content fileContent) s e)
      = skipn (s - 1) (lines_of (content fileContent))
      /\ ((length (selected_lines (content fileContent) s e)
           <=? FILE_CONTENT_LIMIT) = true ->
          git_get_file_content st repo file_path (Some s) (Some e)
          = Formatted (mkFileView file_path
                                  (selected_lines (content fileContent) s e)
                                  (language fileContent) s)))
  /\ git_get_file_content st repo file_path None (Some e)
     = git_get_file_content st repo file_path (Some 1) (Some e)
  /\ git_get_file_content st repo file_path (Some s) None
     = git_get_file_content st repo file_path (Some s)
         (Some (length (lines_of (content fileContent)))).
Proof.
  intros Hready Hindex Hfile H1 H2.
  assert (Hanswer : forall start_line end_line,
             git_get_file_content st repo file_path start_line end_line
             = Formatted
                 (mkFileView file_path
                    (truncate (line_range (content fileContent)
                                          start_line end_line))
                    (language fileContent) (line_or 1 start_line))).
  { intros start_line end_line. unfold git_get_file_content, getFileContent.
    rewrite Hready. unfold getIndex in Hindex. now rewrite Hindex, Hfile. }
  assert (Hrange : line_range (content fileContent) (Some s) (Some e)
                   = selected_lines (content fileContent) s e).
  { destruct s as [|s']; [lia|]. destruct e as [|e']; [lia|]. reflexivity. }
  assert (Hs : line_or 1 (Some s) = s) by (destruct s; [lia|reflexivity]).
  assert (Hn : 1 <= length (lines_of (content fileContent))).
  { destruct (lines_of (content fileContent)) eqn:E; [|simpl; lia].
    exfalso. now apply (@split_on_nonempty "010"%char (content fileContent)). }
  split; [|split; [|split]].
  - intros Hempty. rewrite Hanswer, Hrange, Hs.
    assert (Hnone : selected_lines (content fileContent) s e = []).
    { unfold selected_lines, slice. destruct Hempty as [He|He].
      - replace (e - (s - 1)) with 0 by lia. reflexivity.
      - rewrite skipn_all2 by lia. now rewrite firstn_nil. }
    rewrite Hnone. unfold truncate.
    replace (FILE_CONTENT_LIMIT <? length (@nil ascii)) with false;
      [reflexivity|].
    symmetry. apply Nat.ltb_ge. simpl. lia.
  - intros Hstart Hend.
    assert (Hslice : slice (s - 1) e (lines_of (content fileContent))
                     = skipn (s - 1) (lines_of (content fileContent))).
    { unfold slice. apply firstn_all2. rewrite length_skipn. lia. }
    split.
    + unfold selected_lines. rewrite Hslice. apply lines_of_join.
      * intros H. apply (f_equal (@length _)) in H.
        rewrite length_skipn in H. simpl in H. lia.
      * apply forallb_skipn, lines_of_one_line.
    + intros Hfits. rewrite Hanswer, Hrange, Hs.
      now rewrite (truncate_short _ Hfits).
  - rewrite !Hanswer. destruct e as [|e']; [lia|]. reflexivity.
  - rewrite !Hanswer.
    destruct (length (lines_of (content fileContent))) as [|n] eqn:En; [lia|].
    destruct s as [|s']; [lia|].
    unfold line_range, line_or. cbn [truthy_line]. now rewrite En.
Qed.

Lemma file_handler_line_range_edges_witness :
  git_get_file_content (stores_with [("main.ts"%string, three_lines)])
                       sample_ref (js "main.ts") (Some 3) (Some 2)
  = Formatted (mkFileView (js "main.ts") [] (js "typescript") 3).
Proof.
  exact (proj1 (@file_handler_line_range_edges
                  (stores_with [("main.ts"%string, three_lines)])
                  sample_ref (js "main.ts") 3 2
                  (index_with [("main.ts"%string, three_lines)])
                  (file_record (js "main.ts") three_lines)
                  eq_refl eq_refl eq_refl
                  (le_S _ _ (le_S _ _ (le_n 1))) (le_S _ _ (le_n 1)))
               (or_introl (le_n 3))).
Defined.

(** X21. After [indexRepository] on the key of a repository reference,
    the file handler serves what the pass read.  For a code file that was
    read, a request without a line range, and one for the range from line
    1 to the last line, are both answered with the text read, cut to the
    length limit: whole when it is within the limit, and otherwise its
    first [FILE_CONTENT_LIMIT] characters followed by the truncation
    note.  For any other path the answer is the plain text [File not
    found], not an error. *)
Theorem file_handler_serves_the_indexed_text
        (glob_match : jsstring -> jsstring -> bool) (st st' : Stores)
        (repo : RepositoryRef) (co : Checkout) (now : nat)
        (index : RepositoryIndex) (path : jsstring) :
  indexRepository glob_match st (repoId_of repo) co now = Return (st', index) ->
  match readFile co path with
  | Some text =>
      if existsb (jsstring_eqb path) (codeFiles glob_match co) then
        git_get_file_content st' repo path None None
        = Formatted (mkFileView path (truncate text)
                                (language (file_record path text)) 1)
        /\ git_get_file_content st' repo path (Some 1)
                                (Some (length (lines_of text)))
           = Formatted (mkFileView path (truncate text)
                                   (language (file_record path text)) 1)
        /\ ((length text <=? FILE_CONTENT_LIMIT) = true -> truncate text = text)
        /\ ((length text <=? FILE_CONTENT_LIMIT) = false ->
            truncate text = firstn FILE_CONTENT_LIMIT text ++ truncation_note)
      else git_get_file_content st' repo path None None = file_not_found path
  | None => git_get_file_content st' repo path None None = file_not_found path
  end.
Proof.
  intros H. apply indexRepository_Return in H.
  destruct H as (repo0 & Hrepo & Hindex & ->).
  assert (Hready : not_ready
                     (mkStores (JsMap.set (repoId_of repo) (repository index)
                                          (repositoryStore st))
                               (JsMap.set (repoId_of repo) index (indexStore st)))
                     (repoId_of repo) = false).
  { unfold not_ready, getRepository. cbn [repositoryStore].
    rewrite get_set_same, Hindex. reflexivity. }
  assert (Hget : forall s e,
             git_get_file_content
               (mkStores (JsMap.set (repoId_of repo) (repository index)
                                    (repositoryStore st))
                         (JsMap.set (repoId_of repo) index (indexStore st)))
               repo path s e
             = match JsMap.get path (t_files (index_files glob_match co)) with
               | None => file_not_found path
               | Some fileContent =>
                   Formatted
                     (mkFileView path
                        (truncate (line_range (content fileContent) s e))
                        (language fileContent) (line_or 1 s))
               end).
  { intros s e. unfold git_get_file_content, getFileContent. rewrite Hready.
    cbn [indexStore]. rewrite get_set_same, Hindex. reflexivity. }
  rewrite !Hget, index_files_get.
  destruct (readFile co path) as [text|] eqn:Hread; [|reflexivity].
  destruct (existsb (jsstring_eqb path) (codeFiles glob_match co)) eqn:Hcode;
    [|reflexivity].
  split; [reflexivity|]. split; [|split].
  - destruct (length (lines_of text)) as [|n] eqn:En.
    { exfalso. apply (split_on_nonempty LF text).
      now apply length_zero_iff_nil. }
    rewrite Hget, index_files_get, Hread, Hcode.
    unfold line_range, line_or. cbn [truthy_line content file_record].
    cbn [Nat.sub]. rewrite <- En, slice_whole by lia.
    now rewrite join_lines_of.
  - apply truncate_short.
  - intros Hlong. unfold truncate. apply Nat.leb_gt in Hlong.
    replace (FILE_CONTENT_LIMIT <? length text) with true; [reflexivity|].
    symmetry. now apply Nat.ltb_lt.
Qed.

Lemma file_handler_serves_the_indexed_text_witness :
  git_get_file_content (fst scenario_indexed) sample_ref (js "main.ts")
                       None None
  = Formatted (mkFileView (js "main.ts") add_source (js "typescript") 1)
  /\ git_get_file_content (fst scenario_indexed) sample_ref (js "other.ts")
                          None None
     = file_not_found (js "other.ts").
Proof.
  pose proof (@file_handler_serves_the_indexed_text
                sample_glob sample_stores (fst scenario_indexed) sample_ref
                scenario_checkout 0 (snd scenario_indexed) (js "main.ts")
                eq_refl) as H1.
  pose proof (@file_handler_serves_the_indexed_text
                sample_glob sample_stores (fst scenario_indexed) sample_ref
                scenario_checkout 0 (snd scenario_indexed) (js "other.ts")
                eq_refl) as H2.
  split.
  - destruct H1 as (H1 & _ & Hshort & _). rewrite H1.
    pose proof (Hshort eq_refl) as Hs.
    change (truncate add_source = add_source) in Hs. now rewrite Hs.
  - exact H2.
Defined.

(* ================================================================== *)
(** * Properties of the function handler *)
(* ================================================================== *)

Lemma declarations_In ls : forall k l n params,
  In (l, n, params) (declarations k ls) ->
  exists i line,
    l = k + i + 1 /\ nth_error ls i = Some line
    /\ declaration_in functionPatterns (trim line) = Some (n, params).
Proof.
  induction ls as [|line rest IH]; intros k l n params H; [destruct H|].
  rewrite declarations_cons in H. apply in_app_or in H. destruct H as [H|H].
  - cbn [declarations] in H.
    destruct (declaration_in functionPatterns (trim line)) as [[n' p']|] eqn:E;
      [|destruct H].
    destruct H as [[= <- <- <-]|[]]. exists 0, line.
    rewrite Nat.add_0_r. repeat split. exact E.
  - apply IH in H. destruct H as (i & line' & -> & Hn & Hd).
    exists (S i), line'. repeat split; [lia|exact Hn|exact Hd].
Qed.

(** What every record of [extractFunctions] says of its text. *)
Lemma extractFunctions_record text filePath language fn :
  In fn (extractFunctions text filePath language) ->
  span_within (length (lines_of text)) fn
  /\ fn_file fn = filePath
  /\ exists line params,
       nth_error (lines_of text) (startLine fn - 1) = Some line
       /\ declaration_in functionPatterns (trim line) = Some (fn_name fn, params).
Proof.
  intros Hin.
  assert (Hspan : Forall (span_within (length (lines_of text)))
                         (extractFunctions text filePath language)).
  { unfold extractFunctions. apply close_at_end_spans.
    apply (extract_loop_invariant filePath (lines_of text) (i := 0)).
    split; [constructor|discriminate]. }
  assert (Hwf : Forall (well_formed_record filePath)
                       (extractFunctions text filePath language)).
  { unfold extractFunctions. apply close_at_end_well_formed.
    apply (@extract_loop_well_formed filePath (lines_of text) 0
             (mkExtractState [] None 0 false)).
    constructor. }
  assert (Ho : map opening (extractFunctions text filePath language)
               = map opened_by (declarations 0 (lines_of text))).
  { unfold extractFunctions. rewrite close_at_end_open_record.
    rewrite map_app, map_opening_with_endLine, <- map_app.
    now rewrite extract_loop_opening. }
  rewrite Forall_forall in Hspan, Hwf.
  split; [now apply Hspan|]. split; [now destruct (Hwf fn Hin)|].
  apply (in_map opening) in Hin. rewrite Ho in Hin.
  apply in_map_iff in Hin. destruct Hin as ([[l n] params] & Hd & Hin).
  apply declarations_In in Hin. destruct Hin as (i & line & -> & Hn & Hdecl).
  unfold opened_by, opening in Hd. injection Hd as Hs Hname _.
  exists line, params. replace (startLine fn - 1) with i by lia.
  rewrite <- Hname. now split.
Qed.

Lemma hd_error_slice (A : Type) (s e : nat) (l : list A) :
  s < e -> hd_error (slice s e l) = nth_error l s.
Proof.
  intros H. replace (hd_error (slice s e l)) with (nth_error (slice s e l) 0)
    by now destruct (slice s e l).
  rewrite slice_nth_error by lia. now rewrite Nat.add_0_r.
Qed.

Section FunctionHandler.

Variable glob_match : jsstring -> jsstring -> bool.

(** An entry of the functions table of a fresh index. *)
Lemma indexed_function st repoId co now st' index key fn :
  indexRepository glob_match st repoId co now = Return (st', index) ->
  In (key, fn) (functions index) ->
  key = fn_file fn ++ js ":" ++ fn_name fn
  /\ exists text,
       JsMap.get (fn_file fn) (files index)
       = Some (file_record (fn_file fn) text)
       /\ In fn (extractFunctions text (fn_file fn)
                   (language (file_record (fn_file fn) text))).
Proof.
  intros H Hin. apply indexRepository_Return in H.
  destruct H as (repo & _ & -> & _). cbn [files functions] in *.
  unfold index_files in Hin. apply fold_index_file_functions in Hin.
  destruct Hin as [[]|(Hfile & Hkey & text & Hread & Hfn)].
  split; [exact Hkey|]. exists text. split; [|exact Hfn].
  rewrite index_files_get, Hread.
  apply existsb_jsstring_eqb in Hfile. now rewrite Hfile.
Qed.

Lemma function_views_of_indexed st repoId co now st' index function_name
      file_path matches :
  indexRepository glob_match st repoId co now = Return (st', index) ->
  incl matches (function_matches function_name file_path (functions index)) ->
  map fv_info (function_views index matches) = map snd matches
  /\ Forall (view_of_indexed_function index function_name file_path)
            (function_views index matches).
Proof.
  intros Hrun. induction matches as [|[key fn] ms IH]; intros Hincl.
  - split; [reflexivity|constructor].
  - assert (Hin : In (key, fn)
                     (function_matches function_name file_path (functions index)))
      by (apply Hincl; now left).
    assert (Hms : incl ms (function_matches function_name file_path
                                            (functions index)))
      by (intros x Hx; apply Hincl; now right).
    destruct (IH Hms) as [IHm IHf].
    unfold function_matches in Hin. apply filter_In in Hin.
    destruct Hin as [Hin Hsel]. cbn [fst snd] in Hsel.
    apply andb_true_iff in Hsel. destruct Hsel as [Hname Hpath].
    apply jsstring_eqb_eq in Hname.
    pose proof Hin as Hentry. eapply indexed_function in Hentry; [|exact Hrun].
    destruct Hentry as (Hkey & text & Hget & Hfn).
    destruct (extractFunctions_record _ _ _ _ Hfn)
      as (Hspan & _ & line & params & Hline & Hdecl).
    cbn [function_views flat_map snd]. rewrite Hget. cbn [app map fv_info].
    fold (function_views index ms). rewrite IHm. split; [reflexivity|].
    constructor; [|exact IHf].
    unfold view_of_indexed_function. cbn [fv_info fv_content fv_language].
    destruct Hspan as (Hs1 & Hs2 & Hs3).
    assert (Hlines : lines_of (join [LF] (slice (startLine fn - 1) (endLine fn)
                                                (lines_of text)))
                     = slice (startLine fn - 1) (endLine fn) (lines_of text)).
    { apply lines_of_join.
      - intros H. apply (f_equal (@length _)) in H.
        rewrite slice_length in H by exact Hs3. simpl in H. lia.
      - unfold slice. apply forallb_firstn, forallb_skipn, lines_of_one_line. }
    split; [exact Hname|]. split; [now rewrite <- Hkey|].
    exists (file_record (fn_file fn) text), line, params.
    cbn [content file_record language].
    split; [exact Hget|]. split; [reflexivity|].
    split; [repeat split; assumption|].
    split; [exact Hlines|]. split.
    + rewrite Hlines, hd_error_slice by lia. exact Hline.
    + now rewrite <- Hname.
Qed.

End FunctionHandler.

(** X22. After [indexRepository] on the key of a repository reference,
    the function handler answers a request for a function name, with or
    without a file path, in one of two ways and never with an error.  If
    no entry of the functions table has that name and a key that starts
    with the file path, it answers [Function '<name>' not found].
    Otherwise it hands its formatter one view for each such entry, in the
    order of the table: the record of the entry, the language of its
    file, and as text the lines of the file from the start line to the
    end line of the record, the first of which is the line that declares
    the function. *)
Theorem function_handler_shows_indexed_functions
        (glob_match : jsstring -> jsstring -> bool) (st st' : Stores)
        (repo : RepositoryRef) (co : Checkout) (now : nat)
        (index : RepositoryIndex) (function_name : jsstring)
        (file_path : option jsstring) :
  indexRepository glob_match st (repoId_of repo) co now = Return (st', index) ->
  match function_matches function_name file_path (functions index) with
  | [] =>
      git_analyze_function st' repo function_name file_path
      = function_not_found function_name
  | m :: ms =>
      exists views,
        git_analyze_function st' repo function_name file_path = Formatted views
        /\ map fv_info views = map snd (m :: ms)
        /\ Forall (view_of_indexed_function index function_name file_path) views
  end.
Proof.
  intros Hrun.
  assert (Hindex : getIndex st' (repoId_of repo) = Some index).
  { pose proof Hrun as H. apply indexRepository_Return in H.
    destruct H as (repo0 & _ & _ & ->). unfold getIndex. cbn [indexStore].
    apply get_set_same. }
  unfold git_analyze_function. rewrite Hindex.
  destruct (function_matches function_name file_path (functions index))
    as [|m ms] eqn:Em; [reflexivity|].
  exists (function_views index (m :: ms)). split; [reflexivity|].
  eapply function_views_of_indexed; [exact Hrun|].
  rewrite Em. apply incl_refl.
Qed.

Lemma function_handler_shows_indexed_functions_witness :
  exists views,
    git_analyze_function (fst scenario_indexed) sample_ref (js "add") None
    = Formatted views
    /\ map fv_info views = [add_record]
    /\ Forall (view_of_indexed_function (snd scenario_indexed) (js "add") None)
              views.
Proof.
  exact (@function_handler_shows_indexed_functions
           sample_glob sample_stores (fst scenario_indexed) sample_ref
           scenario_checkout 0 (snd scenario_indexed) (js "add") None eq_refl).
Defined.

(* ================================================================== *)
(** * More properties of the search handler *)
(* ================================================================== *)

Section SearchHandlerFacts.

Variable compile : jsstring -> option regex.





End SearchHandlerFacts.


(* ================================================================== *)
(** * More properties of the keyword query *)
(* ================================================================== *)

Section QueryFacts.

Variable compile : jsstring -> option regex.

(** What a search without a file pattern returns, and how it fails. *)
Lemma searchCode_plain_results st repoId query cs lim rs :
  searchCode compile st repoId query (mkSearchOptions None cs lim) = Return rs ->
  exists index,
    getIndex st repoId = Some index
    /\ forall r, In r rs ->
         exists path fileContent i line,
           In (path, fileContent) (files index)
           /\ nth_error (lines_of (content fileContent)) i = Some line
           /\ occurs_in (flag_i (mkSearchOptions None cs lim)) query line = true
           /\ r = mkSearchResult path (i + 1) (trim line) exact 10.
Proof.
  intros H. destruct (getIndex st repoId) as [index|] eqn:Hindex.
  - exists index. split; [reflexivity|].
    rewrite (searchCode_indexed compile st repoId query _ Hindex) in H.
    apply search_files_items in H.
    set (options := mkSearchOptions None cs lim) in *.
    set (R := mkRegExp (Lit query) true (flag_i options) 0) in *.
    assert (HR : is_searchRegex (flag_i options) query R) by (now repeat split).
    destruct (@scan_items_sound (flag_i options) query (effective_limit options)
                (items_of compile options (files index)) [] R HR)
      as [extra [He Hsub]].
    rewrite <- H in He. simpl in He. subst extra.
    rewrite items_of_hits in Hsub.
    intros r Hr. apply (subseq_In r Hsub) in Hr.
    apply expected_hits_In in Hr.
    destruct Hr as (path & fileContent & i & line & H1 & _ & H3 & H4 & H5).
    exists path, fileContent, i, line. repeat split; assumption.
  - unfold searchCode in H. unfold getIndex in Hindex. rewrite Hindex in H.
    discriminate H.
Qed.

Lemma searchCode_plain_throws st repoId query cs lim e :
  searchCode compile st repoId query (mkSearchOptions None cs lim) = Throw e ->
  getIndex st repoId = None
  /\ e = Error (js "Repository " ++ repoId ++ js " not indexed").
Proof.
  intros H. destruct (getIndex st repoId) as [index|] eqn:Hindex.
  - rewrite (searchCode_indexed compile st repoId query _ Hindex) in H.
    destruct (search_files_returns compile (mkSearchOptions None cs lim)
                (effective_limit (mkSearchOptions None cs lim)) (files index) []
                (mkRegExp (Lit query) true
                          (flag_i (mkSearchOptions None cs lim)) 0)
                eq_refl) as [rs Hrs].
    rewrite Hrs in H. discriminate H.
  - unfold searchCode in H. unfold getIndex in Hindex. rewrite Hindex in H.
    injection H as <-. now split.
Qed.

Lemma query_keywords_justified st all_keywords repositories repo :
  In repo repositories ->
  not_ready st (repoId_of repo) = false ->
  forall keywords allResults all,
    incl keywords all_keywords ->
    Forall (query_hit_justified st all_keywords repositories) allResults ->
    query_keywords compile st (repoId_of repo) keywords allResults = Return all ->
    Forall (query_hit_justified st all_keywords repositories) all.
Proof.
  intros Hrepo Hready.
  induction keywords as [|keyword rest IH]; intros allResults all Hincl Hall H.
  - simpl in H. injection H as <-. exact Hall.
  - cbn [query_keywords] in H.
    destruct (searchCode compile st (repoId_of repo) keyword
                         (mkSearchOptions None None (Some 10%Z)))
      as [results|e] eqn:Es; [|discriminate].
    apply IH in H; [exact H| |].
    + intros k Hk. apply Hincl. now right.
    + apply Forall_app. split; [exact Hall|].
      apply searchCode_plain_results in Es. destruct Es as (index & Hindex & Hrs).
      apply Forall_forall. intros h Hh. apply in_map_iff in Hh.
      destruct Hh as (r & <- & Hr).
      destruct (Hrs r Hr) as (path & fileContent & i & line & H1 & H2 & H3 & ->).
      exists repo, keyword, index, fileContent, line.
      cbn [q_repoId q_file q_line q_content sr_file sr_line sr_content].
      repeat split; try assumption.
      * apply Hincl. now left.
      * lia.
      * now replace (i + 1 - 1) with i by lia.
Qed.

Lemma query_keywords_throws st repoId : forall keywords allResults e,
  query_keywords compile st repoId keywords allResults = Throw e ->
  keywords <> [] /\ getIndex st repoId = None
  /\ e = Error (js "Repository " ++ repoId ++ js " not indexed").
Proof.
  induction keywords as [|keyword rest IH]; intros allResults e H;
    [discriminate|].
  split; [discriminate|]. cbn [query_keywords] in H.
  destruct (searchCode compile st repoId keyword
                       (mkSearchOptions None None (Some 10%Z)))
    as [results|e'] eqn:Es.
  - apply IH in H. now destruct H as (_ & H1 & H2).
  - injection H as <-. now apply searchCode_plain_throws in Es.
Qed.

Lemma query_repositories_justified st keywords all_repositories :
  forall repositories allResults all,
    incl repositories all_repositories ->
    Forall (query_hit_justified st keywords all_repositories) allResults ->
    query_repositories compile st keywords repositories allResults = Return all ->
    Forall (query_hit_justified st keywords all_repositories) all.
Proof.
  induction repositories as [|repo rest IH]; intros allResults all Hincl Hall H.
  - simpl in H. injection H as <-. exact Hall.
  - cbn [query_repositories] in H.
    assert (Hrest : incl rest all_repositories)
      by (intros r Hr; apply Hincl; now right).
    destruct (not_ready st (repoId_of repo)) eqn:Hready.
    + now apply IH in H.
    + destruct (query_keywords compile st (repoId_of repo) keywords allResults)
        as [allResults'|e] eqn:Ek; [|discriminate].
      apply IH in H; [exact H|exact Hrest|].
      eapply query_keywords_justified; [| |apply incl_refl| |exact Ek];
        [apply Hincl; now left|exact Hready|exact Hall].
Qed.

Lemma query_repositories_throws st keywords :
  forall repositories allResults e,
    query_repositories compile st keywords repositories allResults = Throw e ->
    query_failure st keywords repositories e.
Proof.
  induction repositories as [|repo rest IH]; intros allResults e H;
    [discriminate|].
  cbn [query_repositories] in H.
  assert (Hlater : forall e',
             query_failure st keywords rest e' ->
             query_failure st keywords (repo :: rest) e').
  { intros e' (Hk & r & Hr & H1 & H2 & H3). split; [exact Hk|].
    exists r. repeat split; try assumption. now right. }
  destruct (not_ready st (repoId_of repo)) eqn:Hready.
  - apply Hlater. eapply IH. exact H.
  - destruct (query_keywords compile st (repoId_of repo) keywords allResults)
      as [allResults'|e'] eqn:Ek.
    + apply Hlater. eapply IH. exact H.
    + injection H as <-. apply query_keywords_throws in Ek.
      destruct Ek as (Hk & Hindex & ->). split; [exact Hk|].
      exists repo. repeat split; try assumption. now left.
Qed.

End QueryFacts.

(** X24. Every hit the query handler hands to its formatter comes from
    a requested repository that is ready and indexed, and from a keyword
    of the query: it names a line of an indexed file of that repository
    that contains the keyword, whatever the case, and carries the trimmed
    line.  The handler answers with an error in one case only: a
    requested repository is ready but has no index, and the query has a
    keyword; the error is then [Repository <key> not indexed]. *)
Theorem query_handler_hits_are_justified
        (compile : jsstring -> option regex) (st : Stores) (query : jsstring)
        (repositories : list RepositoryRef) :
  match git_query_codebase compile st query repositories with
  | Content hits =>
      Forall (query_hit_justified st (extractKeywords query) repositories) hits
  | IsError prefix e =>
      prefix = js "Error querying codebase: "
      /\ query_failure st (extractKeywords query) repositories e
  end.
Proof.
  unfold git_query_codebase.
  destruct (query_repositories compile st (extractKeywords query) repositories [])
    as [allResults|e] eqn:E.
  - apply query_repositories_justified with (all_repositories := repositories)
      in E; [|apply incl_refl|constructor].
    rewrite Forall_forall in *. intros h Hh. apply E.
    unfold deduplicateResults in Hh.
    exact (subseq_In h (dedup_from_subseq allResults []) Hh).
  - split; [reflexivity|]. eapply query_repositories_throws. exact E.
Qed.

(** Results that are already distinct pass the filter untouched. *)
Lemma dedup_from_distinct results : forall seen,
  NoDup (map dedup_key results) ->
  (forall x, In x results ->
             existsb (jsstring_eqb (dedup_key x)) seen = false) ->
  dedup_from seen results = results.
Proof.
  induction results as [|r rest IH]; intros seen Hnd Hfresh; [reflexivity|].
  cbn [dedup_from]. rewrite (Hfresh r (or_introl eq_refl)).
  inversion Hnd as [|k ks Hnotin Hnd']; subst. f_equal. apply IH; [exact Hnd'|].
  intros x Hx. cbn [existsb].
  rewrite (Hfresh x (or_intror Hx)), orb_false_r.
  destruct (jsstring_eqb (dedup_key x) (dedup_key r)) eqn:E; [|reflexivity].
  apply jsstring_eqb_eq in E. exfalso. apply Hnotin. rewrite <- E.
  now apply in_map.
Qed.

(** X25. [deduplicateResults] changes nothing the second time: applied
    to its own result it returns that result, and a list whose hits all
    have different keys it returns as it is. *)
Theorem deduplicateResults_idempotent (results : list QueryHit) :
  deduplicateResults (deduplicateResults results) = deduplicateResults results
  /\ (NoDup (map dedup_key results) -> deduplicateResults results = results).
Proof.
  split.
  - unfold deduplicateResults. apply dedup_from_distinct.
    + apply dedup_from_NoDup.
    + reflexivity.
  - intros H. unfold deduplicateResults. now apply dedup_from_distinct.
Qed.

(** ** The keywords are words of the query *)








(* ================================================================== *)
(** * Properties of the Markdown of the query results *)
(* ================================================================== *)

Lemma byFile_keys results : forall groups k,
  In k (JsMap.keys (byFile results groups)) ->
  In k (JsMap.keys groups) \/ In k (map group_key results).
Proof.
  induction results as [|r rest IH]; intros groups k H; [now left|].
  cbn [byFile] in H. apply IH in H. destruct H as [H|H]; [|right; now right].
  apply keys_set_incl in H. destruct H as [->|H]; [right; now left|].
  destruct (JsMap.get (group_key r) groups); [now left|].
  apply keys_set_incl in H. destruct H as [->|H]; [right; now left|now left].
Qed.

Lemma Remote_string_plain r : includes_char ":" (Remote_string r) = false.
Proof. now destruct r. Qed.

(** The second field of the key of a group is the branch. *)
Lemma group_heading_branch repo file :
  plain_branch repo = true ->
  group_heading (repoId_of repo ++ js ":" ++ file) = ref_branch repo.
Proof.
  intros H. unfold plain_branch in H. apply negb_true_iff in H.
  unfold group_heading, split2, repoId_of, generateRepoId.
  cbn [js list_ascii_of_string]. rewrite <- !app_assoc. cbn [app].
  rewrite split_on_app_sep by apply Remote_string_plain.
  rewrite split_on_app_sep by exact H.
  reflexivity.
Qed.

(** X27. In the Markdown of the query results, the heading of a group
    of hits is the second of the fields of the group key [repoId:file]
    that the colons separate.  The key of a repository starts with the
    remote and the branch, so for the hits of the query handler, when the
    branches of the requested repositories hold no colon, every heading
    is the branch of the repository of the group, not the path of the
    file. *)
Theorem query_markdown_headings_are_branches
        (compile : jsstring -> option regex) (st : Stores) (query : jsstring)
        (repositories : list RepositoryRef) :
  forallb plain_branch repositories = true ->
  match git_query_codebase compile st query repositories with
  | Content hits => Forall (heading_is_branch repositories) (byFile hits [])
  | IsError _ _ => True
  end.
Proof.
  intros Hplain. unfold git_query_codebase.
  destruct (query_repositories compile st (extractKeywords query) repositories [])
    as [allResults|e] eqn:E; [|exact I].
  apply query_repositories_justified with (all_repositories := repositories)
    in E; [|apply incl_refl|constructor].
  rewrite Forall_forall in *. intros [key members] Hin.
  assert (Hkey : In key (JsMap.keys (byFile (deduplicateResults allResults) [])))
    by (apply in_map_iff; now exists (key, members)).
  apply byFile_keys in Hkey. destruct Hkey as [[]|Hkey].
  apply in_map_iff in Hkey. destruct Hkey as (h & <- & Hh).
  unfold deduplicateResults in Hh.
  apply (subseq_In h (dedup_from_subseq allResults [])) in Hh.
  destruct (E h Hh) as (repo & _ & _ & _ & _ & Hrepo & Hid & _).
  exists repo, (q_file h). cbn [fst]. unfold group_key. rewrite Hid.
  assert (Hhead : group_heading (repoId_of repo ++ js ":" ++ q_file h)
                  = ref_branch repo).
  { apply group_heading_branch. rewrite forallb_forall in Hplain.
    now apply Hplain. }
  split; [exact Hrepo|]. split; [reflexivity|]. split; [exact Hhead|].
  unfold group_markdown. cbn [fst snd]. rewrite Hhead.
  eexists. reflexivity.
Qed.

Lemma query_markdown_headings_are_branches_witness :
  Forall (heading_is_branch [sample_ref])
         (byFile [mkQueryHit (js "github:main:o/n") (js "main.ts") 1 add_source]
                 []).
Proof.
  exact (@query_markdown_headings_are_branches
           (fun _ => None) (stores_with [("main.ts"%string, add_source)])
           (js "How does add work?") [sample_ref] eq_refl).
Defined.

(* ================================================================== *)
(** * The groups of the Markdown *)
(* ================================================================== *)

Lemma set_absent (V : Type) (m : JsMap.Map V) k v :
  JsMap.get k m = None -> JsMap.set k v m = m ++ [(k, v)].
Proof.
  induction m as [|[k0 v0] m IH]; simpl; [reflexivity|].
  destruct (jsstring_eqb k k0); [discriminate|].
  intros H. now rewrite IH.
Qed.

Lemma members_of_other k r rest :
  group_key r <> k -> members_of k (r :: rest) = members_of k rest.
Proof.
  intros H. unfold members_of. cbn [filter].
  destruct (jsstring_eqb (group_key r) k) eqn:E; [|reflexivity].
  apply jsstring_eqb_eq in E. contradiction.
Qed.

Lemma members_of_same r rest :
  members_of (group_key r) (r :: rest) = r :: members_of (group_key r) rest.
Proof. unfold members_of. cbn [filter]. now rewrite jsstring_eqb_refl. Qed.

(** A hit whose group exists joins it. *)
Lemma grow_present r rest : forall gs ms,
  NoDup (JsMap.keys gs) ->
  JsMap.get (group_key r) gs = Some ms ->
  map (fun e => (fst e, snd e ++ members_of (fst e) rest))
      (JsMap.set (group_key r) (ms ++ [r]) gs)
  = map (fun e => (fst e, snd e ++ members_of (fst e) (r :: rest))) gs.
Proof.
  induction gs as [|[k0 v0] gs IH]; intros ms Hnd Hget; [discriminate|].
  cbn [JsMap.keys map fst] in Hnd. inversion Hnd as [|? ? Hnotin Hnd']; subst.
  cbn [JsMap.get JsMap.set] in *.
  destruct (jsstring_eqb (group_key r) k0) eqn:E.
  - apply jsstring_eqb_eq in E. subst k0. injection Hget as <-.
    cbn [map fst snd]. rewrite members_of_same, <- app_assoc. cbn [app]. f_equal.
    apply map_ext_in. intros [k v] Hin. cbn [fst snd].
    rewrite members_of_other; [reflexivity|].
    intros <-. apply Hnotin. apply in_map_iff. now exists (group_key r, v).
  - cbn [map fst snd]. rewrite members_of_other.
    + f_equal. now apply IH.
    + intros H. rewrite H, jsstring_eqb_refl in E. discriminate.
Qed.

(** The groups of a list of hits, made from groups that exist. *)
Lemma byFile_from results : forall gs,
  NoDup (JsMap.keys gs) ->
  byFile results gs
  = map (fun e => (fst e, snd e ++ members_of (fst e) results)) gs
    ++ map (fun k => (k, members_of k results))
           (unique (JsMap.keys gs) (map group_key results)).
Proof.
  induction results as [|r rest IH]; intros gs Hnd.
  - cbn [byFile map unique]. rewrite app_nil_r.
    rewrite <- (map_id gs) at 1. apply map_ext. intros [k v].
    cbn [fst snd members_of filter]. now rewrite app_nil_r.
  - cbn [byFile map unique].
    destruct (JsMap.get (group_key r) gs) as [ms|] eqn:Hget.
    + rewrite Hget.
      assert (Hin : existsb (jsstring_eqb (group_key r)) (JsMap.keys gs)
                    = true).
      { apply existsb_jsstring_eqb. eapply get_in_keys. exact Hget. }
      rewrite Hin, IH.
      * rewrite keys_set_present with (old := ms) by exact Hget.
        rewrite grow_present by assumption. f_equal.
        apply map_ext_in. intros k Hk. apply unique_In in Hk.
        destruct Hk as [_ Hk]. rewrite members_of_other; [reflexivity|].
        intros <-. apply Hk. eapply get_in_keys. exact Hget.
      * now rewrite keys_set_present with (old := ms) by exact Hget.
    + rewrite get_set_same. cbn [app]. rewrite set_set_same.
      assert (Hnotin : ~ In (group_key r) (JsMap.keys gs)).
      { intros H. apply in_map_iff in H. destruct H as ([k v] & Hk & H).
        cbn [fst] in Hk. subst k.
        clear - Hget H. induction gs as [|[k0 v0] gs IH];
          [destruct H|].
        cbn [JsMap.get] in Hget.
        destruct (jsstring_eqb (group_key r) k0) eqn:E; [discriminate|].
        destruct H as [[= -> _]|H]; [now rewrite jsstring_eqb_refl in E|].
        now apply IH. }
      assert (Hout : existsb (jsstring_eqb (group_key r)) (JsMap.keys gs)
                     = false) by now apply existsb_jsstring_eqb_false.
      rewrite Hout, set_absent by exact Hget. rewrite IH.
      * unfold JsMap.keys. rewrite !map_app. cbn [map fst snd].
        rewrite <- app_assoc. cbn [app]. f_equal.
        { apply map_ext_in. intros [k v] Hin. cbn [fst snd].
          rewrite members_of_other; [reflexivity|].
          intros <-. apply Hnotin. apply in_map_iff.
          now exists (group_key r, v). }
        rewrite members_of_same. f_equal.
        rewrite (unique_seen (map group_key rest)
                   (map fst gs ++ [group_key r])
                   (group_key r :: map fst gs)).
        { apply map_ext_in. intros k Hk. apply unique_In in Hk.
          destruct Hk as [_ Hk]. rewrite members_of_other; [reflexivity|].
          intros <-. apply Hk. now left. }
        intros x. rewrite in_app_iff. simpl. tauto.
      * unfold JsMap.keys. rewrite map_app. cbn [map fst].
        apply NoDup_app; [exact Hnd|repeat constructor; intros []|].
        intros x Hx [<-|[]]. now apply Hnotin.
Qed.

(** X28. The Markdown of the query results groups the hits by the key
    [repoId:file]: the groups come in the order in which their keys first
    occur among the hits, no key twice, and each group holds all the hits
    of its key, in their order; no hit is lost and no group is empty.
    For a list that is not empty, the text is the heading with the number
    of all hits, then the Markdown of each group in that order. *)
Theorem byFile_groups_the_hits (results : list QueryHit) :
  byFile results [] = groups_of results
  /\ NoDup (JsMap.keys (byFile results []))
  /\ Forall (fun e => snd e <> []) (byFile results [])
  /\ length (concat (JsMap.values (byFile results []))) = length results
  /\ forall query,
       match results with
       | [] => True
       | _ :: _ =>
           formatQueryResults query results
           = results_heading query (length results)
             ++ flat_map group_markdown (groups_of results)
       end.
Proof.
  assert (H : byFile results [] = groups_of results).
  { rewrite byFile_from by constructor. reflexivity. }
  split; [exact H|].
  assert (Htext : forall query,
             match results with
             | [] => True
             | _ :: _ =>
                 formatQueryResults query results
                 = results_heading query (length results)
                   ++ flat_map group_markdown (groups_of results)
             end).
  { intros query. destruct results as [|r rest]; [exact I|].
    unfold formatQueryResults, results_heading. rewrite H.
    now rewrite <- !app_assoc. }
  cut (NoDup (JsMap.keys (byFile results []))
       /\ Forall (fun e => snd e <> []) (byFile results [])
       /\ length (concat (JsMap.values (byFile results []))) = length results).
  { intros (H1 & H2 & H3). repeat split; assumption. }
  clear Htext. rewrite H. unfold groups_of. split; [|split].
  - unfold JsMap.keys. rewrite map_map. cbn [fst]. rewrite map_id.
    apply unique_NoDup.
  - apply Forall_forall. intros e He. apply in_map_iff in He.
    destruct He as (k & <- & Hk). cbn [snd]. apply unique_In in Hk.
    destruct Hk as [Hk _]. apply in_map_iff in Hk.
    destruct Hk as (r & <- & Hr). intros Hempty.
    assert (Hin : In r (members_of (group_key r) results)).
    { unfold members_of. apply filter_In. split; [exact Hr|].
      apply jsstring_eqb_refl. }
    rewrite Hempty in Hin. destruct Hin.
  - fold (groups_of results). rewrite <- H. clear H.
    assert (Hgen : forall rs gs,
               length (concat (JsMap.values (byFile rs gs)))
               = length (concat (JsMap.values gs)) + length rs).
    { induction rs as [|r rest IH]; intros gs.
      - cbn [byFile length]. lia.
      - cbn [byFile]. rewrite IH. cbn [length].
        assert (Hset : forall (m : JsMap.Map (list QueryHit)) k old,
                   JsMap.get k m = Some old ->
                   length (concat (JsMap.values (JsMap.set k (old ++ [r]) m)))
                   = S (length (concat (JsMap.values m)))).
        { induction m as [|[k0 v0] m IHm]; intros k old Hg; [discriminate|].
          cbn [JsMap.get JsMap.set] in *.
          destruct (jsstring_eqb k k0).
          - injection Hg as <-. unfold JsMap.values. cbn [map snd concat].
            rewrite !length_app. simpl. lia.
          - unfold JsMap.values in *. cbn [map snd concat].
            rewrite !length_app, (IHm k old Hg). lia. }
        destruct (JsMap.get (group_key r) gs) as [ms|] eqn:Hget.
        + rewrite Hget, (Hset _ _ _ Hget). lia.
        + rewrite get_set_same. rewrite (Hset _ _ []) by apply get_set_same.
          rewrite set_absent by exact Hget. unfold JsMap.values.
          rewrite map_app, concat_app, length_app. simpl. lia. }
    rewrite Hgen. reflexivity.
Qed.

(* ================================================================== *)
(** * What a search reports *)
(* ================================================================== *)




